(** * stringi: duplicate, pairwise join and flatten (src/join.cpp)

    A shallow embedding of [stri_dup], [stri_join2], [stri_flatten] and
    [stri_flatten_nosep], and the properties of their results.

    Conventions.
    - Positions in vectors (the loop counters [i], [j] and the vector
      lengths [ns], [nc], [nmax], ...) are [nat].  A counter that goes up
      by one below a vector length never leaves the range of [int]; the
      counter of [for (int j = i; j < nsm; j += ns1)] can, and when its
      sum overflows the loop has no result ([strided_int]).
    - Byte counts held in [R_len_t] variables ([bufsize], [cursize],
      [max_index], [last_index], [maxsize], [nchar], [cur], ...) are [Z],
      and every sum or product stored in such a variable is reduced to the
      32-bit two's complement range by [wrap], so that the operators can be
      evaluated beyond that range too.
    - A scratch buffer is a list of bytes of the allocated size; [memcpy]
      and [mkCharLenCE] fail ([None]) when they would leave it.  Every
      [memcpy] is logged with its destination offset and size.
    - An operator returns the warnings it raised and, when it runs to its
      end, the vector it built. *)

From Stdlib Require Import ZArith Strings.Byte Lia.
From stdpp Require Import base tactics option list numbers.

Set Default Proof Using "Type".

(** * Part I: the embedding and the notions used in the statements *)

(** ** The host runtime: character vectors *)

Inductive cetype_t := CE_NATIVE | CE_UTF8 | CE_LATIN1 | CE_BYTES.

(** An element of a character vector: the missing value, or a byte string
    with its declared encoding. *)
Inductive CHARSXP :=
| NA_STRING
| CharLenCE (chars : list byte) (enc : cetype_t).

Abbreviation STRSXP := (list CHARSXP).

Inductive warning := MSG__WARN_RECYCLING_RULE | MSG__COLLAPSE_EXPECTED1.

Definition is_NA_STRING (x : CHARSXP) : bool :=
  match x with NA_STRING => true | CharLenCE _ _ => false end.

(** [CHAR(x)] and [LENGTH(x)] of a string element. *)
Definition CHAR (x : CHARSXP) : list byte :=
  match x with NA_STRING => [x4e; x41] | CharLenCE b _ => b end.

Definition LENGTH (x : CHARSXP) : Z := Z.of_nat (length (CHAR x)).

(** [STRING_ELT(s, i)]; the source only reads inside the vector. *)
Definition STRING_ELT (s : STRSXP) (i : nat) : CHARSXP := default NA_STRING (s !! i).

(** [R_BlankString], the initial content of a fresh character vector. *)
Definition R_BlankString : CHARSXP := CharLenCE [] CE_NATIVE.

Definition allocVector_STRSXP (n : nat) : STRSXP := replicate n R_BlankString.

(** ** R_len_t arithmetic *)

Definition INT_MAX : Z := 2147483647.
Definition INT_MIN : Z := -2147483648.
Definition NA_INTEGER : Z := INT_MIN.

(** Reduction of an integer to the range of [R_len_t] (a 32-bit [int]). *)
Definition wrap (x : Z) : Z := ((x + 2147483648) mod 4294967296 - 2147483648)%Z.

Definition in_R_len_t (x : Z) : Prop := (INT_MIN <= x <= INT_MAX)%Z.

(** ** Scratch buffers *)

Record scratch := Scratch {
  mem : list byte;          (* content, one entry per allocated byte *)
  copies : list (Z * Z)     (* log: (destination offset, size) of every memcpy, latest first *)
}.

(** [new char[n]] / [R_alloc(n, 1)]: the content of a fresh buffer is not
    specified; zero bytes stand for it. *)
Definition new_char (n : Z) : scratch := Scratch (replicate (Z.to_nat n) x00) [].

(** [memcpy(buf + off, src, n)]. *)
Definition memcpy (b : scratch) (off : Z) (src : list byte) (n : Z) : option scratch :=
  if ((0 <=? off) && (0 <=? n) && (off + n <=? Z.of_nat (length (mem b)))
      && (n <=? Z.of_nat (length src)))%Z
  then Some (Scratch (take (Z.to_nat off) (mem b) ++ take (Z.to_nat n) src
                        ++ drop (Z.to_nat (off + n)) (mem b))
                     ((off, n) :: copies b))
  else None.

(** [mkCharLenCE(buf, len, enc)]: a string element made of the first [len]
    bytes of the buffer. *)
Definition mkCharLenCE (b : list byte) (len : Z) (enc : cetype_t) : option CHARSXP :=
  if ((0 <=? len) && (len <=? Z.of_nat (length b)))%Z
  then Some (CharLenCE (take (Z.to_nat len) b) enc)
  else None.

(** [mkCharLen(buf, len)] is [mkCharLenCE] with the native encoding. *)
Definition mkCharLen (b : list byte) (len : Z) : option CHARSXP := mkCharLenCE b len CE_NATIVE.

(** [mkCharLen("", 0)]. *)
Definition empty_string : CHARSXP := CharLenCE [] CE_NATIVE.

(** Modelled from the spec: [stri__vector_NA_strings] is not part of
    join.cpp; with [n = 1] it is "a length-1 sequence containing null". *)
Definition stri__vector_NA_strings (n : nat) : STRSXP := replicate n NA_STRING.

(** Modelled from the spec: [stri__vector_empty_strings] is not part of
    join.cpp; with [n = 0] it is "the empty sequence (length 0, not length
    1)". *)
Definition stri__vector_empty_strings (n : nat) : STRSXP := replicate n empty_string.

(** ** Recycling and loops *)

(** Modelled from the spec: [stri__recycling_rule] is not part of join.cpp.
    "Given operand lengths n1, ..., nk, returns L = max(ni) and, when any
    ni does not divide L, raises a non-fatal warning RECYCLING_RULE exactly
    once per call.  If any ni == 0 [...] L = 0." *)
Definition stri__recycling_rule (enableWarning : bool) (ns : list nat) : nat * list warning :=
  if existsb (Nat.eqb 0) ns then (0, [])
  else
    let nsm := foldr Nat.max 0 ns in
    (nsm, if enableWarning && existsb (fun n => negb (nsm mod n =? 0)) ns
          then [MSG__WARN_RECYCLING_RULE] else []).

(** The positions [j, j + step, j + 2 step, ...] below [bound]: the values
    taken by the counter of [for (j = i; j < nsm; j += ns1)].  The counter
    grows at every turn, so [bound] turns suffice when [step > 0]. *)
Fixpoint strided (fuel j step bound : nat) : list nat :=
  match fuel with
  | O => []
  | S fuel' => if j <? bound then j :: strided fuel' (j + step) step bound else []
  end.

(** The values taken by the counter of [for (int j = i; j < nsm; j += ns1)],
    an [int]: each turn ends with the sum [j + ns1], and when that sum
    exceeds [INT_MAX] it overflows; the behaviour of the source is then
    undefined and the loop has no result ([None]).  As for [strided],
    [bound] turns suffice when [step > 0]. *)
Fixpoint strided_int (fuel j step bound : nat) : option (list nat) :=
  match fuel with
  | O => Some []
  | S fuel' =>
      if j <? bound then
        if (Z.of_nat j + Z.of_nat step <=? INT_MAX)%Z
        then js ← strided_int fuel' (j + step) step bound; Some (j :: js)
        else None
      else Some []
  end.

(** A loop whose body may fail, run over the values its counter takes. *)
Fixpoint for_each {S : Type} (body : S -> nat -> option S) (counter : list nat) (st : S)
    : option S :=
  match counter with
  | [] => Some st
  | i :: counter' => st' ← body st i; for_each body counter' st'
  end.

(** ** UTF-8 views of character vectors *)

Abbreviation String8 := (list byte).

(** Modelled from the spec: [StriContainerUTF8] is not part of join.cpp.
    "Construction takes a StringSequence s and a target length
    L >= length(s).  Access at index i refers to the underlying element at
    i mod length(s)."  A null element has no string ([None]). *)
Record StriContainerUTF8 := Container {
  n : nat;                        (* number of underlying strings *)
  nrecycle : nat;                 (* the requested length L *)
  str : list (option String8)     (* the underlying strings, in UTF-8 *)
}.

(** Modelled from the spec: [is_null(i)]. *)
Definition isNA (ss : StriContainerUTF8) (i : nat) : bool :=
  match str ss !! (i mod n ss) with Some (Some _) => false | _ => true end.

(** Modelled from the spec: [bytes(i)], "valid only when not null". *)
Definition get (ss : StriContainerUTF8) (i : nat) : String8 :=
  match str ss !! (i mod n ss) with Some (Some s) => s | _ => [] end.

(** Modelled from the spec: "identity(i) returns equal tokens for two
    indices if and only if they resolve to the same underlying source
    element": the address [&ss->get(i)] is the slot of the underlying
    element. *)
Definition address_of_get (ss : StriContainerUTF8) (i : nat) : nat := i mod n ss.

(** Modelled from the spec: the iterator [vectorize_init],
    [vectorize_next], [vectorize_end] walks "a permutation of output
    indices that maximizes identity-locality": all the positions that
    resolve to underlying element 0, then those of element 1, and so on. *)
Definition vectorize_order (ss : StriContainerUTF8) : list nat :=
  mjoin ((fun r => strided (nrecycle ss) r (n ss) (nrecycle ss)) <$> seq 0 (n ss)).

Section Containers.

(** The conversion of a string in a declared encoding to UTF-8 belongs to
    the container's implementation; it is a parameter here. *)
Variable to_utf8 : cetype_t -> list byte -> String8.

(** Modelled from the spec: "If the underlying element is not already
    UTF-8, it is converted"; the null marker stays null. *)
Definition utf8_view (x : CHARSXP) : option String8 :=
  match x with
  | NA_STRING => None
  | CharLenCE b e => Some (to_utf8 e b)
  end.

(** Modelled from the spec: [new StriContainerUTF8(rstr, nrecycle)], the
    view of [rstr] with the requested length [nrecycle]. *)
Definition StriContainerUTF8_new (rstr : STRSXP) (nrecycle : nat) : StriContainerUTF8 :=
  Container (length rstr) nrecycle (utf8_view <$> rstr).

End Containers.

(** [s.length()] and [s.size()] of a [String8]. *)
Definition String8_length (s : String8) : Z := Z.of_nat (length s).

(** [INTEGER(c)[k]]. *)
Definition INTEGER_ELT (c : list Z) (k : nat) : Z := default 0%Z (c !! k).

(** ** stri_dup *)

(** STEP 1: the required buffer length. *)
Definition dup_bufsize_step (ss : StriContainerUTF8) (cc : list Z) (nc : nat)
    (bufsize : Z) (i : nat) : Z :=
  if isNA ss i || (INTEGER_ELT cc (i mod nc) =? NA_INTEGER)%Z then bufsize
  else
    let cursize := wrap (INTEGER_ELT cc (i mod nc) * String8_length (get ss i)) in
    if (cursize >? bufsize)%Z then cursize else bufsize.

Definition dup_bufsize (ss : StriContainerUTF8) (cc : list Z) (nc nmax : nat) : Z :=
  fold_left (dup_bufsize_step ss cc nc) (seq 0 nmax) 0%Z.

(** The variables of STEP 3 that live across the turns of the loop. *)
Record dup_state := DupState {
  buf : scratch;
  last_string : option nat;    (* NULL, or the address of the string pasted last *)
  last_index : Z;
  ret : STRSXP
}.

(** [for (; last_index < max_index; last_index += cur_length) memcpy(...)].
    [fuel] bounds the number of turns. *)
Fixpoint dup_paste (fuel : nat) (b : scratch) (last_index max_index : Z)
    (cur_string : String8) (cur_length : Z) : option (scratch * Z) :=
  match fuel with
  | O => None
  | S fuel' =>
      if (last_index <? max_index)%Z then
        b' ← memcpy b last_index cur_string cur_length;
        dup_paste fuel' b' (wrap (last_index + cur_length)) max_index cur_string cur_length
      else Some (b, last_index)
  end.

(** One turn of the loop of STEP 3, at position [i]. *)
Definition dup_step (ss : StriContainerUTF8) (cc : list Z) (nc : nat)
    (st : dup_state) (i : nat) : option dup_state :=
  let cur_dups := INTEGER_ELT cc (i mod nc) in
  if isNA ss i || (cur_dups =? NA_INTEGER)%Z || (cur_dups <? 0)%Z then
    Some (DupState (buf st) (last_string st) (last_index st) (<[i := NA_STRING]> (ret st)))
  else
    let cur_string := get ss i in
    let cur_length := String8_length cur_string in
    if (cur_dups <=? 0)%Z || (cur_length <=? 0)%Z then
      Some (DupState (buf st) (last_string st) (last_index st) (<[i := empty_string]> (ret st)))
    else
      let '(last_string', last_index') :=
        if decide (last_string st = Some (address_of_get ss i))
        then (last_string st, last_index st)
        else (Some (address_of_get ss i), 0%Z) in
      let max_index := wrap (cur_length * cur_dups) in
      '(b, last_index'') ← dup_paste (S (Z.to_nat max_index)) (buf st) last_index' max_index
                             cur_string cur_length;
      x ← mkCharLenCE (mem b) max_index CE_UTF8;
      Some (DupState b last_string' last_index'' (<[i := x]> (ret st))).

(** The loop of STEP 3 over the positions the iterator yields. *)
Definition dup_loop (ss : StriContainerUTF8) (cc : list Z) (nc : nat)
    (order : list nat) (st : dup_state) : option dup_state :=
  for_each (dup_step ss cc nc) order st.

Section Operators.

Variable to_utf8 : cetype_t -> list byte -> String8.

(** STEPS 1 to 3 of [stri_dup], for [nmax > 0]: the final state of the loop. *)
Definition stri_dup_emit (s : STRSXP) (c : list Z) (nmax : nat) : option dup_state :=
  let nc := length c in
  let ss := StriContainerUTF8_new to_utf8 s nmax in
  let bufsize := dup_bufsize ss c nc nmax in
  let buf := new_char (wrap (bufsize + 1)) in
  let ret := allocVector_STRSXP nmax in
  dup_loop ss c nc (vectorize_order ss) (DupState buf None 0%Z ret).

(** [stri_dup(s, c)]: the warnings raised and the vector returned. *)
Definition stri_dup (s : STRSXP) (c : list Z) : list warning * option STRSXP :=
  let '(nmax, w) := stri__recycling_rule true [length s; length c] in
  if (nmax <=? 0)%nat then (w, Some (allocVector_STRSXP 0))
  else (w, ret <$> stri_dup_emit s c nmax).

End Operators.

(** ** Notions used in the statements about stri_dup *)

(** [k] copies of [t], one after the other. *)
Fixpoint repeated (k : nat) (t : list byte) : list byte :=
  match k with
  | O => []
  | S k' => t ++ repeated k' t
  end.

(** A logged copy stays below [bound]. *)
Definition copy_below (bound : Z) (c : Z * Z) : Prop :=
  (0 <= fst c /\ fst c + snd c <= bound)%Z.

(** A slot the sizing pass does not skip, and the bytes it asks for. *)
Definition dup_live (ss : StriContainerUTF8) (cc : list Z) (nc i : nat) : bool :=
  negb (isNA ss i || (INTEGER_ELT cc (i mod nc) =? NA_INTEGER)%Z).

Definition dup_need (ss : StriContainerUTF8) (cc : list Z) (nc i : nat) : Z :=
  (INTEGER_ELT cc (i mod nc) * String8_length (get ss i))%Z.

(** The product of slot [i] fits [R_len_t], with room for the extra byte
    of [new char[bufsize+1]]. *)
Definition dup_slot_fits (ss : StriContainerUTF8) (cc : list Z) (nc i : nat) : bool :=
  negb (dup_live ss cc nc i)
  || ((INT_MIN <=? dup_need ss cc nc i)%Z && (dup_need ss cc nc i <? INT_MAX)%Z).

(** What the source's rules give at slot [i]. *)
Definition dup_slot (ss : StriContainerUTF8) (cc : list Z) (nc i : nat) : CHARSXP :=
  let ci := INTEGER_ELT cc (i mod nc) in
  if isNA ss i || (ci =? NA_INTEGER)%Z || (ci <? 0)%Z then NA_STRING
  else if (ci =? 0)%Z || (String8_length (get ss i) =? 0)%Z then empty_string
  else CharLenCE (repeated (Z.to_nat ci) (get ss i)) CE_UTF8.

(** What holds of the loop variables between two turns: the scratch has
    room for [B] bytes, every logged copy stayed below [B], and the buffer
    starts with [last_index] bytes of copies of the string pasted last. *)
Definition dup_inv (ss : StriContainerUTF8) (nmax : nat) (B : Z) (st : dup_state) : Prop :=
  (B <= Z.of_nat (length (mem (buf st))))%Z
  /\ length (ret st) = nmax
  /\ Forall (copy_below B) (copies (buf st))
  /\ match last_string st with
     | None => last_index st = 0%Z
     | Some a =>
         exists t m, str ss !! a = Some (Some t) /\ (0 < length t)%nat
                     /\ last_index st = Z.of_nat (m * length t)
                     /\ take (m * length t) (mem (buf st)) = repeated m t
     end.

(** The recycled (broadcast) length of two operands. *)
Definition recycled_length (n1 n2 : nat) : nat :=
  fst (stri__recycling_rule true [n1; n2]).

(** Every slot the sizing pass looks at fits [R_len_t]. *)
Definition dup_fits (to_utf8 : cetype_t -> list byte -> String8)
    (s : STRSXP) (c : list Z) : bool :=
  let nmax := recycled_length (length s) (length c) in
  forallb (dup_slot_fits (StriContainerUTF8_new to_utf8 s nmax) c (length c)) (seq 0 nmax).

(** The naive duplicate, written from the words of the specification (the
    per-slot table of Duplicate): each output slot is built on its own, by
    writing [ci] copies of [si] afresh; no buffer is shared between slots. *)
Definition naive_slot (si : option String8) (ci : Z) : CHARSXP :=
  match si with
  | None => NA_STRING
  | Some b =>
      if (ci =? NA_INTEGER)%Z then NA_STRING
      else if (ci <? 0)%Z then NA_STRING
      else if (ci =? 0)%Z then empty_string
      else if (String8_length b =? 0)%Z then empty_string
      else CharLenCE (repeated (Z.to_nat ci) b) CE_UTF8
  end.

Definition duplicate_naive (to_utf8 : cetype_t -> list byte -> String8)
    (s : STRSXP) (c : list Z) : STRSXP :=
  (fun i => naive_slot (utf8_view to_utf8 (STRING_ELT s (i mod length s)))
                       (INTEGER_ELT c (i mod length c)))
  <$> seq 0 (recycled_length (length s) (length c)).

(** ** stri_join2 *)

(** The sizing loops: the inner turn at [j] for a non-NA [curs1] of
    length [cnsl], and the outer turn at [i]; no size when the counter [j]
    overflows. *)
Definition join2_maxsize_inner (s2 : STRSXP) (ns2 : nat) (cnsl : Z) (maxsize : Z) (j : nat) : Z :=
  let curs2 := STRING_ELT s2 (j mod ns2) in
  if is_NA_STRING curs2 then maxsize
  else
    let cns2 := LENGTH curs2 in
    if (wrap (cnsl + cns2) >? maxsize)%Z then wrap (cnsl + cns2) else maxsize.

Definition join2_maxsize_outer (s1 s2 : STRSXP) (ns1 ns2 nsm : nat) (maxsize : Z) (i : nat)
    : option Z :=
  let curs1 := STRING_ELT s1 i in
  if is_NA_STRING curs1 then Some maxsize
  else
    js ← strided_int nsm i ns1 nsm;
    Some (fold_left (join2_maxsize_inner s2 ns2 (LENGTH curs1)) js maxsize).

Definition join2_maxsize (s1 s2 : STRSXP) (ns1 ns2 nsm : nat) : option Z :=
  for_each (join2_maxsize_outer s1 s2 ns1 ns2 nsm) (seq 0 ns1) 0%Z.

(** The loop of the case [maxsize <= 0]. *)
Definition join2_blank_step (s1 s2 : STRSXP) (ns1 ns2 : nat) (e : STRSXP) (i : nat) : STRSXP :=
  if is_NA_STRING (STRING_ELT s1 (i mod ns1)) || is_NA_STRING (STRING_ELT s2 (i mod ns2))
  then <[i := NA_STRING]> e
  else <[i := empty_string]> e.

(** The variables of the copying loops: the buffer, the offset of [buf2]
    from [buf], and the output vector. *)
Record join2_state := Join2State {
  jbuf : scratch;
  buf2 : Z;
  e : STRSXP
}.

(** The inner turn at [j] for a non-NA [ss1] with bytes [si1], length [sn1]. *)
Definition join2_inner_step (s2 : STRSXP) (ns2 : nat) (si1 : list byte) (sn1 : Z)
    (st : join2_state) (j : nat) : option join2_state :=
  let ss2 := STRING_ELT s2 (j mod ns2) in
  if is_NA_STRING ss2 then
    Some (Join2State (jbuf st) (buf2 st) (<[j := NA_STRING]> (e st)))
  else
    let si2 := CHAR ss2 in
    let sn2 := LENGTH ss2 in
    '(b, buf2') ← (if negb (sn1 =? 0)%Z && (buf2 st =? 0)%Z
                   then b ← memcpy (jbuf st) 0 si1 sn1; Some (b, (0 + sn1)%Z)
                   else Some (jbuf st, buf2 st));
    b' ← (if negb (sn2 =? 0)%Z then memcpy b buf2' si2 sn2 else Some b);
    x ← mkCharLen (mem b') (wrap (sn1 + sn2));
    Some (Join2State b' buf2' (<[j := x]> (e st))).

(** The inner loop of an NA [ss1]. *)
Definition join2_na_step (st : join2_state) (j : nat) : option join2_state :=
  Some (Join2State (jbuf st) (buf2 st) (<[j := NA_STRING]> (e st))).

(** The outer turn at [i]. *)
Definition join2_outer_step (s1 s2 : STRSXP) (ns1 ns2 nsm : nat)
    (st : join2_state) (i : nat) : option join2_state :=
  let ss1 := STRING_ELT s1 i in
  if is_NA_STRING ss1 then
    js ← strided_int nsm i ns1 nsm;
    for_each join2_na_step js st
  else
    js ← strided_int nsm i ns1 nsm;
    for_each (join2_inner_step s2 ns2 (CHAR ss1) (LENGTH ss1)) js
             (Join2State (jbuf st) 0%Z (e st)).

(** [stri_join2(s1, s2)]: the warnings raised and the vector returned. *)
Definition stri_join2 (s1 s2 : STRSXP) : list warning * option STRSXP :=
  let ns1 := length s1 in
  let ns2 := length s2 in
  let '(nsm, w) := stri__recycling_rule true [ns1; ns2] in
  if (ns1 <=? 0)%nat then (w, Some s2)
  else if (ns2 <=? 0)%nat then (w, Some s1)
  else
    (w, maxsize ← join2_maxsize s1 s2 ns1 ns2 nsm;
        let e0 := allocVector_STRSXP nsm in
        if (maxsize <=? 0)%Z then
          Some (fold_left (join2_blank_step s1 s2 ns1 ns2) (seq 0 nsm) e0)
        else
          e <$> for_each (join2_outer_step s1 s2 ns1 ns2 nsm) (seq 0 ns1)
                  (Join2State (new_char maxsize) 0%Z e0)).

(** ** Notions used in the statements about stri_join2 *)

(** What the source's rules give at slot [j], and the bytes it needs. *)
Definition join2_live (s1 s2 : STRSXP) (ns1 ns2 j : nat) : bool :=
  negb (is_NA_STRING (STRING_ELT s1 (j mod ns1)) || is_NA_STRING (STRING_ELT s2 (j mod ns2))).

Definition join2_need (s1 s2 : STRSXP) (ns1 ns2 j : nat) : Z :=
  (LENGTH (STRING_ELT s1 (j mod ns1)) + LENGTH (STRING_ELT s2 (j mod ns2)))%Z.

Definition join2_slot (s1 s2 : STRSXP) (ns1 ns2 j : nat) : CHARSXP :=
  if join2_live s1 s2 ns1 ns2 j
  then CharLenCE (CHAR (STRING_ELT s1 (j mod ns1)) ++ CHAR (STRING_ELT s2 (j mod ns2))) CE_NATIVE
  else NA_STRING.

Definition join2_slot_fits (s1 s2 : STRSXP) (ns1 ns2 j : nat) : bool :=
  negb (join2_live s1 s2 ns1 ns2 j) || (join2_need s1 s2 ns1 ns2 j <=? INT_MAX)%Z.

(** The counter [j] of the inner loops stays in the range of [int]: its
    last sum is at most [nsm - 1 + ns1]. *)
Definition join2_counter_fits (ns1 nsm : nat) : bool :=
  (Z.of_nat nsm + Z.of_nat ns1 - 1 <=? INT_MAX)%Z.

(** Every [int] of a call stays in range: the counter [j], and the joined
    byte count of every slot. *)
Definition join2_fits (s1 s2 : STRSXP) : bool :=
  join2_counter_fits (length s1) (recycled_length (length s1) (length s2))
  && forallb (join2_slot_fits s1 s2 (length s1) (length s2))
             (seq 0 (recycled_length (length s1) (length s2))).

(** Between two inner turns for the string [si1]: the buffer has room for
    [M] bytes, and either [buf2] is still [buf], or [si1] has been copied
    to the front of the buffer and [buf2] points behind it. *)
Definition join2_inv (M : Z) (si1 : list byte) (st : join2_state) : Prop :=
  (M <= Z.of_nat (length (mem (jbuf st))))%Z
  /\ (buf2 st = 0%Z
      \/ (buf2 st = String8_length si1 /\ take (length si1) (mem (jbuf st)) = si1)).

(** ** Inputs beyond the range of R_len_t *)

(** A string of 2^30 bytes, the letter [a] throughout.  Two of them have
    2^31 bytes together, one more than [INT_MAX]. *)
Definition string_2_30 : list byte := replicate (Z.to_nat 1073741824) x61.

(** ** stri_flatten *)

(** 1. The required buffer size; [None] when an NA element is met (the
    function returns at once). *)
Fixpoint flatten_size (ss : StriContainerUTF8) (ns : nat) (ncharsep : Z)
    (counter : list nat) (nchar : Z) : option Z :=
  match counter with
  | [] => Some nchar
  | i :: counter' =>
      if isNA ss i then None
      else flatten_size ss ns ncharsep counter'
             (wrap (nchar + wrap (String8_length (get ss i)
                                  + (if (i <? ns - 1)%nat then ncharsep else 0))))
  end.

(** 2. One turn of the filling loop; the state is the buffer and [cur]. *)
Definition flatten_fill_step (ss ssep : StriContainerUTF8) (ns : nat) (ncharsep : Z)
    (st : scratch * Z) (i : nat) : option (scratch * Z) :=
  let ncur := String8_length (get ss i) in
  b1 ← memcpy (fst st) (snd st) (get ss i) ncur;
  let cur1 := wrap (snd st + ncur) in
  if (i <? ns - 1)%nat && (ncharsep >? 0)%Z then
    b2 ← memcpy b1 cur1 (get ssep 0) ncharsep;
    Some (b2, wrap (cur1 + ncharsep))
  else Some (b1, cur1).

Section Flatten.

Variable to_utf8 : cetype_t -> list byte -> String8.

(** [stri_flatten(s, sep)]: the warnings raised and, when the function
    returns, the log of the copies it made and the vector returned. *)
Definition stri_flatten_run (s sep : STRSXP) : list warning * option (list (Z * Z) * STRSXP) :=
  let ns := length s in
  let nsep := length sep in
  if (ns <=? 0)%nat || (nsep <=? 0)%nat then ([], Some ([], stri__vector_empty_strings 0))
  else
    let '(w, sep1) :=
      if (1 <? nsep)%nat then ([MSG__COLLAPSE_EXPECTED1], [STRING_ELT sep 0]) else ([], sep) in
    let ssep := StriContainerUTF8_new to_utf8 sep1 1 in
    if isNA ssep 0 then (w, Some ([], stri__vector_NA_strings 1))
    else
      let ncharsep := String8_length (get ssep 0) in
      let ss := StriContainerUTF8_new to_utf8 s ns in
      match flatten_size ss ns ncharsep (seq 0 ns) 0%Z with
      | None => (w, Some ([], stri__vector_NA_strings 1))
      | Some nchar =>
          (w, st ← for_each (flatten_fill_step ss ssep ns ncharsep) (seq 0 ns)
                     (new_char nchar, 0%Z);
              x ← mkCharLenCE (mem (fst st)) nchar CE_UTF8;
              Some (copies (fst st), <[0%nat := x]> (allocVector_STRSXP 1)))
      end.

Definition stri_flatten (s sep : STRSXP) : list warning * option STRSXP :=
  (fst (stri_flatten_run s sep), snd <$> snd (stri_flatten_run s sep)).

End Flatten.

(** ** Valid UTF-8 *)

Inductive utf8_state :=
| U_start        (* between two code points *)
| U_tail1        (* one continuation byte to come *)
| U_tail2        (* two continuation bytes to come *)
| U_tail3        (* three continuation bytes to come *)
| U_after_E0     (* next byte in A0..BF, then one more *)
| U_after_ED     (* next byte in 80..9F, then one more *)
| U_after_F0     (* next byte in 90..BF, then two more *)
| U_after_F4     (* next byte in 80..8F, then two more *)
| U_reject.

Definition byte_in (lo hi : N) (b : byte) : bool :=
  ((lo <=? Byte.to_N b) && (Byte.to_N b <=? hi))%N.

Definition utf8_step (q : utf8_state) (b : byte) : utf8_state :=
  match q with
  | U_start =>
      if byte_in 0 127 b then U_start
      else if byte_in 194 223 b then U_tail1
      else if byte_in 224 224 b then U_after_E0
      else if byte_in 237 237 b then U_after_ED
      else if byte_in 225 239 b then U_tail2
      else if byte_in 240 240 b then U_after_F0
      else if byte_in 241 243 b then U_tail3
      else if byte_in 244 244 b then U_after_F4
      else U_reject
  | U_tail1 => if byte_in 128 191 b then U_start else U_reject
  | U_tail2 => if byte_in 128 191 b then U_tail1 else U_reject
  | U_tail3 => if byte_in 128 191 b then U_tail2 else U_reject
  | U_after_E0 => if byte_in 160 191 b then U_tail1 else U_reject
  | U_after_ED => if byte_in 128 159 b then U_tail1 else U_reject
  | U_after_F0 => if byte_in 144 191 b then U_tail2 else U_reject
  | U_after_F4 => if byte_in 128 143 b then U_tail2 else U_reject
  | U_reject => U_reject
  end.

Definition valid_utf8 (l : list byte) : bool :=
  match fold_left utf8_step l U_start with
  | U_start => true
  | _ => false
  end.

(** ** Notions used in the statements about stri_flatten *)

(** The bytes the filling loop writes for the strings [l]: each string,
    followed by the separator unless it is the last one. *)
Fixpoint interleave (sepv : list byte) (l : list String8) : list byte :=
  match l with
  | [] => []
  | x :: rest => x ++ match rest with [] => [] | _ :: _ => sepv ++ interleave sepv rest end
  end.

(** The string of the specification: the first string, then the separator
    and the next string for each of the others. *)
Definition flatten_joined (sepv : list byte) (l : list String8) : list byte :=
  match l with
  | [] => []
  | x :: rest => x ++ mjoin ((fun y => sepv ++ y) <$> rest)
  end.

(** The UTF-8 bytes of a non-NA element. *)
Definition view_bytes (to_utf8 : cetype_t -> list byte -> String8) (x : CHARSXP) : String8 :=
  default [] (utf8_view to_utf8 x).

(** The size of the specification:
    [sum of byte_len(s[i]) + (len(s) - 1) * byte_len(sep)]. *)
Definition flatten_nchar (sepv : list byte) (l : list String8) : Z :=
  (Z.of_nat (sum_list (length <$> l)) + (Z.of_nat (length l) - 1) * String8_length sepv)%Z.

Definition flatten_fits (to_utf8 : cetype_t -> list byte -> String8)
    (s : STRSXP) (sp : CHARSXP) : bool :=
  (flatten_nchar (view_bytes to_utf8 sp) (view_bytes to_utf8 <$> s) <=? INT_MAX)%Z.

(** ** stri_flatten_nosep *)

(** 1. The required buffer size; [None] when an NA element is met. *)
Fixpoint flatten_nosep_size (ss : StriContainerUTF8) (counter : list nat) (nchar : Z)
    : option Z :=
  match counter with
  | [] => Some nchar
  | i :: counter' =>
      if isNA ss i then None
      else flatten_nosep_size ss counter' (wrap (nchar + String8_length (get ss i)))
  end.

(** 2. One turn of the filling loop. *)
Definition flatten_nosep_fill_step (ss : StriContainerUTF8)
    (st : scratch * Z) (i : nat) : option (scratch * Z) :=
  let ncur := String8_length (get ss i) in
  b ← memcpy (fst st) (snd st) (get ss i) ncur;
  Some (b, wrap (snd st + ncur)).

(** [stri_flatten_nosep(s)]: the log of the copies made and the vector
    returned. *)
Definition stri_flatten_nosep_run (to_utf8 : cetype_t -> list byte -> String8)
    (s : STRSXP) : option (list (Z * Z) * STRSXP) :=
  let ns := length s in
  if (ns <=? 0)%nat then Some ([], s)
  else
    let ss := StriContainerUTF8_new to_utf8 s ns in
    match flatten_nosep_size ss (seq 0 ns) 0%Z with
    | None => Some ([], stri__vector_NA_strings 1)
    | Some nchar =>
        st ← for_each (flatten_nosep_fill_step ss) (seq 0 ns) (new_char nchar, 0%Z);
        x ← mkCharLenCE (mem (fst st)) nchar CE_UTF8;
        Some (copies (fst st), <[0%nat := x]> (allocVector_STRSXP 1))
    end.

(** ** Notions used in the further results *)

(** The number of bytes copied according to a log of copies. *)
Definition log_total (l : list (Z * Z)) : Z := foldr (fun c acc => (snd c + acc)%Z) 0%Z l.

(** A string element with its declared encoding replaced by the native
    one, as [mkCharLen] builds it. *)
Definition as_native (x : CHARSXP) : CHARSXP :=
  match x with
  | NA_STRING => NA_STRING
  | CharLenCE b _ => CharLenCE b CE_NATIVE
  end.

(** A log of copies (latest first) that tiles the first [stop] bytes of a
    buffer: the earliest copy starts at offset 0, every other copy starts
    where the one before it ended, and the latest ends at [stop]. *)
Fixpoint log_tiles (l : list (Z * Z)) (stop : Z) : Prop :=
  match l with
  | [] => stop = 0%Z
  | c :: l' => (0 <= snd c)%Z /\ (fst c + snd c)%Z = stop /\ log_tiles l' (fst c)
  end.

(** Between two turns of a filling loop ([stri_flatten],
    [stri_flatten_nosep]): the bytes copied so far are the [cur] first
    bytes of the buffer, each copied once. *)
Definition fill_inv (st : scratch * Z) : Prop :=
  (0 <= snd st)%Z
  /\ (Z.of_nat (length (mem (fst st))) <= INT_MAX)%Z
  /\ log_total (copies (fst st)) = snd st
  /\ Forall (copy_below (snd st)) (copies (fst st))
  /\ log_tiles (copies (fst st)) (snd st).

(** The total size of [stri_flatten_nosep] fits [R_len_t]. *)
Definition flatten_nosep_fits (to_utf8 : cetype_t -> list byte -> String8) (s : STRSXP) : bool :=
  (Z.of_nat (sum_list (length <$> (view_bytes to_utf8 <$> s))) <=? INT_MAX)%Z.

(** Between two turns of the copying loops of [stri_join2]: the buffer
    keeps its [size] bytes and every copy stayed inside them. *)
Definition join2_scratch_inv (size : nat) (st : join2_state) : Prop :=
  length (mem (jbuf st)) = size
  /\ Forall (copy_below (Z.of_nat size)) (copies (jbuf st)).

(** The three strings joined at slot [j] fit [R_len_t] together (vectors
    of the same length). *)
Definition join3_slot_fits (a b c : STRSXP) (j : nat) : bool :=
  is_NA_STRING (STRING_ELT a j) || is_NA_STRING (STRING_ELT b j) || is_NA_STRING (STRING_ELT c j)
  || (LENGTH (STRING_ELT a j) + LENGTH (STRING_ELT b j) + LENGTH (STRING_ELT c j) <=? INT_MAX)%Z.

Definition join3_fits (a b c : STRSXP) : bool :=
  forallb (join3_slot_fits a b c) (seq 0 (length a)).

(** Between two turns of the loop of [stri_dup] when there is a single
    source string: the bytes copied so far are the [last_index] first
    bytes of the buffer, each copied once, and [last_string] is NULL or
    that string. *)
Definition dup_single_inv (st : dup_state) : Prop :=
  (0 <= last_index st)%Z
  /\ (Z.of_nat (length (mem (buf st))) <= INT_MAX)%Z
  /\ log_total (copies (buf st)) = last_index st
  /\ (last_index st = 0%Z
      \/ exists off size, (off, size) ∈ copies (buf st) /\ (off + size)%Z = last_index st)
  /\ match last_string st with
     | None => last_index st = 0%Z
     | Some a => a = 0%nat
     end.

(** * Part II: lemmas and theorems *)

(** ** The scenarios of the specification, by evaluation *)

Example dup_scenario1 :
  stri_dup (fun _ b => b) [CharLenCE [x61; x62] CE_UTF8; CharLenCE [x78] CE_UTF8] [3; 0; 2]%Z
  = ([MSG__WARN_RECYCLING_RULE],
     Some [CharLenCE [x61; x62; x61; x62; x61; x62] CE_UTF8; empty_string;
           CharLenCE [x61; x62; x61; x62] CE_UTF8]).
Proof. reflexivity. Qed.

(** A later slot of the same source string with a smaller count reads a
    prefix of the copies already in the buffer. *)
Example dup_smaller_count_later :
  stri_dup (fun _ b => b) [CharLenCE [x61; x62] CE_UTF8] [3; 1; 2]%Z
  = ([], Some [CharLenCE [x61; x62; x61; x62; x61; x62] CE_UTF8;
               CharLenCE [x61; x62] CE_UTF8;
               CharLenCE [x61; x62; x61; x62] CE_UTF8]).
Proof. reflexivity. Qed.

Example join2_scenario4 :
  stri_join2 [CharLenCE [x66; x6f; x6f] CE_NATIVE; CharLenCE [x62; x61; x72] CE_NATIVE]
             [CharLenCE [x58] CE_NATIVE; CharLenCE [x59] CE_NATIVE;
              CharLenCE [x5a] CE_NATIVE; CharLenCE [x57] CE_NATIVE]
  = ([], Some [CharLenCE [x66; x6f; x6f; x58] CE_NATIVE; CharLenCE [x62; x61; x72; x59] CE_NATIVE;
               CharLenCE [x66; x6f; x6f; x5a] CE_NATIVE; CharLenCE [x62; x61; x72; x57] CE_NATIVE]).
Proof. reflexivity. Qed.

Example join2_scenario5 :
  stri_join2 [CharLenCE [x61] CE_NATIVE; NA_STRING; CharLenCE [x63] CE_NATIVE]
             [CharLenCE [x31] CE_NATIVE; CharLenCE [x32] CE_NATIVE; CharLenCE [x33] CE_NATIVE]
  = ([], Some [CharLenCE [x61; x31] CE_NATIVE; NA_STRING; CharLenCE [x63; x33] CE_NATIVE]).
Proof. reflexivity. Qed.

Example flatten_scenario6 :
  stri_flatten (fun _ b => b)
    [CharLenCE [xce; xb1] CE_UTF8; CharLenCE [xce; xb2] CE_UTF8; CharLenCE [xce; xb3] CE_UTF8]
    [CharLenCE [x2d] CE_UTF8]
  = ([], Some [CharLenCE [xce; xb1; x2d; xce; xb2; x2d; xce; xb3] CE_UTF8]).
Proof. reflexivity. Qed.

Example flatten_scenario7 :
  stri_flatten (fun _ b => b)
    [CharLenCE [x61] CE_UTF8; NA_STRING; CharLenCE [x62] CE_UTF8] [CharLenCE [x2c] CE_UTF8]
  = ([], Some [NA_STRING]).
Proof. reflexivity. Qed.

Example flatten_scenario8 :
  stri_flatten (fun _ b => b) [] [CharLenCE [x2c] CE_UTF8] = ([], Some []).
Proof. reflexivity. Qed.

Example flatten_nosep_concat :
  stri_flatten_nosep_run (fun _ b => b) [CharLenCE [x61] CE_UTF8; CharLenCE [x62; x63] CE_UTF8]
  = Some ([(1, 2); (0, 1)]%Z, [CharLenCE [x61; x62; x63] CE_UTF8]).
Proof. reflexivity. Qed.

Example valid_utf8_alpha : valid_utf8 [xce; xb1; x2d] = true.
Proof. reflexivity. Qed.

Example valid_utf8_surrogate : valid_utf8 [xed; xa0; x80] = false.
Proof. reflexivity. Qed.

(** ** Arithmetic, lists and buffers *)

Lemma wrap_small (x : Z) : in_R_len_t x -> wrap x = x.
Proof.
  unfold in_R_len_t, INT_MIN, INT_MAX, wrap. intros H.
  rewrite Z.mod_small; lia.
Qed.

Lemma LENGTH_nonneg x : (0 <= LENGTH x)%Z.
Proof. unfold LENGTH. lia. Qed.

Lemma repeated_length k t : length (repeated k t) = (k * length t)%nat.
Proof. induction k as [|k IH]; simpl; [done|]. rewrite length_app, IH. lia. Qed.

Lemma repeated_snoc k t : repeated k t ++ t = repeated (S k) t.
Proof.
  induction k as [|k IH]; simpl.
  - by rewrite app_nil_r.
  - rewrite <- app_assoc. f_equal. exact IH.
Qed.

Lemma repeated_take k m t :
  (k <= m)%nat -> take (k * length t) (repeated m t) = repeated k t.
Proof.
  revert m. induction k as [|k IH]; intros m Hkm; simpl.
  - done.
  - destruct m as [|m]; [lia|]. simpl.
    rewrite take_app_add'; [|done]. f_equal. apply IH. lia.
Qed.

Lemma memcpy_Some b off src :
  (0 <= off)%Z ->
  (off + String8_length src <= Z.of_nat (length (mem b)))%Z ->
  memcpy b off src (String8_length src)
  = Some (Scratch (take (Z.to_nat off) (mem b) ++ src
                     ++ drop (Z.to_nat off + length src) (mem b))
                  ((off, String8_length src) :: copies b)).
Proof.
  unfold memcpy, String8_length. intros Hoff Hlen.
  destruct (0 <=? off)%Z eqn:E1; [|lia].
  destruct (0 <=? Z.of_nat (length src))%Z eqn:E2; [|lia].
  destruct (off + Z.of_nat (length src) <=? Z.of_nat (length (mem b)))%Z eqn:E3; [|lia].
  destruct (Z.of_nat (length src) <=? Z.of_nat (length src))%Z eqn:E4; [|lia].
  simpl. rewrite Nat2Z.id, firstn_all.
  replace (Z.to_nat (off + Z.of_nat (length src))) with (Z.to_nat off + length src)%nat by lia.
  done.
Qed.

Lemma memcpy_after_prefix b off src (p : list byte) :
  (0 <= off)%Z ->
  (off + String8_length src <= Z.of_nat (length (mem b)))%Z ->
  take (Z.to_nat off) (mem b) = p ->
  exists b', memcpy b off src (String8_length src) = Some b'
    /\ length (mem b') = length (mem b)
    /\ take (Z.to_nat off) (mem b') = p
    /\ take (Z.to_nat (off + String8_length src)) (mem b') = p ++ src.
Proof.
  intros Hoff Hlen Hp. rewrite memcpy_Some by done. eexists. split; [done|].
  unfold String8_length in *. simpl.
  assert (length p = Z.to_nat off) as Hplen.
  { rewrite <- Hp, length_take. lia. }
  rewrite Hp. split; [|split].
  - rewrite !length_app, length_drop. lia.
  - rewrite take_app_length'; done.
  - rewrite app_assoc.
    replace (Z.to_nat (off + Z.of_nat (length src))) with (length (p ++ src))
      by (rewrite length_app; lia).
    by rewrite take_app_length.
Qed.

Lemma mkCharLenCE_Some b len enc :
  (0 <= len <= Z.of_nat (length b))%Z ->
  mkCharLenCE b len enc = Some (CharLenCE (take (Z.to_nat len) b) enc).
Proof.
  unfold mkCharLenCE. intros H.
  destruct (0 <=? len)%Z eqn:E1; [|lia].
  destruct (len <=? Z.of_nat (length b))%Z eqn:E2; [|lia]. done.
Qed.

(** The paste loop extends [m] copies already in the buffer to
    [max m k] copies, writing below [k * length t]. *)
Lemma dup_paste_spec (t : String8) (B : Z) (k : nat) :
  (0 < length t)%nat ->
  (Z.of_nat (k * length t) <= B)%Z -> (B <= INT_MAX)%Z ->
  forall d m fuel b,
    (k - m <= d)%nat -> (d < fuel)%nat ->
    (B <= Z.of_nat (length (mem b)))%Z ->
    take (m * length t) (mem b) = repeated m t ->
    Forall (copy_below B) (copies b) ->
    exists b',
      dup_paste fuel b (Z.of_nat (m * length t)) (Z.of_nat (k * length t)) t (String8_length t)
      = Some (b', Z.of_nat (Nat.max m k * length t))
      /\ length (mem b') = length (mem b)
      /\ take (Nat.max m k * length t) (mem b') = repeated (Nat.max m k) t
      /\ Forall (copy_below B) (copies b').
Proof.
  intros Ht HkB HB. induction d as [|d IH]; intros m fuel b Hd Hfuel Hlen Htake Hlog.
  - destruct fuel as [|fuel]; [lia|]. simpl.
    assert (k <= m)%nat as Hkm by lia.
    destruct (Z.of_nat (m * length t) <? Z.of_nat (k * length t))%Z eqn:E.
    { apply Z.ltb_lt in E. nia. }
    exists b. rewrite Nat.max_l by done. done.
  - destruct fuel as [|fuel]; [lia|]. simpl.
    destruct (Z.of_nat (m * length t) <? Z.of_nat (k * length t))%Z eqn:E.
    + apply Z.ltb_lt in E. assert (m < k)%nat as Hmk by nia.
      assert (S m * length t <= k * length t)%nat as Hnext by nia.
      rewrite memcpy_Some; [|lia|unfold String8_length; lia]. simpl.
      rewrite wrap_small; [|unfold in_R_len_t, String8_length, INT_MIN, INT_MAX in *; lia].
      replace (Z.of_nat (m * length t) + String8_length t)%Z
        with (Z.of_nat (S m * length t)) by (unfold String8_length; lia).
      rewrite Nat2Z.id.
      set (b1 := Scratch _ _).
      assert (length (mem b1) = length (mem b)) as Hlen1.
      { unfold b1. simpl. rewrite !length_app, length_take, length_drop. lia. }
      destruct (IH (S m) fuel b1) as (b' & Hrun & Hl & Htk & Hlg).
      * lia.
      * lia.
      * lia.
      * unfold b1. cbn [mem]. rewrite Htake, app_assoc, repeated_snoc.
        apply take_app_length'. rewrite repeated_length. done.
      * unfold b1. simpl. constructor; [|done].
        unfold copy_below, String8_length. simpl. lia.
      * exists b'. rewrite Hrun. replace (Nat.max m k) with (Nat.max (S m) k) by lia.
        split; [done|]. split; [congruence|]. done.
    + apply Z.ltb_ge in E. assert (k <= m)%nat as Hkm by nia.
      exists b. rewrite Nat.max_l by done. done.
Qed.

(** ** stri_dup: the sizing pass *)

Lemma dup_bufsize_fold ss cc nc (l : list nat) :
  forallb (dup_slot_fits ss cc nc) l = true ->
  forall acc, (0 <= acc < INT_MAX)%Z ->
    (acc <= fold_left (dup_bufsize_step ss cc nc) l acc < INT_MAX)%Z
    /\ (forall i, i ∈ l -> dup_live ss cc nc i = true ->
          (dup_need ss cc nc i <= fold_left (dup_bufsize_step ss cc nc) l acc)%Z)
    /\ (fold_left (dup_bufsize_step ss cc nc) l acc = acc
        \/ exists i, i ∈ l /\ dup_live ss cc nc i = true
                     /\ fold_left (dup_bufsize_step ss cc nc) l acc = dup_need ss cc nc i).
Proof.
  induction l as [|i l IH]; intros Hfits acc Hacc.
  - simpl. split; [lia|]. split; [|by left]. intros i Hi. by apply elem_of_nil in Hi.
  - simpl in Hfits. apply andb_true_iff in Hfits as [Hfit Hfits].
    specialize (IH Hfits). cbn [fold_left].
    assert (exists acc', dup_bufsize_step ss cc nc acc i = acc'
              /\ (acc <= acc' < INT_MAX)%Z
              /\ (dup_live ss cc nc i = true -> (dup_need ss cc nc i <= acc')%Z)
              /\ (acc' = acc \/ (dup_live ss cc nc i = true /\ acc' = dup_need ss cc nc i)))
      as (acc' & -> & Hacc' & Hub' & Hatt').
    { unfold dup_bufsize_step, dup_slot_fits, dup_live in *.
      fold (dup_need ss cc nc i) in *.
      destruct (isNA ss i || (INTEGER_ELT cc (i mod nc) =? NA_INTEGER)%Z) eqn:Hskip.
      - exists acc. repeat split; [lia|lia|done|by left].
      - simpl in Hfit. apply andb_true_iff in Hfit as [Hlo Hhi].
        apply Z.leb_le in Hlo. apply Z.ltb_lt in Hhi.
        rewrite wrap_small by (unfold in_R_len_t; lia).
        destruct (Z.gtb_spec (dup_need ss cc nc i) acc).
        + eexists. split; [done|]. repeat split; [lia|lia|lia|by right].
        + eexists. split; [done|]. repeat split; [lia|lia|intros _; lia|by left]. }
    destruct (IH acc') as (Hr & Hub & Hatt); [lia|].
    split; [lia|]. split.
    + intros j Hj Hlive. apply elem_of_cons in Hj as [->|Hj]; [|by apply Hub].
      specialize (Hub' Hlive). lia.
    + destruct Hatt as [Heq|(j & Hj & Hlive & Hrj)].
      * rewrite Heq. destruct Hatt' as [->|[Hlive ->]]; [by left|].
        right. exists i. split; [apply elem_of_cons; by left|done].
      * right. exists j. split; [apply elem_of_cons; by right|done].
Qed.

(** ** Loops that fill a vector slot by slot *)

(** If every turn of a loop keeps [Inv] and stores [f i] at the position
    [i] of its counter, the loop runs to its end, the positions it visited
    hold [f], and the others are untouched. *)
Lemma for_each_slots {S : Type} (body : S -> nat -> option S) (vec : S -> STRSXP)
    (Inv : S -> Prop) (f : nat -> CHARSXP) (P : nat -> Prop) :
  (forall st i, P i -> Inv st ->
     exists st', body st i = Some st' /\ Inv st' /\ vec st' = <[i := f i]> (vec st)) ->
  forall counter, (forall i, i ∈ counter -> P i) ->
  forall st, Inv st ->
  exists st', for_each body counter st = Some st' /\ Inv st'
    /\ (forall j, j ∈ counter -> (j < length (vec st))%nat -> vec st' !! j = Some (f j))
    /\ (forall j, j ∉ counter -> vec st' !! j = vec st !! j)
    /\ length (vec st') = length (vec st).
Proof.
  intros Hbody. induction counter as [|i counter IH]; intros HP st Hinv; simpl.
  - exists st. split; [done|]. split; [done|]. split; [|done].
    intros j Hj. by apply elem_of_nil in Hj.
  - destruct (Hbody st i) as (st1 & -> & Hinv1 & Hvec1); [|done|].
    { apply HP, elem_of_cons. by left. }
    simpl. destruct (IH ltac:(intros j Hj; apply HP, elem_of_cons; by right) st1 Hinv1)
      as (st' & -> & Hinv' & Hin & Hout & Hlen).
    assert (length (vec st1) = length (vec st)) as Hlen1
      by (rewrite Hvec1; apply length_insert).
    exists st'. split; [done|]. split; [done|]. split; [|split; [|congruence]].
    + intros j Hj Hjlen. destruct (decide (j ∈ counter)) as [Hjo|Hjo].
      { apply Hin; [done|congruence]. }
      apply elem_of_cons in Hj as [->|Hj]; [|done].
      rewrite (Hout i Hjo), Hvec1. by apply list_lookup_insert_eq.
    + intros j Hj. apply not_elem_of_cons in Hj as [Hji Hjo].
      rewrite (Hout j Hjo), Hvec1. by apply list_lookup_insert_ne.
Qed.

Lemma for_each_pure {S : Type} (f : S -> nat -> S) (l : list nat) (st : S) :
  for_each (fun st i => Some (f st i)) l st = Some (fold_left f l st).
Proof. revert st. induction l as [|i l IH]; intros st; simpl; [done|]. apply IH. Qed.

(** ** stri_dup: the emission pass *)

Arguments dup_paste : simpl never.

(** A turn that only stores a string element keeps the invariant. *)
Ltac dup_turn_without_copy :=
  eexists; split; [done|]; split; [|done];
  repeat split; simpl; [done|by rewrite length_insert|done|done].

Section DupEmission.

Variables (ss : StriContainerUTF8) (cc : list Z) (nc nmax : nat) (B : Z).

Hypothesis B_max : (B <= INT_MAX)%Z.
Hypothesis fits : forall i, (i < nmax)%nat -> dup_slot_fits ss cc nc i = true.
Hypothesis B_bound :
  forall i, (i < nmax)%nat -> dup_live ss cc nc i = true -> (dup_need ss cc nc i <= B)%Z.

Lemma dup_step_spec st i :
  (i < nmax)%nat -> dup_inv ss nmax B st ->
  exists st', dup_step ss cc nc st i = Some st' /\ dup_inv ss nmax B st'
              /\ ret st' = <[i := dup_slot ss cc nc i]> (ret st).
Proof using B_max fits B_bound.
  intros Hi (Hlen & Hret & Hlog & Hbuf).
  specialize (fits i Hi). specialize (B_bound i Hi).
  unfold dup_step, dup_slot.
  unfold dup_slot_fits, dup_live, dup_need in *.
  set (ci := INTEGER_ELT cc (i mod nc)) in *.
  destruct (isNA ss i) eqn:Hna; simpl.
  { dup_turn_without_copy. }
  destruct (ci =? NA_INTEGER)%Z eqn:Hci; simpl.
  { dup_turn_without_copy. }
  destruct (ci <? 0)%Z eqn:Hneg; simpl.
  { dup_turn_without_copy. }
  apply Z.ltb_ge in Hneg.
  set (t := get ss i) in *.
  destruct (ci <=? 0)%Z eqn:Hzero; simpl.
  { apply Z.leb_le in Hzero. replace (ci =? 0)%Z with true by (symmetry; apply Z.eqb_eq; lia).
    simpl. dup_turn_without_copy. }
  apply Z.leb_gt in Hzero.
  replace (ci =? 0)%Z with false by (symmetry; apply Z.eqb_neq; lia). simpl.
  destruct (String8_length t <=? 0)%Z eqn:Hempty.
  { apply Z.leb_le in Hempty.
    replace (String8_length t =? 0)%Z with true
      by (symmetry; apply Z.eqb_eq; unfold String8_length in *; lia).
    dup_turn_without_copy. }
  apply Z.leb_gt in Hempty.
  replace (String8_length t =? 0)%Z with false by (symmetry; apply Z.eqb_neq; lia).
  simpl in fits. apply andb_true_iff in fits as [Hlo Hhi].
  apply Z.leb_le in Hlo. apply Z.ltb_lt in Hhi.
  specialize (B_bound eq_refl).
  assert (0 < length t)%nat as Ht by (unfold String8_length in Hempty; lia).
  assert (str ss !! address_of_get ss i = Some (Some t)) as Hstr.
  { unfold address_of_get, t, get. unfold isNA in Hna.
    destruct (str ss !! (i mod n ss)) as [[u|]|]; done. }
  set (k := Z.to_nat ci).
  assert ((String8_length t * ci)%Z = Z.of_nat (k * length t)) as Hmax
    by (unfold String8_length, k; lia).
  rewrite wrap_small by (unfold in_R_len_t; lia). rewrite Hmax.
  assert (exists m, (if decide (last_string st = Some (address_of_get ss i))
                     then (last_string st, last_index st)
                     else (Some (address_of_get ss i), 0%Z))
                    = (Some (address_of_get ss i), Z.of_nat (m * length t))
                    /\ take (m * length t) (mem (buf st)) = repeated m t)
    as (m & -> & Htake).
  { destruct (decide (last_string st = Some (address_of_get ss i))) as [Heq|Hne].
    - rewrite Heq in Hbuf |- *. destruct Hbuf as (t' & m & Hstr' & _ & Hli & Htk).
      assert (t' = t) as -> by congruence.
      exists m. by rewrite Hli.
    - exists 0%nat. done. }
  destruct (dup_paste_spec t B k Ht ltac:(unfold String8_length in *; lia) B_max
              k m (S (Z.to_nat (Z.of_nat (k * length t)))) (buf st))
    as (b' & -> & Hlen' & Htake' & Hlog'); [lia|nia|done|done|done|].
  simpl.
  rewrite mkCharLenCE_Some by (unfold String8_length in *; lia). simpl.
  eexists. split; [done|]. split.
  - repeat split; simpl; [lia|by rewrite length_insert|done|].
    exists t, (Nat.max m k). done.
  - simpl. do 2 f_equal. rewrite Nat2Z.id.
    rewrite <- (repeated_take k (Nat.max m k) t) by lia.
    rewrite <- Htake', take_take. f_equal. nia.
Qed.

Lemma dup_loop_spec (order : list nat) :
  (forall i, i ∈ order -> (i < nmax)%nat) ->
  forall st, dup_inv ss nmax B st ->
  exists st', dup_loop ss cc nc order st = Some st' /\ dup_inv ss nmax B st'
    /\ (forall j, j ∈ order -> ret st' !! j = Some (dup_slot ss cc nc j))
    /\ (forall j, j ∉ order -> ret st' !! j = ret st !! j).
Proof using B_max fits B_bound.
  intros Hord st Hinv.
  destruct (for_each_slots (dup_step ss cc nc) ret (dup_inv ss nmax B) (dup_slot ss cc nc)
              (fun i => (i < nmax)%nat)) with (counter := order) (st := st)
    as (st' & Hrun & Hinv' & Hin & Hout & _); [|done|done|].
  - intros st0 i Hi Hinv0. by apply dup_step_spec.
  - exists st'. split; [done|]. split; [done|]. split; [|done].
    intros j Hj. apply Hin; [done|]. destruct Hinv as (_ & -> & _). by apply Hord.
Qed.

End DupEmission.

(** ** Positions visited by the loops *)

Lemma strided_bound fuel j step bound x :
  x ∈ strided fuel j step bound -> (x < bound)%nat.
Proof.
  revert j. induction fuel as [|fuel IH]; intros j; simpl.
  - intros H. by apply elem_of_nil in H.
  - destruct (Nat.ltb_spec j bound) as [Hj|Hj].
    + intros H. apply elem_of_cons in H as [->|H]; [done|]. by apply (IH (j + step)%nat).
    + intros H. by apply elem_of_nil in H.
Qed.

Lemma strided_residue fuel j step bound x :
  x ∈ strided fuel j step bound -> exists k, x = (j + k * step)%nat.
Proof.
  revert j. induction fuel as [|fuel IH]; intros j; simpl.
  - intros H. by apply elem_of_nil in H.
  - destruct (Nat.ltb_spec j bound) as [Hj|Hj].
    + intros H. apply elem_of_cons in H as [->|H].
      * exists 0%nat. lia.
      * destruct (IH _ H) as [k ->]. exists (S k). lia.
    + intros H. by apply elem_of_nil in H.
Qed.

Lemma strided_mod fuel i step bound x :
  (i < step)%nat -> x ∈ strided fuel i step bound -> (x mod step = i)%nat.
Proof.
  intros Hi Hx. apply strided_residue in Hx as [k ->].
  rewrite Nat.Div0.mod_add. by apply Nat.mod_small.
Qed.

Lemma strided_cover step bound :
  (0 < step)%nat ->
  forall fuel j k, (j + k * step < bound)%nat -> (k < fuel)%nat ->
    (j + k * step)%nat ∈ strided fuel j step bound.
Proof.
  intros Hstep. induction fuel as [|fuel IH]; intros j k Hlt Hk; [lia|]. simpl.
  destruct (Nat.ltb_spec j bound) as [Hj|Hj]; [|lia].
  destruct k as [|k].
  - replace (j + 0 * step)%nat with j by lia. apply elem_of_cons. by left.
  - apply elem_of_cons. right.
    replace (j + S k * step)%nat with ((j + step) + k * step)%nat by lia.
    apply IH; lia.
Qed.

Lemma strided_cover_mod step bound x :
  (0 < step)%nat -> (x < bound)%nat -> x ∈ strided bound (x mod step) step bound.
Proof.
  intros Hstep Hx. pose proof (Nat.div_mod_eq x step) as Hdm.
  assert (x = (x mod step + x / step * step)%nat) as Hxeq by lia.
  rewrite Hxeq at 1. apply strided_cover; [done|lia|].
  assert (x / step <= x)%nat; [|lia].
  apply Nat.Div0.div_le_upper_bound. nia.
Qed.

Lemma strided_int_in_range fuel j step bound :
  join2_counter_fits step bound = true ->
  strided_int fuel j step bound = Some (strided fuel j step bound).
Proof.
  unfold join2_counter_fits. intros Hfit. apply Z.leb_le in Hfit.
  revert j. induction fuel as [|fuel IH]; intros j; simpl; [done|].
  destruct (Nat.ltb_spec j bound) as [Hj|Hj]; [|done].
  destruct (Z.leb_spec (Z.of_nat j + Z.of_nat step) INT_MAX) as [_|Hover]; [|lia].
  by rewrite IH.
Qed.

Lemma vectorize_order_bound ss x : x ∈ vectorize_order ss -> (x < nrecycle ss)%nat.
Proof.
  unfold vectorize_order. intros H.
  apply list_elem_of_join in H as (l & Hx & Hl).
  apply list_elem_of_fmap in Hl as (r & -> & _).
  by apply strided_bound in Hx.
Qed.

Lemma vectorize_order_cover ss x :
  (0 < n ss)%nat -> (x < nrecycle ss)%nat -> x ∈ vectorize_order ss.
Proof.
  intros Hn Hx. unfold vectorize_order.
  apply list_elem_of_join. exists (strided (nrecycle ss) (x mod n ss) (n ss) (nrecycle ss)).
  split.
  - pose proof (Nat.div_mod_eq x (n ss)) as Hdm.
    assert (x = (x mod n ss + x / n ss * n ss)%nat) as Hxeq by lia.
    rewrite Hxeq at 1. apply strided_cover; [done|lia|].
    assert (x / n ss <= x)%nat; [|lia].
    apply Nat.Div0.div_le_upper_bound. nia.
  - apply list_elem_of_fmap. exists (x mod n ss)%nat. split; [done|].
    apply elem_of_seq. pose proof (Nat.mod_upper_bound x (n ss)). lia.
Qed.

(** ** Recycled lengths and views *)

Lemma recycled_length_zero n1 n2 :
  (n1 = 0 \/ n2 = 0)%nat -> recycled_length n1 n2 = 0%nat.
Proof.
  unfold recycled_length, stri__recycling_rule.
  intros [->| ->]; cbn [existsb]; [done|].
  destruct (0 =? n1)%nat; done.
Qed.

Lemma recycled_length_max n1 n2 :
  (0 < n1)%nat -> (0 < n2)%nat -> recycled_length n1 n2 = Nat.max n1 n2.
Proof.
  unfold recycled_length, stri__recycling_rule. simpl. intros H1 H2.
  destruct n1; [lia|]. destruct n2; [lia|]. simpl. lia.
Qed.

Lemma recycled_length_pos n1 n2 :
  (0 < recycled_length n1 n2)%nat -> (0 < n1 /\ 0 < n2)%nat.
Proof.
  intros H. destruct n1; [rewrite recycled_length_zero in H; lia|].
  destruct n2; [rewrite recycled_length_zero in H; lia|]. lia.
Qed.

Lemma container_lookup to_utf8 (s : STRSXP) nrec i :
  (0 < length s)%nat ->
  str (StriContainerUTF8_new to_utf8 s nrec) !! (i mod length s)
  = Some (utf8_view to_utf8 (STRING_ELT s (i mod length s))).
Proof.
  intros Hs. simpl. rewrite list_lookup_fmap. unfold STRING_ELT.
  destruct (lookup_lt_is_Some_2 s (i mod length s)) as [x Hx].
  { apply Nat.mod_upper_bound. lia. }
  by rewrite Hx.
Qed.

Lemma container_isNA to_utf8 (s : STRSXP) nrec i :
  (0 < length s)%nat ->
  isNA (StriContainerUTF8_new to_utf8 s nrec) i
  = is_NA_STRING (STRING_ELT s (i mod length s)).
Proof.
  intros Hs. unfold isNA. change (n (StriContainerUTF8_new to_utf8 s nrec)) with (length s).
  rewrite container_lookup by done. by destruct (STRING_ELT s (i mod length s)).
Qed.

Lemma container_get to_utf8 (s : STRSXP) nrec i b :
  (0 < length s)%nat ->
  utf8_view to_utf8 (STRING_ELT s (i mod length s)) = Some b ->
  get (StriContainerUTF8_new to_utf8 s nrec) i = b.
Proof.
  intros Hs Hb. unfold get. change (n (StriContainerUTF8_new to_utf8 s nrec)) with (length s).
  rewrite container_lookup by done. by rewrite Hb.
Qed.

(** ** stri_dup: results *)

Lemma dup_slot_naive to_utf8 (s : STRSXP) (c : list Z) nrec i :
  (0 < length s)%nat ->
  dup_slot (StriContainerUTF8_new to_utf8 s nrec) c (length c) i
  = naive_slot (utf8_view to_utf8 (STRING_ELT s (i mod length s)))
               (INTEGER_ELT c (i mod length c)).
Proof.
  intros Hs. unfold dup_slot, naive_slot.
  rewrite container_isNA by done.
  destruct (utf8_view to_utf8 (STRING_ELT s (i mod length s))) as [b|] eqn:Hview.
  - rewrite (container_get _ _ _ _ b) by done.
    destruct (STRING_ELT s (i mod length s)); [done|]. simpl.
    destruct (INTEGER_ELT c (i mod length c) =? NA_INTEGER)%Z; [done|]. simpl.
    destruct (INTEGER_ELT c (i mod length c) <? 0)%Z; [done|].
    destruct (INTEGER_ELT c (i mod length c) =? 0)%Z; done.
  - destruct (STRING_ELT s (i mod length s)); done.
Qed.

(** The emission pass runs to its end; every slot holds what the rules
    give and every copy stayed below [bufsize]. *)
Lemma stri_dup_emit_spec to_utf8 (s : STRSXP) (c : list Z) :
  dup_fits to_utf8 s c = true ->
  let nmax := recycled_length (length s) (length c) in
  let ss := StriContainerUTF8_new to_utf8 s nmax in
  exists st, stri_dup_emit to_utf8 s c nmax = Some st
    /\ length (ret st) = nmax
    /\ (forall j, (j < nmax)%nat -> ret st !! j = Some (dup_slot ss c (length c) j))
    /\ Forall (copy_below (dup_bufsize ss c (length c) nmax)) (copies (buf st)).
Proof.
  intros Hfits nmax ss. unfold dup_fits in Hfits. fold nmax in Hfits. fold ss in Hfits.
  destruct (dup_bufsize_fold ss c (length c) (seq 0 nmax) Hfits 0%Z) as (HB & Hub & _).
  { unfold INT_MAX. lia. }
  fold (dup_bufsize ss c (length c) nmax) in HB, Hub.
  set (B := dup_bufsize ss c (length c) nmax) in *.
  unfold stri_dup_emit. fold nmax. fold ss. fold B.
  destruct (dup_loop_spec ss c (length c) nmax B ltac:(lia)) with
    (order := vectorize_order ss)
    (st := DupState (new_char (wrap (B + 1))) None 0%Z (allocVector_STRSXP nmax))
    as (st & Hrun & Hinv & Hin & _).
  - intros i Hi. rewrite forallb_forall in Hfits. apply Hfits.
    apply list_elem_of_In, elem_of_seq. lia.
  - intros i Hi. apply Hub, elem_of_seq. lia.
  - intros i Hi. by apply vectorize_order_bound in Hi.
  - unfold dup_inv, allocVector_STRSXP, new_char. simpl.
    rewrite wrap_small by (unfold in_R_len_t, INT_MIN; lia).
    rewrite !length_replicate. split; [lia|]. split; [done|]. split; [constructor|done].
  - exists st. split; [done|]. destruct Hinv as (_ & Hlen & Hlog & _).
    split; [done|]. split; [|done].
    intros j Hj. apply Hin, vectorize_order_cover; [|done].
    simpl. apply (recycled_length_pos (length s) (length c)). fold nmax. lia.
Qed.

(** X18 (stri_dup, per-slot rules within [R_len_t]).  Whenever every
    product [ci * byte_len si] of a slot with neither NA lies in the range
    of [R_len_t] and below [INT_MAX] ([dup_fits]), [stri_dup] returns a
    vector of the recycled length, and at
    every position [i], with [si] the string of [s] at [i mod |s|] and [ci]
    the count of [c] at [i mod |c|]: the slot is NA if [si] is NA, [ci] is
    NA or [ci < 0]; it is the empty string (not NA) if otherwise [ci = 0]
    or [si] has no bytes; and otherwise it is [ci] copies of [si], of
    [ci * byte_len si] bytes. *)
Theorem stri_dup_slot_rules to_utf8 (s : STRSXP) (c : list Z) (i : nat) :
  dup_fits to_utf8 s c = true ->
  (i < recycled_length (length s) (length c))%nat ->
  exists r,
    snd (stri_dup to_utf8 s c) = Some r
    /\ length r = recycled_length (length s) (length c)
    /\ (forall si ci,
          si = utf8_view to_utf8 (STRING_ELT s (i mod length s)) ->
          ci = INTEGER_ELT c (i mod length c) ->
          (si = None \/ ci = NA_INTEGER \/ (ci < 0)%Z -> r !! i = Some NA_STRING)
          /\ (forall b, si = Some b -> ci <> NA_INTEGER -> (0 <= ci)%Z ->
                (ci = 0%Z \/ String8_length b = 0%Z) ->
                r !! i = Some empty_string /\ empty_string <> NA_STRING)
          /\ (forall b, si = Some b -> (0 < ci)%Z -> (0 < String8_length b)%Z ->
                r !! i = Some (CharLenCE (repeated (Z.to_nat ci) b) CE_UTF8)
                /\ String8_length (repeated (Z.to_nat ci) b) = (ci * String8_length b)%Z)).
Proof.
  intros Hfits Hi.
  destruct (stri_dup_emit_spec to_utf8 s c Hfits) as (st & Hrun & Hlen & Hslots & _).
  destruct (recycled_length_pos (length s) (length c)) as [Hs Hc]; [lia|].
  exists (ret st). split; [|split; [done|]].
  - unfold stri_dup. fold (recycled_length (length s) (length c)) in *.
    unfold recycled_length in *.
    destruct (stri__recycling_rule true [length s; length c]) as [nmax w]. simpl in *.
    destruct (Nat.leb_spec nmax 0); [lia|]. simpl. by rewrite Hrun.
  - intros si ci -> ->. rewrite (Hslots i Hi), dup_slot_naive by done.
    unfold naive_slot.
    destruct (utf8_view to_utf8 (STRING_ELT s (i mod length s))) as [b|].
    + split; [|split].
      * intros [Hnone|[Hna|Hneg]]; [done| |].
        -- by rewrite Hna.
        -- destruct (_ =? NA_INTEGER)%Z; [done|].
           destruct (Z.ltb_spec (INTEGER_ELT c (i mod length c)) 0); [done|lia].
      * intros b' [= <-] Hna Hpos Hempty. split; [|done].
        destruct (Z.eqb_spec (INTEGER_ELT c (i mod length c)) NA_INTEGER); [done|].
        destruct (Z.ltb_spec (INTEGER_ELT c (i mod length c)) 0); [lia|].
        destruct (Z.eqb_spec (INTEGER_ELT c (i mod length c)) 0); [done|].
        destruct (Z.eqb_spec (String8_length b) 0); [done|]. lia.
      * intros b' [= <-] Hpos Hlen'. split.
        -- destruct (Z.eqb_spec (INTEGER_ELT c (i mod length c)) NA_INTEGER) as [E|E].
           { rewrite E in Hpos. unfold NA_INTEGER, INT_MIN in Hpos. lia. }
           destruct (Z.ltb_spec (INTEGER_ELT c (i mod length c)) 0); [lia|].
           destruct (Z.eqb_spec (INTEGER_ELT c (i mod length c)) 0); [lia|].
           destruct (Z.eqb_spec (String8_length b) 0); [lia|]. done.
        -- unfold String8_length. rewrite repeated_length. lia.
    + split; [done|]. split; intros b' Hb'; done.
Qed.

Lemma stri_dup_slot_rules_witness :
  exists r,
    snd (stri_dup (fun _ b => b) [CharLenCE [x61; x62] CE_UTF8; NA_STRING] [3; 0; -1]%Z) = Some r
    /\ length r = 3%nat
    /\ r !! 0%nat = Some (CharLenCE [x61; x62; x61; x62; x61; x62] CE_UTF8).
Proof.
  destruct (stri_dup_slot_rules (fun _ b => b)
              [CharLenCE [x61; x62] CE_UTF8; NA_STRING] [3; 0; -1]%Z 0)
    as (r & Hr & Hlen & Hrules).
  - reflexivity.
  - vm_compute. lia.
  - exists r. split; [exact Hr|]. split; [exact Hlen|].
    destruct (Hrules _ _ eq_refl eq_refl) as (_ & _ & Hrep).
    destruct (Hrep [x61; x62] eq_refl) as [Hslot _]; [vm_compute; reflexivity ..|].
    exact Hslot.
Defined.

Lemma dup_emits_naive to_utf8 (s : STRSXP) (c : list Z) :
  dup_fits to_utf8 s c = true ->
  snd (stri_dup to_utf8 s c) = Some (duplicate_naive to_utf8 s c).
Proof.
  intros Hfits.
  destruct (stri_dup_emit_spec to_utf8 s c Hfits) as (st & Hrun & Hlen & Hslots & _).
  unfold stri_dup, duplicate_naive.
  fold (recycled_length (length s) (length c)) in *.
  unfold recycled_length in *.
  destruct (stri__recycling_rule true [length s; length c]) as [nmax w] eqn:Hrule.
  simpl in *.
  destruct (Nat.leb_spec nmax 0) as [Hz|Hpos]; simpl.
  - by replace nmax with 0%nat by lia.
  - rewrite Hrun. simpl. f_equal.
    assert (0 < length s)%nat as Hs.
    { apply (recycled_length_pos (length s) (length c)).
      unfold recycled_length. rewrite Hrule. done. }
    apply list_eq. intros j. rewrite list_lookup_fmap.
    destruct (Nat.lt_ge_cases j nmax) as [Hj|Hj].
    + rewrite (Hslots j Hj), lookup_seq_lt by done. simpl.
      by rewrite dup_slot_naive.
    + rewrite lookup_ge_None_2 by lia. by rewrite lookup_seq_ge.
Qed.

(** X20 (stri_dup, buffer reuse within [R_len_t]).  Whenever the products
    fit [R_len_t] ([dup_fits]), the vector [stri_dup] returns, with its
    scratch buffer kept across the slots that share a source string, is
    the vector of the naive duplicate that builds every slot afresh. *)
Theorem stri_dup_refines_naive to_utf8 (s : STRSXP) (c : list Z) :
  dup_fits to_utf8 s c = true ->
  snd (stri_dup to_utf8 s c) = Some (duplicate_naive to_utf8 s c).
Proof. apply dup_emits_naive. Qed.

Lemma stri_dup_refines_naive_witness :
  snd (stri_dup (fun _ b => b) [CharLenCE [x61] CE_UTF8] [3; 1; 2]%Z)
  = Some (duplicate_naive (fun _ b => b) [CharLenCE [x61] CE_UTF8] [3; 1; 2]%Z).
Proof. apply (stri_dup_refines_naive (fun _ b => b)). reflexivity. Defined.



(** ** stri_dup: products beyond the range of R_len_t *)

Lemma repeated_longer (k : Z) (t u : list byte) :
  (Z.of_nat (length u) < k * Z.of_nat (length t))%Z -> u <> repeated (Z.to_nat k) t.
Proof.
  intros Hlt Heq. apply (f_equal length) in Heq. rewrite repeated_length in Heq. nia.
Qed.

(** C1 at [stri_dup("abc", 1431655766)].  The string is not NA and the
    count is positive, so the rule of the claim gives 1431655766 copies of
    "abc", 4294967298 bytes.  The source computes this product in
    [R_len_t] (lines 58 and 98), where it is 2, and [stri_dup] returns the
    two bytes "ab". *)
Theorem stri_dup_slot_beyond_R_len_t :
  utf8_view (fun _ b => b) (STRING_ELT [CharLenCE [x61; x62; x63] CE_UTF8] (0 mod 1))
  = Some [x61; x62; x63]
  /\ INTEGER_ELT [1431655766%Z] (0 mod 1) = 1431655766%Z
  /\ stri_dup (fun _ b => b) [CharLenCE [x61; x62; x63] CE_UTF8] [1431655766%Z]
     = ([], Some [CharLenCE [x61; x62] CE_UTF8])
  /\ [x61; x62] <> repeated (Z.to_nat 1431655766) [x61; x62; x63]
  /\ String8_length [x61; x62] <> (1431655766 * String8_length [x61; x62; x63])%Z.
Proof.
  split; [reflexivity|]. split; [reflexivity|]. split; [vm_compute; reflexivity|].
  split; [apply repeated_longer; simpl; lia|].
  unfold String8_length. simpl. lia.
Qed.

Lemma singleton_bytes_inj (u v : list byte) (e1 e2 : cetype_t) :
  Some [CharLenCE u e1] = Some [CharLenCE v e2] -> u = v.
Proof. congruence. Qed.

Lemma duplicate_naive_single to_utf8 (x : CHARSXP) (k : Z) :
  duplicate_naive to_utf8 [x] [k] = [naive_slot (utf8_view to_utf8 x) k].
Proof. reflexivity. Qed.

(** C5 at [stri_dup("abc", 1431655766)].  The naive duplicate writes
    1431655766 copies of "abc"; [stri_dup] returns the single string "ab",
    because the size of the slot, computed in [R_len_t], is 2. *)
Theorem stri_dup_not_naive_beyond_R_len_t :
  snd (stri_dup (fun _ b => b) [CharLenCE [x61; x62; x63] CE_UTF8] [1431655766%Z])
  = Some [CharLenCE [x61; x62] CE_UTF8]
  /\ duplicate_naive (fun _ b => b) [CharLenCE [x61; x62; x63] CE_UTF8] [1431655766%Z]
     = [CharLenCE (repeated (Z.to_nat 1431655766) [x61; x62; x63]) CE_UTF8]
  /\ snd (stri_dup (fun _ b => b) [CharLenCE [x61; x62; x63] CE_UTF8] [1431655766%Z])
     <> Some (duplicate_naive (fun _ b => b) [CharLenCE [x61; x62; x63] CE_UTF8]
                [1431655766%Z]).
Proof.
  assert (snd (stri_dup (fun _ b => b) [CharLenCE [x61; x62; x63] CE_UTF8] [1431655766%Z])
          = Some [CharLenCE [x61; x62] CE_UTF8]) as Hrun by (vm_compute; reflexivity).
  assert (duplicate_naive (fun _ b => b) [CharLenCE [x61; x62; x63] CE_UTF8] [1431655766%Z]
          = [CharLenCE (repeated (Z.to_nat 1431655766) [x61; x62; x63]) CE_UTF8]) as Hnaive.
  { rewrite duplicate_naive_single. reflexivity. }
  split; [exact Hrun|]. split; [exact Hnaive|].
  rewrite Hrun, Hnaive. intros Heq. apply singleton_bytes_inj in Heq. revert Heq.
  apply repeated_longer. simpl. lia.
Qed.

(** C6 at [stri_dup("abc", 1431655766)] and [stri_dup("abcde", 1717986919)].
    The sizing pass keeps the products reduced to [R_len_t]: [bufsize] is 2
    and 3, not the products 4294967298 and 8589934595.  In the first call
    the emission pass copies 3 bytes to offset 0, so it writes at offset
    2, which is not below [bufsize]; in the second the first copy is of 5
    bytes at offset 0 and leaves the [bufsize + 1 = 4] bytes allocated, so
    the call has no result. *)
Theorem stri_dup_copy_beyond_bufsize :
  (dup_need (StriContainerUTF8_new (fun _ b => b) [CharLenCE [x61; x62; x63] CE_UTF8] 1)
            [1431655766%Z] 1 0 = 4294967298%Z
   /\ dup_bufsize (StriContainerUTF8_new (fun _ b => b) [CharLenCE [x61; x62; x63] CE_UTF8] 1)
                  [1431655766%Z] 1 1 = 2%Z
   /\ exists st off size,
        stri_dup_emit (fun _ b => b) [CharLenCE [x61; x62; x63] CE_UTF8] [1431655766%Z] 1
        = Some st
        /\ (off, size) ∈ copies (buf st)
        /\ (2 < off + size)%Z)
  /\ (dup_need (StriContainerUTF8_new (fun _ b => b)
                  [CharLenCE [x61; x62; x63; x64; x65] CE_UTF8] 1)
               [1717986919%Z] 1 0 = 8589934595%Z
      /\ dup_bufsize (StriContainerUTF8_new (fun _ b => b)
                        [CharLenCE [x61; x62; x63; x64; x65] CE_UTF8] 1)
                     [1717986919%Z] 1 1 = 3%Z
      /\ memcpy (new_char (wrap (3 + 1))) 0 [x61; x62; x63; x64; x65] 5 = None
      /\ stri_dup (fun _ b => b) [CharLenCE [x61; x62; x63; x64; x65] CE_UTF8] [1717986919%Z]
         = ([], None)).
Proof.
  split.
  - split; [reflexivity|]. split; [vm_compute; reflexivity|].
    eexists _, 0%Z, 3%Z. split; [vm_compute; reflexivity|].
    split; [apply elem_of_cons; by left|lia].
  - split; [reflexivity|]. repeat split; vm_compute; reflexivity.
Qed.

(** ** stri_join2: the sizing loops *)

Section Join2Sizing.

Variables (s1 s2 : STRSXP) (ns1 ns2 nsm : nat).

Hypothesis ns1_pos : (0 < ns1)%nat.
Hypothesis counter : join2_counter_fits ns1 nsm = true.
Hypothesis fits : forall j, (j < nsm)%nat -> join2_slot_fits s1 s2 ns1 ns2 j = true.

Lemma join2_maxsize_inner_fold (cnsl : Z) (l : list nat) :
  (forall j, j ∈ l -> is_NA_STRING (STRING_ELT s2 (j mod ns2)) = false ->
     (0 <= cnsl + LENGTH (STRING_ELT s2 (j mod ns2)) <= INT_MAX)%Z) ->
  forall acc, (0 <= acc <= INT_MAX)%Z ->
    (acc <= fold_left (join2_maxsize_inner s2 ns2 cnsl) l acc <= INT_MAX)%Z
    /\ forall j, j ∈ l -> is_NA_STRING (STRING_ELT s2 (j mod ns2)) = false ->
         (cnsl + LENGTH (STRING_ELT s2 (j mod ns2))
          <= fold_left (join2_maxsize_inner s2 ns2 cnsl) l acc)%Z.
Proof using Type.
  clear ns1_pos counter fits.
  induction l as [|j l IH]; intros Hl acc Hacc.
  - simpl. split; [lia|]. intros j Hj. by apply elem_of_nil in Hj.
  - cbn [fold_left].
    assert (exists acc', join2_maxsize_inner s2 ns2 cnsl acc j = acc'
              /\ (acc <= acc' <= INT_MAX)%Z
              /\ (is_NA_STRING (STRING_ELT s2 (j mod ns2)) = false ->
                  (cnsl + LENGTH (STRING_ELT s2 (j mod ns2)) <= acc')%Z))
      as (acc' & -> & Hacc' & Hub').
    { unfold join2_maxsize_inner.
      destruct (is_NA_STRING (STRING_ELT s2 (j mod ns2))) eqn:Hna.
      - exists acc. split; [done|]. split; [lia|done].
      - specialize (Hl j ltac:(apply elem_of_cons; by left) Hna).
        rewrite wrap_small by (unfold in_R_len_t, INT_MIN; lia).
        destruct (Z.gtb_spec (cnsl + LENGTH (STRING_ELT s2 (j mod ns2))) acc).
        + eexists. split; [done|]. split; lia.
        + eexists. split; [done|]. split; [lia|]. intros _. lia. }
    destruct (IH ltac:(intros j' Hj'; apply Hl, elem_of_cons; by right) acc') as [Hr Hub];
      [lia|].
    split; [lia|]. intros j' Hj' Hna.
    apply elem_of_cons in Hj' as [->|Hj']; [|by apply Hub].
    specialize (Hub' Hna). lia.
Qed.

Lemma join2_maxsize_outer_fold (l : list nat) :
  (forall i, i ∈ l -> (i < ns1)%nat) ->
  forall acc, (0 <= acc <= INT_MAX)%Z ->
  exists m, for_each (join2_maxsize_outer s1 s2 ns1 ns2 nsm) l acc = Some m
    /\ (acc <= m <= INT_MAX)%Z
    /\ forall j, (j < nsm)%nat -> (j mod ns1)%nat ∈ l -> join2_live s1 s2 ns1 ns2 j = true ->
         (join2_need s1 s2 ns1 ns2 j <= m)%Z.
Proof using ns1_pos counter fits.
  induction l as [|i l IH]; intros Hl acc Hacc.
  - simpl. exists acc. split; [done|]. split; [lia|].
    intros j _ Hj. by apply elem_of_nil in Hj.
  - cbn [for_each].
    assert (i < ns1)%nat as Hi by (apply Hl, elem_of_cons; by left).
    assert (exists acc', join2_maxsize_outer s1 s2 ns1 ns2 nsm acc i = Some acc'
              /\ (acc <= acc' <= INT_MAX)%Z
              /\ (forall j, (j < nsm)%nat -> (j mod ns1 = i)%nat ->
                    join2_live s1 s2 ns1 ns2 j = true ->
                    (join2_need s1 s2 ns1 ns2 j <= acc')%Z))
      as (acc' & -> & Hacc' & Hub').
    { unfold join2_maxsize_outer.
      destruct (is_NA_STRING (STRING_ELT s1 i)) eqn:Hna.
      - exists acc. split; [done|]. split; [lia|].
        intros j _ Hmod Hlive. unfold join2_live in Hlive.
        rewrite Hmod, Hna in Hlive. done.
      - rewrite strided_int_in_range by done. simpl.
        eexists. split; [done|].
        destruct (join2_maxsize_inner_fold (LENGTH (STRING_ELT s1 i))
                    (strided nsm i ns1 nsm)) with (acc := acc) as [Hr Hub]; [|done|].
        + intros j Hj Hna2.
          pose proof (strided_bound _ _ _ _ _ Hj) as Hjn.
          pose proof (strided_mod _ _ _ _ _ Hi Hj) as Hjm.
          specialize (fits j Hjn). unfold join2_slot_fits, join2_live, join2_need in fits.
          rewrite Hjm, Hna, Hna2 in fits. simpl in fits. apply Z.leb_le in fits.
          pose proof (LENGTH_nonneg (STRING_ELT s1 i)).
          pose proof (LENGTH_nonneg (STRING_ELT s2 (j mod ns2))). lia.
        + split; [done|]. intros j Hj Hmod Hlive.
          unfold join2_live in Hlive. unfold join2_need. rewrite Hmod in Hlive |- *.
          rewrite Hna in Hlive. simpl in Hlive. apply negb_true_iff in Hlive.
          apply Hub; [|done]. rewrite <- Hmod. by apply strided_cover_mod. }
    simpl.
    destruct (IH ltac:(intros i' Hi'; apply Hl, elem_of_cons; by right) acc')
      as (m & -> & Hr & Hub); [lia|].
    exists m. split; [done|]. split; [lia|]. intros j Hj Hmod Hlive.
    apply elem_of_cons in Hmod as [Hmod|Hmod]; [|by apply Hub].
    specialize (Hub' j Hj Hmod Hlive). lia.
Qed.

Lemma join2_maxsize_spec :
  exists M, join2_maxsize s1 s2 ns1 ns2 nsm = Some M
    /\ (0 <= M <= INT_MAX)%Z
    /\ forall j, (j < nsm)%nat -> join2_live s1 s2 ns1 ns2 j = true ->
         (join2_need s1 s2 ns1 ns2 j <= M)%Z.
Proof using ns1_pos counter fits.
  unfold join2_maxsize.
  destruct (join2_maxsize_outer_fold (seq 0 ns1)) with (acc := 0%Z) as (M & HM & Hr & Hub).
  - intros i Hi. apply elem_of_seq in Hi. lia.
  - unfold INT_MAX. lia.
  - exists M. split; [done|]. split; [done|]. intros j Hj Hlive. apply Hub; [done| |done].
    apply elem_of_seq. pose proof (Nat.mod_upper_bound j ns1). lia.
Qed.

End Join2Sizing.

(** ** stri_join2: the copying loops *)

Section Join2Emission.

Variables (s1 s2 : STRSXP) (ns1 ns2 nsm : nat) (M : Z).

Hypothesis M_max : (M <= INT_MAX)%Z.
Hypothesis counter : join2_counter_fits ns1 nsm = true.
Hypothesis M_bound :
  forall j, (j < nsm)%nat -> join2_live s1 s2 ns1 ns2 j = true ->
    (join2_need s1 s2 ns1 ns2 j <= M)%Z.

Lemma join2_inner_step_spec i st j :
  is_NA_STRING (STRING_ELT s1 i) = false ->
  (j < nsm)%nat -> (j mod ns1 = i)%nat ->
  join2_inv M (CHAR (STRING_ELT s1 i)) st ->
  exists st',
    join2_inner_step s2 ns2 (CHAR (STRING_ELT s1 i)) (LENGTH (STRING_ELT s1 i)) st j = Some st'
    /\ join2_inv M (CHAR (STRING_ELT s1 i)) st'
    /\ e st' = <[j := join2_slot s1 s2 ns1 ns2 j]> (e st).
Proof using M_max M_bound.
  intros Hna1 Hj Hmod [Hlen Hbuf].
  specialize (M_bound j Hj).
  unfold join2_inner_step, join2_slot, join2_live, join2_need in *.
  rewrite Hmod in *. rewrite Hna1 in *. simpl in M_bound |- *.
  destruct (is_NA_STRING (STRING_ELT s2 (j mod ns2))) eqn:Hna2; simpl.
  { eexists. split; [done|]. split; [|done]. split; done. }
  specialize (M_bound eq_refl).
  set (si1 := CHAR (STRING_ELT s1 i)) in *.
  set (si2 := CHAR (STRING_ELT s2 (j mod ns2))) in *.
  change (LENGTH (STRING_ELT s1 i)) with (String8_length si1) in *.
  change (LENGTH (STRING_ELT s2 (j mod ns2))) with (String8_length si2) in *.
  assert (exists b,
            (if negb (String8_length si1 =? 0)%Z && (buf2 st =? 0)%Z
             then memcpy (jbuf st) 0 si1 (String8_length si1)
                  ≫= (fun b => Some (b, (0 + String8_length si1)%Z))
             else Some (jbuf st, buf2 st)) = Some (b, String8_length si1)
            /\ length (mem b) = length (mem (jbuf st))
            /\ take (length si1) (mem b) = si1)
    as (b & -> & Hlenb & Hpre).
  { destruct (Z.eqb_spec (String8_length si1) 0) as [Hz|Hnz]; simpl.
    - assert (si1 = []) as Hnil
        by (apply length_zero_iff_nil; unfold String8_length in Hz; lia).
      exists (jbuf st). split; [|split; [done|by rewrite Hnil]].
      destruct Hbuf as [->|[-> _]]; by rewrite ?Hz.
    - destruct (Z.eqb_spec (buf2 st) 0) as [Hb0|Hb1].
      + destruct (memcpy_after_prefix (jbuf st) 0 si1 []) as (b & -> & Hl & _ & Htk);
          [lia|unfold String8_length in *; lia|done|].
        simpl. exists b. split; [done|]. split; [done|].
        rewrite <- Htk at 2. f_equal. unfold String8_length. lia.
      + destruct Hbuf as [?|[-> Htk]]; [done|]. exists (jbuf st). done. }
  simpl.
  assert (exists b',
            (if negb (String8_length si2 =? 0)%Z
             then memcpy b (String8_length si1) si2 (String8_length si2)
             else Some b) = Some b'
            /\ length (mem b') = length (mem b)
            /\ take (length si1) (mem b') = si1
            /\ take (length si1 + length si2) (mem b') = si1 ++ si2)
    as (b' & -> & Hlenb' & Hpre' & Hcat).
  { destruct (Z.eqb_spec (String8_length si2) 0) as [Hz|Hnz]; simpl.
    - assert (si2 = []) as Hnil
        by (apply length_zero_iff_nil; unfold String8_length in Hz; lia).
      exists b. rewrite Hnil, app_nil_r. simpl. rewrite Nat.add_0_r. done.
    - destruct (memcpy_after_prefix b (String8_length si1) si2 si1)
        as (b' & -> & Hl & Hp & Htk).
      + unfold String8_length. lia.
      + unfold String8_length in *. lia.
      + unfold String8_length. by rewrite Nat2Z.id.
      + exists b'. split; [done|]. split; [done|].
        unfold String8_length in Hp, Htk. rewrite Nat2Z.id in Hp.
        split; [done|]. rewrite <- Htk. f_equal. lia. }
  simpl. unfold mkCharLen.
  rewrite wrap_small
    by (unfold in_R_len_t, INT_MIN, String8_length in *; lia).
  rewrite mkCharLenCE_Some by (unfold String8_length in *; lia). simpl.
  eexists. split; [done|]. split.
  - split; simpl; [lia|]. right. done.
  - simpl. do 3 f_equal. rewrite <- Hcat. f_equal. unfold String8_length. lia.
Qed.

(** One outer turn fills the slots [i, i + ns1, ...] and no other. *)
Lemma join2_outer_step_spec st i :
  (i < ns1)%nat -> length (e st) = nsm ->
  (M <= Z.of_nat (length (mem (jbuf st))))%Z ->
  exists st', join2_outer_step s1 s2 ns1 ns2 nsm st i = Some st'
    /\ length (e st') = nsm
    /\ (M <= Z.of_nat (length (mem (jbuf st'))))%Z
    /\ (forall j, (j < nsm)%nat -> (j mod ns1 = i)%nat ->
          e st' !! j = Some (join2_slot s1 s2 ns1 ns2 j))
    /\ (forall j, (j mod ns1)%nat <> i -> e st' !! j = e st !! j).
Proof using M_max counter M_bound.
  intros Hi He Hlen. unfold join2_outer_step.
  rewrite !strided_int_in_range by done. cbn [mbind option_bind].
  assert (0 < ns1)%nat as Hns1 by lia.
  destruct (is_NA_STRING (STRING_ELT s1 i)) eqn:Hna1.
  - destruct (for_each_slots join2_na_step e
                (fun st => (M <= Z.of_nat (length (mem (jbuf st))))%Z)
                (join2_slot s1 s2 ns1 ns2) (fun j => (j mod ns1 = i)%nat))
      with (counter := strided nsm i ns1 nsm) (st := st)
      as (st' & -> & Hinv' & Hin & Hout & Hlen'); [| |done|].
    + intros st0 j Hmod Hinv0. eexists. split; [done|]. split; [done|]. simpl.
      unfold join2_slot, join2_live. by rewrite Hmod, Hna1.
    + intros j Hj. by apply (strided_mod _ _ _ _ _ Hi Hj).
    + exists st'. split; [done|]. split; [congruence|]. split; [done|]. split.
      * intros j Hj Hmod. apply Hin; [|lia]. rewrite <- Hmod. by apply strided_cover_mod.
      * intros j Hmod. apply Hout. intros Hj. by apply (strided_mod _ _ _ _ _ Hi) in Hj.
  - destruct (for_each_slots
                (join2_inner_step s2 ns2 (CHAR (STRING_ELT s1 i)) (LENGTH (STRING_ELT s1 i)))
                e (join2_inv M (CHAR (STRING_ELT s1 i)))
                (join2_slot s1 s2 ns1 ns2) (fun j => (j < nsm)%nat /\ (j mod ns1 = i)%nat))
      with (counter := strided nsm i ns1 nsm) (st := Join2State (jbuf st) 0%Z (e st))
      as (st' & -> & Hinv' & Hin & Hout & Hlen').
    + intros st0 j [Hj Hmod] Hinv0. by apply join2_inner_step_spec.
    + intros j Hj. split; [by apply strided_bound in Hj|by apply (strided_mod _ _ _ _ _ Hi Hj)].
    + split; simpl; [done|by left].
    + simpl in *. exists st'. split; [done|]. split; [congruence|].
      split; [by destruct Hinv'|]. split.
      * intros j Hj Hmod. apply Hin; [|lia]. rewrite <- Hmod. by apply strided_cover_mod.
      * intros j Hmod. apply Hout. intros Hj. by apply (strided_mod _ _ _ _ _ Hi) in Hj.
Qed.

Lemma join2_outer_loop_spec (l : list nat) :
  (forall i, i ∈ l -> (i < ns1)%nat) ->
  forall st, length (e st) = nsm ->
  (M <= Z.of_nat (length (mem (jbuf st))))%Z ->
  exists st', for_each (join2_outer_step s1 s2 ns1 ns2 nsm) l st = Some st'
    /\ length (e st') = nsm
    /\ (forall j, (j < nsm)%nat -> (j mod ns1)%nat ∈ l ->
          e st' !! j = Some (join2_slot s1 s2 ns1 ns2 j))
    /\ (forall j, (j mod ns1)%nat ∉ l -> e st' !! j = e st !! j).
Proof using M_max counter M_bound.
  induction l as [|i l IH]; intros Hl st He Hlen; simpl.
  - exists st. split; [done|]. split; [done|]. split; [|done].
    intros j _ Hj. by apply elem_of_nil in Hj.
  - destruct (join2_outer_step_spec st i) as (st1 & -> & He1 & Hlen1 & Hin1 & Hout1);
      [apply Hl, elem_of_cons; by left|done|done|].
    simpl.
    destruct (IH ltac:(intros i' Hi'; apply Hl, elem_of_cons; by right) st1 He1 Hlen1)
      as (st' & -> & He' & Hin & Hout).
    exists st'. split; [done|]. split; [done|]. split.
    + intros j Hj Hmod. destruct (decide ((j mod ns1)%nat ∈ l)) as [Hjl|Hjl].
      { by apply Hin. }
      apply elem_of_cons in Hmod as [Hmod|Hmod]; [|done].
      rewrite (Hout j Hjl). by apply Hin1.
    + intros j Hmod. apply not_elem_of_cons in Hmod as [Hji Hjl].
      rewrite (Hout j Hjl). by apply Hout1.
Qed.

End Join2Emission.

(** ** stri_join2: results *)

Lemma join2_blank_loop_spec (s1 s2 : STRSXP) (ns1 ns2 nsm : nat) (e0 : STRSXP) :
  length e0 = nsm ->
  (forall j, (j < nsm)%nat -> join2_live s1 s2 ns1 ns2 j = true ->
     (join2_need s1 s2 ns1 ns2 j <= 0)%Z) ->
  length (fold_left (join2_blank_step s1 s2 ns1 ns2) (seq 0 nsm) e0) = nsm
  /\ forall j, (j < nsm)%nat ->
       fold_left (join2_blank_step s1 s2 ns1 ns2) (seq 0 nsm) e0 !! j
       = Some (join2_slot s1 s2 ns1 ns2 j).
Proof.
  intros He0 Hzero.
  destruct (for_each_slots (fun st i => Some (join2_blank_step s1 s2 ns1 ns2 st i))
              (fun st => st) (fun _ => True) (join2_slot s1 s2 ns1 ns2)
              (fun j => (j < nsm)%nat))
    with (counter := seq 0 nsm) (st := e0) as (e' & Hrun & _ & Hin & _ & Hlen); [| |done|].
  - intros st j Hj _. eexists. split; [done|]. split; [done|].
    unfold join2_blank_step, join2_slot. specialize (Hzero j Hj).
    unfold join2_live, join2_need in *.
    destruct (is_NA_STRING (STRING_ELT s1 (j mod ns1))
              || is_NA_STRING (STRING_ELT s2 (j mod ns2))); simpl in *; [done|].
    specialize (Hzero eq_refl). unfold LENGTH in Hzero.
    assert (CHAR (STRING_ELT s1 (j mod ns1)) = []) as -> by (apply length_zero_iff_nil; lia).
    assert (CHAR (STRING_ELT s2 (j mod ns2)) = []) as -> by (apply length_zero_iff_nil; lia).
    done.
  - intros j Hj. apply elem_of_seq in Hj. lia.
  - rewrite for_each_pure in Hrun. injection Hrun as ->.
    split; [congruence|]. intros j Hj. apply Hin; [|lia]. apply elem_of_seq. lia.
Qed.

Lemma stri_join2_spec (s1 s2 : STRSXP) :
  (0 < length s1)%nat -> (0 < length s2)%nat ->
  join2_fits s1 s2 = true ->
  exists r, snd (stri_join2 s1 s2) = Some r
    /\ length r = recycled_length (length s1) (length s2)
    /\ forall j, (j < recycled_length (length s1) (length s2))%nat ->
         r !! j = Some (join2_slot s1 s2 (length s1) (length s2) j).
Proof.
  intros Hs1 Hs2 Hfits. unfold join2_fits in Hfits.
  apply andb_true_iff in Hfits as [Hcount Hfits].
  unfold stri_join2. unfold recycled_length in *.
  destruct (stri__recycling_rule true [length s1; length s2]) as [nsm w]. simpl in *.
  destruct (Nat.leb_spec (length s1) 0); [lia|].
  destruct (Nat.leb_spec (length s2) 0); [lia|].
  assert (forall j, (j < nsm)%nat -> join2_slot_fits s1 s2 (length s1) (length s2) j = true)
    as Hfit.
  { intros j Hj. rewrite forallb_forall in Hfits. apply Hfits.
    apply list_elem_of_In, elem_of_seq. lia. }
  destruct (join2_maxsize_spec s1 s2 (length s1) (length s2) nsm Hs1 Hcount Hfit)
    as (M & -> & HM & Hub).
  simpl. destruct (Z.leb_spec M 0) as [Hz|Hpos]; simpl.
  - destruct (join2_blank_loop_spec s1 s2 (length s1) (length s2) nsm
                (allocVector_STRSXP nsm)) as [Hlen Hslots].
    + unfold allocVector_STRSXP. apply length_replicate.
    + intros j Hj Hlive. specialize (Hub j Hj Hlive). lia.
    + eexists. split; [done|]. done.
  - destruct (join2_outer_loop_spec s1 s2 (length s1) (length s2) nsm M ltac:(lia) Hcount Hub
                (seq 0 (length s1)))
      with (st := Join2State (new_char M) 0%Z (allocVector_STRSXP nsm))
      as (st' & -> & He' & Hin & _).
    + intros i Hi. apply elem_of_seq in Hi. lia.
    + unfold allocVector_STRSXP. apply length_replicate.
    + unfold new_char. simpl. rewrite length_replicate. lia.
    + exists (e st'). split; [done|]. split; [done|].
      intros j Hj. apply Hin; [done|]. apply elem_of_seq.
      pose proof (Nat.mod_upper_bound j (length s1)). lia.
Qed.

(** X19 (stri_join2, per-slot rules within [int]).  For non-empty [s1]
    and [s2] whose loop counter and joined byte counts stay in the range of
    [int] ([join2_fits]), [stri_join2] returns a vector of the recycled
    length; at every position [i] the slot is NA if the element
    of [s1] at [i mod |s1|] or of [s2] at [i mod |s2|] is NA, and otherwise
    it is the bytes of the first followed by the bytes of the second, so
    its byte length is the sum of the two. *)
Theorem stri_join2_slot_rules (s1 s2 : STRSXP) (i : nat) :
  (0 < length s1)%nat -> (0 < length s2)%nat ->
  join2_fits s1 s2 = true ->
  (i < recycled_length (length s1) (length s2))%nat ->
  exists r,
    snd (stri_join2 s1 s2) = Some r
    /\ length r = recycled_length (length s1) (length s2)
    /\ (STRING_ELT s1 (i mod length s1) = NA_STRING
        \/ STRING_ELT s2 (i mod length s2) = NA_STRING -> r !! i = Some NA_STRING)
    /\ (forall x ex y ey,
          STRING_ELT s1 (i mod length s1) = CharLenCE x ex ->
          STRING_ELT s2 (i mod length s2) = CharLenCE y ey ->
          r !! i = Some (CharLenCE (x ++ y) CE_NATIVE)
          /\ String8_length (x ++ y) = (String8_length x + String8_length y)%Z).
Proof.
  intros Hs1 Hs2 Hfits Hi.
  destruct (stri_join2_spec s1 s2 Hs1 Hs2 Hfits) as (r & Hr & Hlen & Hslots).
  exists r. split; [done|]. split; [done|].
  rewrite (Hslots i Hi). unfold join2_slot, join2_live. split.
  - intros [-> | ->]; simpl; [done|]. by rewrite orb_true_r.
  - intros x ex y ey -> ->. simpl. split; [done|].
    unfold String8_length. rewrite length_app. lia.
Qed.

Lemma stri_join2_slot_rules_witness :
  exists r,
    snd (stri_join2 [CharLenCE [x61] CE_NATIVE; NA_STRING]
                    [CharLenCE [x31; x32] CE_NATIVE]) = Some r
    /\ r !! 0%nat = Some (CharLenCE [x61; x31; x32] CE_NATIVE).
Proof.
  destruct (stri_join2_slot_rules [CharLenCE [x61] CE_NATIVE; NA_STRING]
              [CharLenCE [x31; x32] CE_NATIVE] 0) as (r & Hr & _ & _ & Hcat).
  - simpl. lia.
  - simpl. lia.
  - reflexivity.
  - vm_compute. lia.
  - exists r. split; [exact Hr|].
    destruct (Hcat [x61] CE_NATIVE [x31; x32] CE_NATIVE eq_refl eq_refl) as [Hslot _].
    exact Hslot.
Defined.

(** ** stri_join2: sums beyond the range of R_len_t *)

Lemma replicate_String8_length (k : Z) (x : byte) :
  (0 <= k)%Z -> String8_length (replicate (Z.to_nat k) x) = k.
Proof. intros Hk. unfold String8_length. rewrite length_replicate. by apply Z2Nat.id. Qed.

Lemma string_2_30_length : String8_length string_2_30 = 1073741824%Z.
Proof. apply replicate_String8_length. lia. Qed.

(** Two single strings whose byte counts add up to more than [INT_MAX]:
    the sum of line 157, reduced to [R_len_t], is negative, [maxsize]
    stays 0 and the loop of the case [maxsize <= 0] stores the empty
    string. *)
Lemma join2_blank_beyond_R_len_t (t1 t2 : list byte) (e1 e2 : cetype_t) :
  (String8_length t1 <= INT_MAX)%Z -> (String8_length t2 <= INT_MAX)%Z ->
  (INT_MAX < String8_length t1 + String8_length t2)%Z ->
  join2_maxsize [CharLenCE t1 e1] [CharLenCE t2 e2] 1 1 1 = Some 0%Z
  /\ stri_join2 [CharLenCE t1 e1] [CharLenCE t2 e2] = ([], Some [empty_string]).
Proof.
  unfold INT_MAX. intros H1 H2 Hsum.
  assert (join2_maxsize [CharLenCE t1 e1] [CharLenCE t2 e2] 1 1 1 = Some 0%Z) as Hsize.
  { unfold join2_maxsize, join2_maxsize_outer, join2_maxsize_inner. cbn -[wrap].
    change (Z.of_nat 0 + Z.of_nat 1 <=? INT_MAX)%Z with true. cbn -[wrap].
    change (LENGTH (CharLenCE t1 e1)) with (String8_length t1).
    change (LENGTH (CharLenCE t2 e2)) with (String8_length t2).
    assert (wrap (String8_length t1 + String8_length t2)
            = (String8_length t1 + String8_length t2 - 4294967296)%Z) as ->.
    { unfold wrap.
      replace (String8_length t1 + String8_length t2 + 2147483648)%Z
        with (String8_length t1 + String8_length t2 - 2147483648 + 1 * 4294967296)%Z by lia.
      rewrite Z.mod_add by lia. rewrite Z.mod_small by lia. lia. }
    destruct (Z.gtb_spec (String8_length t1 + String8_length t2 - 4294967296) 0); [lia|].
    done. }
  split; [exact Hsize|].
  unfold stri_join2. cbn [length stri__recycling_rule existsb Nat.eqb orb foldr Nat.max
                            Nat.modulo Nat.divmod fst snd negb andb Nat.leb].
  rewrite Hsize. reflexivity.
Qed.

Lemma join2_doubled_beyond_R_len_t (t : list byte) :
  String8_length t = 1073741824%Z ->
  String8_length (t ++ t) = 2147483648%Z
  /\ stri_join2 [CharLenCE t CE_NATIVE] [CharLenCE t CE_NATIVE] = ([], Some [empty_string])
  /\ empty_string <> CharLenCE (t ++ t) CE_NATIVE.
Proof.
  intros Hlen.
  assert (String8_length (t ++ t) = 2147483648%Z) as Hsum.
  { unfold String8_length in *. rewrite length_app. lia. }
  split; [exact Hsum|]. split.
  - apply join2_blank_beyond_R_len_t; rewrite Hlen; unfold INT_MAX; lia.
  - unfold empty_string. intros Heq.
    assert (@nil byte = t ++ t) as Hnil by congruence.
    rewrite <- Hnil in Hsum. discriminate Hsum.
Qed.

(** C2 at two strings of 2^30 bytes.  Neither string is NA, so the rule of
    the claim gives their concatenation, of 2^31 bytes; [stri_join2]
    returns the empty string. *)
Theorem stri_join2_sum_beyond_R_len_t :
  String8_length (string_2_30 ++ string_2_30) = 2147483648%Z
  /\ stri_join2 [CharLenCE string_2_30 CE_NATIVE] [CharLenCE string_2_30 CE_NATIVE]
     = ([], Some [empty_string])
  /\ empty_string <> CharLenCE (string_2_30 ++ string_2_30) CE_NATIVE.
Proof. exact (join2_doubled_beyond_R_len_t string_2_30 string_2_30_length). Qed.

(** When the sum [j + ns1] of the counter exceeds [INT_MAX] at a position
    the loop visits, the turn of the copying loops at [i] has no result. *)
Lemma join2_counter_beyond_int s1 s2 ns1 ns2 nsm st i :
  (i < nsm)%nat -> (INT_MAX < Z.of_nat i + Z.of_nat ns1)%Z ->
  join2_outer_step s1 s2 ns1 ns2 nsm st i = None.
Proof.
  intros Hi Hover. unfold join2_outer_step.
  assert (strided_int nsm i ns1 nsm = None) as ->.
  { destruct nsm as [|fuel]; [lia|]. cbn [strided_int].
    destruct (Nat.ltb_spec i (S fuel)); [|lia].
    destruct (Z.leb_spec (Z.of_nat i + Z.of_nat ns1) INT_MAX); [lia|done]. }
  by destruct (is_NA_STRING (STRING_ELT s1 i)).
Qed.

(** ** Empty operands of stri_dup and stri_join2 *)

(** C4, as stated, fails: joining an empty vector with a non-empty one
    returns the non-empty one. *)
Lemma join2_empty_operand_counterexample :
  ~ (forall s1 s2 : STRSXP,
       (length s1 = 0 \/ length s2 = 0)%nat ->
       exists r, snd (stri_join2 s1 s2) = Some r /\ length r = 0%nat).
Proof.
  intros H.
  destruct (H [] [CharLenCE [x61] CE_NATIVE]) as (r & Hr & Hlen); [by left|].
  vm_compute in Hr. injection Hr as <-. done.
Qed.

(** C4 (amended).  [stri_dup] returns a vector of length 0 as soon as one
    of its operands has length 0; [stri_join2] returns its second operand
    when the first has length 0 and its first operand when the second has
    length 0. *)
Theorem empty_operand_results to_utf8 (s : STRSXP) (c : list Z) (s1 s2 : STRSXP) :
  ((length s = 0 \/ length c = 0)%nat -> stri_dup to_utf8 s c = ([], Some []))
  /\ (length s1 = 0%nat -> stri_join2 s1 s2 = ([], Some s2))
  /\ (length s2 = 0%nat -> stri_join2 s1 s2 = ([], Some s1)).
Proof.
  split; [|split].
  - intros H. unfold stri_dup.
    pose proof (recycled_length_zero (length s) (length c) H) as HL.
    unfold recycled_length in HL. unfold stri__recycling_rule in *.
    destruct (existsb (Nat.eqb 0) [length s; length c]) eqn:E; [done|].
    simpl in HL. cbn [existsb] in E.
    destruct H as [H|H]; rewrite H in E; simpl in E; [done|].
    by rewrite orb_true_r in E.
  - intros H. apply length_zero_iff_nil in H as ->. done.
  - intros H. apply length_zero_iff_nil in H as ->. unfold stri_join2. simpl.
    destruct s1 as [|x s1]; done.
Qed.

Lemma empty_operand_results_witness :
  stri_dup (fun _ b => b) [CharLenCE [x61] CE_UTF8] [] = ([], Some [])
  /\ stri_join2 [] [CharLenCE [x61] CE_NATIVE] = ([], Some [CharLenCE [x61] CE_NATIVE])
  /\ stri_join2 [CharLenCE [x61] CE_NATIVE] [] = ([], Some [CharLenCE [x61] CE_NATIVE]).
Proof.
  destruct (empty_operand_results (fun _ b => b) [CharLenCE [x61] CE_UTF8] []
              [] [CharLenCE [x61] CE_NATIVE]) as (Hdup & Hleft & _).
  destruct (empty_operand_results (fun _ b => b) [] []
              [CharLenCE [x61] CE_NATIVE] []) as (_ & _ & Hright).
  split; [apply Hdup; right; reflexivity|].
  split; [apply Hleft; reflexivity|apply Hright; reflexivity].
Defined.

(** ** Output encoding of stri_join2 *)

(** C3 at a Latin-1 input: [stri_join2] copies the bytes of its operands
    as they are, and the string it returns is not valid UTF-8. *)
Theorem stri_join2_latin1_not_utf8 :
  snd (stri_join2 [CharLenCE [xe9] CE_LATIN1] [CharLenCE [x61] CE_NATIVE])
  = Some [CharLenCE [xe9; x61] CE_NATIVE]
  /\ valid_utf8 [xe9; x61] = false.
Proof. split; reflexivity. Qed.

(** ** stri_flatten: empty operands and several separators *)

(** C10 (stri_flatten, empty operands).  When [s] or [sep] has length 0,
    [stri_flatten] returns the vector of length 0, raises no warning and
    makes no copy; in particular a vector [sep] of length 0 gives length 0
    for a non-empty [s], and an NA separator with an empty [s] gives length
    0 and not the NA vector. *)
Theorem stri_flatten_empty_operand to_utf8 (s sep : STRSXP) :
  (length s = 0 \/ length sep = 0)%nat ->
  stri_flatten_run to_utf8 s sep = ([], Some ([], []))
  /\ stri_flatten to_utf8 s sep = ([], Some []).
Proof.
  intros H.
  assert (stri_flatten_run to_utf8 s sep = ([], Some ([], []))) as Hrun.
  { unfold stri_flatten_run.
    destruct H as [H|H]; rewrite H; [done|].
    destruct (length s <=? 0)%nat; done. }
  split; [done|]. unfold stri_flatten. by rewrite Hrun.
Qed.

Lemma stri_flatten_empty_operand_witness :
  stri_flatten (fun _ b => b) [CharLenCE [x61] CE_UTF8] [] = ([], Some [])
  /\ stri_flatten (fun _ b => b) [] [NA_STRING; NA_STRING] = ([], Some []).
Proof.
  split.
  - apply (stri_flatten_empty_operand (fun _ b => b) [CharLenCE [x61] CE_UTF8] []).
    right. reflexivity.
  - apply (stri_flatten_empty_operand (fun _ b => b) [] [NA_STRING; NA_STRING]).
    left. reflexivity.
Defined.

(** C9 (stri_flatten, several separators).  For a non-empty [s] and a
    vector [sep] of more than one element, [stri_flatten] raises exactly
    one warning, MSG__COLLAPSE_EXPECTED1, and returns what it returns for
    the vector made of the first element of [sep] alone. *)
Theorem stri_flatten_many_separators to_utf8 (s sep : STRSXP) :
  (0 < length s)%nat -> (1 < length sep)%nat ->
  fst (stri_flatten to_utf8 s sep) = [MSG__COLLAPSE_EXPECTED1]
  /\ snd (stri_flatten to_utf8 s sep) = snd (stri_flatten to_utf8 s [STRING_ELT sep 0])
  /\ fst (stri_flatten to_utf8 s [STRING_ELT sep 0]) = [].
Proof.
  intros Hs Hsep. unfold stri_flatten, stri_flatten_run.
  destruct (Nat.leb_spec (length s) 0); [lia|].
  destruct (Nat.leb_spec (length sep) 0); [lia|].
  destruct (Nat.ltb_spec 1 (length sep)); [|lia]. simpl.
  destruct (isNA (StriContainerUTF8_new to_utf8 [STRING_ELT sep 0] 1) 0); [done|].
  destruct (flatten_size _ _ _ _ _); done.
Qed.

Lemma stri_flatten_many_separators_witness :
  stri_flatten (fun _ b => b) [CharLenCE [x61] CE_UTF8; CharLenCE [x62] CE_UTF8]
               [CharLenCE [x2d] CE_UTF8; CharLenCE [x2b] CE_UTF8]
  = ([MSG__COLLAPSE_EXPECTED1], Some [CharLenCE [x61; x2d; x62] CE_UTF8]).
Proof.
  destruct (stri_flatten_many_separators (fun _ b => b)
              [CharLenCE [x61] CE_UTF8; CharLenCE [x62] CE_UTF8]
              [CharLenCE [x2d] CE_UTF8; CharLenCE [x2b] CE_UTF8]) as (Hw & Hv & _).
  - simpl. lia.
  - simpl. lia.
  - rewrite (surjective_pairing (stri_flatten _ _ _)), Hw, Hv. reflexivity.
Defined.

(** ** stri_flatten: NA *)

Lemma flatten_size_NA ss ns ncharsep (counter : list nat) :
  (exists i, i ∈ counter /\ isNA ss i = true) ->
  forall nchar, flatten_size ss ns ncharsep counter nchar = None.
Proof.
  induction counter as [|j counter IH]; intros (i & Hi & Hna) nchar.
  - by apply elem_of_nil in Hi.
  - simpl. destruct (isNA ss j) eqn:Hj; [done|].
    apply IH. exists i. split; [|done].
    apply elem_of_cons in Hi as [->|Hi]; [congruence|done].
Qed.

Lemma flatten_separator_isNA to_utf8 (sep sep1 : STRSXP) :
  (0 < length sep)%nat ->
  sep1 = (if (1 <? length sep)%nat then [STRING_ELT sep 0] else sep) ->
  isNA (StriContainerUTF8_new to_utf8 sep1 1) 0 = is_NA_STRING (STRING_ELT sep 0).
Proof.
  intros Hsep ->. destruct (Nat.ltb_spec 1 (length sep)).
  - unfold isNA. simpl. by destruct (STRING_ELT sep 0).
  - destruct sep as [|x [|y sep]]; simpl in *; [lia| |lia].
    unfold isNA. simpl. by destruct x.
Qed.

(** C8 (stri_flatten, NA).  For a non-empty [s] and a separator: if the
    separator is NA the result is the vector of length 1 holding NA; if an
    element of [s] is NA the result is that vector too, the sizing pass
    stops at the NA element (it yields no size), and no byte has been
    copied. *)
Theorem stri_flatten_NA to_utf8 (s sep : STRSXP) :
  (0 < length s)%nat -> (0 < length sep)%nat ->
  (STRING_ELT sep 0 = NA_STRING ->
     snd (stri_flatten_run to_utf8 s sep) = Some ([], [NA_STRING]))
  /\ ((exists i, (i < length s)%nat /\ STRING_ELT s i = NA_STRING) ->
        snd (stri_flatten_run to_utf8 s sep) = Some ([], [NA_STRING])
        /\ snd (stri_flatten to_utf8 s sep) = Some [NA_STRING]
        /\ forall ncharsep,
             flatten_size (StriContainerUTF8_new to_utf8 s (length s)) (length s) ncharsep
                          (seq 0 (length s)) 0%Z = None).
Proof.
  intros Hs Hsep. split.
  - intros Hna. unfold stri_flatten_run.
    destruct (Nat.leb_spec (length s) 0); [lia|].
    destruct (Nat.leb_spec (length sep) 0); [lia|]. simpl.
    destruct (1 <? length sep)%nat eqn:E;
      rewrite (flatten_separator_isNA to_utf8 sep) by (rewrite ?E; done);
      by rewrite Hna.
  - intros (i & Hi & Hna).
    assert (forall ncharsep,
              flatten_size (StriContainerUTF8_new to_utf8 s (length s)) (length s) ncharsep
                           (seq 0 (length s)) 0%Z = None) as Hsize.
    { intros ncharsep. apply flatten_size_NA. exists i. split; [apply elem_of_seq; lia|].
      rewrite container_isNA by done. rewrite Nat.mod_small by done. by rewrite Hna. }
    assert (snd (stri_flatten_run to_utf8 s sep) = Some ([], [NA_STRING])) as Hrun.
    { unfold stri_flatten_run.
      destruct (Nat.leb_spec (length s) 0); [lia|].
      destruct (Nat.leb_spec (length sep) 0); [lia|]. simpl.
      destruct (1 <? length sep)%nat;
        (destruct (isNA (StriContainerUTF8_new to_utf8 _ 1) 0); [done|]);
        by rewrite Hsize. }
    split; [done|]. split; [|done].
    unfold stri_flatten. simpl. by rewrite Hrun.
Qed.

Lemma stri_flatten_NA_witness :
  snd (stri_flatten_run (fun _ b => b) [CharLenCE [x61] CE_UTF8] [NA_STRING])
  = Some ([], [NA_STRING])
  /\ snd (stri_flatten_run (fun _ b => b)
            [CharLenCE [x61] CE_UTF8; NA_STRING; CharLenCE [x62] CE_UTF8]
            [CharLenCE [x2c] CE_UTF8])
     = Some ([], [NA_STRING]).
Proof.
  split.
  - destruct (stri_flatten_NA (fun _ b => b) [CharLenCE [x61] CE_UTF8] [NA_STRING])
      as [Hsep _]; [simpl; lia ..|].
    apply Hsep. reflexivity.
  - destruct (stri_flatten_NA (fun _ b => b)
                [CharLenCE [x61] CE_UTF8; NA_STRING; CharLenCE [x62] CE_UTF8]
                [CharLenCE [x2c] CE_UTF8]) as [_ Helt]; [simpl; lia ..|].
    destruct Helt as [Hrun _]; [|exact Hrun].
    exists 1%nat. split; [simpl; lia|reflexivity].
Defined.

(** ** stri_flatten: the joined string *)

Lemma interleave_joined sepv x rest :
  interleave sepv (x :: rest) = flatten_joined sepv (x :: rest).
Proof.
  revert x. induction rest as [|y rest IH]; intros x; [done|].
  change (interleave sepv (x :: y :: rest)) with (x ++ sepv ++ interleave sepv (y :: rest)).
  rewrite IH. simpl. by rewrite <- app_assoc.
Qed.

Lemma interleave_length sepv x rest :
  Z.of_nat (length (interleave sepv (x :: rest))) = flatten_nchar sepv (x :: rest).
Proof.
  unfold flatten_nchar, String8_length.
  revert x. induction rest as [|y rest IH]; intros x.
  - simpl. rewrite app_nil_r. lia.
  - change (interleave sepv (x :: y :: rest)) with (x ++ sepv ++ interleave sepv (y :: rest)).
    rewrite !length_app, !Nat2Z.inj_add, IH. simpl. lia.
Qed.

Lemma interleave_nil_sep (l : list String8) : interleave [] l = mjoin l.
Proof.
  induction l as [|x rest IH]; [done|].
  destruct rest as [|y rest]; [by simpl; rewrite !app_nil_r|].
  change (interleave [] (x :: y :: rest)) with (x ++ [] ++ interleave [] (y :: rest)).
  by rewrite IH.
Qed.

Section FlattenLoops.

Variables (ss ssep : StriContainerUTF8) (ns : nat) (sepv : list byte).

Hypothesis get_sep : get ssep 0 = sepv.

(** The size the sizing pass adds for, and the bytes the filling loop
    writes for, the strings [todo] at the positions from [k] on. *)
Lemma flatten_size_spec (todo : list String8) :
  forall k acc,
    (k + length todo = ns)%nat ->
    (forall i t, todo !! i = Some t -> isNA ss (k + i) = false /\ get ss (k + i) = t) ->
    (0 <= acc)%Z ->
    (acc + Z.of_nat (length (interleave sepv todo)) <= INT_MAX)%Z ->
    flatten_size ss ns (String8_length sepv) (seq k (length todo)) acc
    = Some (acc + Z.of_nat (length (interleave sepv todo)))%Z.
Proof using Type.
  clear get_sep.
  induction todo as [|t rest IH]; intros k acc Hns Hviews Hacc Hfit.
  - simpl. f_equal. lia.
  - destruct (Hviews 0%nat t eq_refl) as [Hna Hget]. rewrite Nat.add_0_r in Hna, Hget.
    cbn [length seq flatten_size]. rewrite Hna, Hget.
    assert (interleave sepv (t :: rest)
            = t ++ (if (k <? ns - 1)%nat then sepv else []) ++ interleave sepv rest) as Hcut.
    { destruct rest as [|u rest].
      - simpl in Hns. destruct (Nat.ltb_spec k (ns - 1)); [lia|]. done.
      - simpl in Hns. destruct (Nat.ltb_spec k (ns - 1)); [|lia]. done. }
    rewrite Hcut, !length_app in Hfit |- *.
    assert ((if (k <? ns - 1)%nat then String8_length sepv else 0%Z)
            = Z.of_nat (length (if (k <? ns - 1)%nat then sepv else []))) as ->
      by (destruct (k <? ns - 1)%nat; done).
    unfold String8_length.
    rewrite (wrap_small (Z.of_nat (length t) + _)) by (unfold in_R_len_t, INT_MIN; lia).
    rewrite wrap_small by (unfold in_R_len_t, INT_MIN; lia).
    fold (String8_length sepv).
    rewrite IH; [f_equal; lia|simpl in Hns; lia| |lia|lia].
    intros i u Hu. replace (S k + i)%nat with (k + S i)%nat by lia. by apply Hviews.
Qed.

Lemma flatten_fill_spec (todo : list String8) :
  forall k b (p : list byte),
    (k + length todo = ns)%nat ->
    (forall i t, todo !! i = Some t -> get ss (k + i) = t) ->
    take (length p) (mem b) = p ->
    (Z.of_nat (length p + length (interleave sepv todo)) <= Z.of_nat (length (mem b)))%Z ->
    (Z.of_nat (length p + length (interleave sepv todo)) <= INT_MAX)%Z ->
    exists b',
      for_each (flatten_fill_step ss ssep ns (String8_length sepv)) (seq k (length todo))
               (b, Z.of_nat (length p))
      = Some (b', Z.of_nat (length p + length (interleave sepv todo)))
      /\ length (mem b') = length (mem b)
      /\ take (length p + length (interleave sepv todo)) (mem b') = p ++ interleave sepv todo.
Proof using get_sep.
  induction todo as [|t rest IH]; intros k b p Hns Hviews Hp Hroom Hfit.
  - simpl. exists b. rewrite Nat.add_0_r, app_nil_r. done.
  - pose proof (Hviews 0%nat t eq_refl) as Hget. rewrite Nat.add_0_r in Hget.
    assert (interleave sepv (t :: rest)
            = t ++ (if (k <? ns - 1)%nat then sepv else []) ++ interleave sepv rest) as Hcut.
    { destruct rest as [|u rest].
      - simpl in Hns. destruct (Nat.ltb_spec k (ns - 1)); [lia|]. done.
      - simpl in Hns. destruct (Nat.ltb_spec k (ns - 1)); [|lia]. done. }
    rewrite Hcut in Hroom, Hfit |- *. rewrite !length_app in Hroom, Hfit.
    set (q := p ++ t ++ if (k <? ns - 1)%nat then sepv else []).
    assert (exists b2,
              flatten_fill_step ss ssep ns (String8_length sepv) (b, Z.of_nat (length p)) k
              = Some (b2, Z.of_nat (length q))
              /\ length (mem b2) = length (mem b)
              /\ take (length q) (mem b2) = q)
      as (b2 & Hstep & Hl2 & Htk2).
    { unfold flatten_fill_step. cbn [fst snd]. rewrite Hget, get_sep.
      destruct (memcpy_after_prefix b (Z.of_nat (length p)) t p) as (b1 & -> & Hl1 & _ & Htk1);
        [lia|unfold String8_length; lia|by rewrite Nat2Z.id|].
      cbn [mbind option_bind].
      rewrite !(wrap_small (Z.of_nat (length p) + String8_length t))
        by (unfold in_R_len_t, INT_MIN, String8_length; lia).
      assert (take (length (p ++ t)) (mem b1) = p ++ t) as Htk1'.
      { rewrite <- Htk1 at 2. f_equal. rewrite length_app. unfold String8_length. lia. }
      unfold q. destruct (k <? ns - 1)%nat; simpl.
      - destruct (Z.gtb_spec (String8_length sepv) 0) as [Hpos|Hzero].
        + destruct (memcpy_after_prefix b1 (Z.of_nat (length p) + String8_length t) sepv (p ++ t))
            as (b2 & -> & Hl2 & _ & Htk2).
          * unfold String8_length. lia.
          * unfold String8_length in *. lia.
          * exact Htk1.
          * simpl. rewrite wrap_small by (unfold in_R_len_t, INT_MIN, String8_length in *; lia).
            exists b2. split; [|split; [congruence|]].
            -- do 2 f_equal. rewrite !length_app. unfold String8_length. lia.
            -- rewrite (app_assoc p t sepv). rewrite <- Htk2 at 2. f_equal.
               rewrite !length_app. unfold String8_length. lia.
        + assert (sepv = []) as ->
            by (apply length_zero_iff_nil; unfold String8_length in Hzero; lia).
          exists b1. rewrite !app_nil_r. split; [|split; [congruence|done]].
          do 2 f_equal. rewrite length_app. unfold String8_length. lia.
      - exists b1. rewrite !app_nil_r. split; [|split; [congruence|done]].
        do 2 f_equal. rewrite length_app. unfold String8_length. lia. }
    cbn [length seq for_each]. rewrite Hstep. cbn [mbind option_bind].
    assert (length q = (length p + (length t
              + length (if (k <? ns - 1)%nat then sepv else [])))%nat) as Hq
      by (unfold q; rewrite !length_app; lia).
    destruct (IH (S k) b2 q) as (b' & Hrun & Hl' & Htk'); [simpl in Hns; lia| |done|..].
    + intros i u Hu. replace (S k + i)%nat with (k + S i)%nat by lia. by apply Hviews.
    + lia.
    + lia.
    + exists b'. rewrite Hrun. split; [|split; [congruence|]].
      * do 2 f_equal. rewrite !length_app. lia.
      * unfold q in Htk' at 2. rewrite <- !app_assoc in Htk'. rewrite <- Htk'. f_equal.
        rewrite !length_app. lia.
Qed.

End FlattenLoops.

Lemma flatten_views to_utf8 (s : STRSXP) :
  forallb (fun x => negb (is_NA_STRING x)) s = true ->
  forall i t, (view_bytes to_utf8 <$> s) !! i = Some t ->
    isNA (StriContainerUTF8_new to_utf8 s (length s)) (0 + i) = false
    /\ get (StriContainerUTF8_new to_utf8 s (length s)) (0 + i) = t.
Proof.
  intros Hlive i t Hi. rewrite list_lookup_fmap in Hi.
  destruct (s !! i) as [x|] eqn:Hx; [|done]. simpl in Hi. injection Hi as <-.
  pose proof (lookup_lt_Some _ _ _ Hx) as Hlt.
  assert (is_NA_STRING x = false) as Hna.
  { rewrite forallb_forall in Hlive. apply negb_true_iff, Hlive.
    apply list_elem_of_In, list_elem_of_lookup. by exists i. }
  assert (STRING_ELT s (i mod length s) = x) as Helt.
  { unfold STRING_ELT. rewrite Nat.mod_small by done. by rewrite Hx. }
  simpl. split.
  - rewrite container_isNA by lia. by rewrite Helt.
  - apply container_get; [lia|]. rewrite Helt. by destruct x.
Qed.

Lemma flatten_emits_interleave to_utf8 (s : STRSXP) (sp : CHARSXP) :
  (0 < length s)%nat ->
  forallb (fun x => negb (is_NA_STRING x)) s = true ->
  is_NA_STRING sp = false ->
  flatten_fits to_utf8 s sp = true ->
  stri_flatten to_utf8 s [sp]
  = ([], Some [CharLenCE (interleave (view_bytes to_utf8 sp) (view_bytes to_utf8 <$> s)) CE_UTF8])
  /\ (0 < length (view_bytes to_utf8 <$> s))%nat.
Proof.
  intros Hs Hlive Hsp Hfits.
  unfold flatten_fits in Hfits. apply Z.leb_le in Hfits.
  set (sepv := view_bytes to_utf8 sp) in *.
  set (vs := view_bytes to_utf8 <$> s) in *.
  assert (length vs = length s) as Hvs by (unfold vs; apply length_fmap).
  split; [|lia].
  destruct vs as [|v0 rest] eqn:Evs; [simpl in Hvs; lia|]. rewrite <- Evs in *.
  assert (Z.of_nat (length (interleave sepv vs)) = flatten_nchar sepv vs) as Hlen
    by (rewrite Evs; apply interleave_length).
  unfold stri_flatten, stri_flatten_run.
  destruct (Nat.leb_spec (length s) 0); [lia|]. cbn [length Nat.leb Nat.ltb orb].
  assert (isNA (StriContainerUTF8_new to_utf8 [sp] 1) 0 = false) as ->.
  { unfold isNA. simpl. by destruct sp. }
  assert (get (StriContainerUTF8_new to_utf8 [sp] 1) 0 = sepv) as Hget.
  { unfold get. simpl. by destruct sp. }
  rewrite Hget.
  pose proof (flatten_size_spec (StriContainerUTF8_new to_utf8 s (length s)) (length s)
                sepv vs 0 0%Z) as Hsize.
  rewrite Hvs in Hsize. rewrite Hsize; [|lia| |lia|lia].
  2:{ intros i t Hi. by apply flatten_views. }
  rewrite Z.add_0_l.
  destruct (flatten_fill_spec (StriContainerUTF8_new to_utf8 s (length s))
              (StriContainerUTF8_new to_utf8 [sp] 1) (length s) sepv Hget vs 0
              (new_char (Z.of_nat (length (interleave sepv vs)))) [])
    as (b' & Hrun & Hl & Htk).
  - lia.
  - intros i t Hi. by apply flatten_views.
  - done.
  - unfold new_char. simpl. rewrite length_replicate. lia.
  - simpl. lia.
  - rewrite Hvs in Hrun. change (Z.of_nat (length (@nil byte))) with 0%Z in Hrun.
    change (length (@nil byte) + length (interleave sepv vs))%nat
      with (length (interleave sepv vs)) in Hrun, Htk.
    cbn [fst snd]. rewrite Hrun.
    cbn [mbind option_bind fst snd fmap option_fmap option_map].
    rewrite mkCharLenCE_Some.
    2:{ rewrite Hl. unfold new_char. simpl. rewrite length_replicate. lia. }
    simpl. rewrite Nat2Z.id. simpl in Htk. by rewrite Htk.
Qed.

(** X22 (stri_flatten, joined string within [R_len_t]).  For a non-empty
    [s] without NA, a single non-NA separator and a total size that fits
    [R_len_t] ([flatten_fits]),
    [stri_flatten] returns, without warning, one UTF-8 string: the first
    string of [s], then the separator and the next string for each of the
    others.  Its byte length is the sum of the byte lengths of the strings
    plus [len(s) - 1] times that of the separator, and with an empty
    separator it is the concatenation of the strings. *)
Theorem stri_flatten_joined to_utf8 (s : STRSXP) (sp : CHARSXP) :
  (0 < length s)%nat ->
  forallb (fun x => negb (is_NA_STRING x)) s = true ->
  is_NA_STRING sp = false ->
  flatten_fits to_utf8 s sp = true ->
  exists out,
    stri_flatten to_utf8 s [sp] = ([], Some [CharLenCE out CE_UTF8])
    /\ out = flatten_joined (view_bytes to_utf8 sp) (view_bytes to_utf8 <$> s)
    /\ String8_length out = flatten_nchar (view_bytes to_utf8 sp) (view_bytes to_utf8 <$> s)
    /\ (view_bytes to_utf8 sp = [] -> out = mjoin (view_bytes to_utf8 <$> s)).
Proof.
  intros Hs Hlive Hsp Hfits.
  destruct (flatten_emits_interleave to_utf8 s sp Hs Hlive Hsp Hfits) as [Hrun Hne].
  exists (interleave (view_bytes to_utf8 sp) (view_bytes to_utf8 <$> s)).
  split; [exact Hrun|].
  destruct (view_bytes to_utf8 <$> s) as [|v0 rest]; [simpl in Hne; lia|].
  split; [apply interleave_joined|]. split; [apply interleave_length|].
  intros ->. apply interleave_nil_sep.
Qed.

Lemma stri_flatten_joined_witness :
  exists out,
    stri_flatten (fun _ b => b)
      [CharLenCE [xce; xb1] CE_UTF8; CharLenCE [xce; xb2] CE_UTF8] (cons (CharLenCE [x2d] CE_UTF8) nil)
    = ([], Some [CharLenCE out CE_UTF8])
    /\ out = [xce; xb1; x2d; xce; xb2]
    /\ String8_length out = 5%Z.
Proof.
  destruct (stri_flatten_joined (fun _ b => b)
              [CharLenCE [xce; xb1] CE_UTF8; CharLenCE [xce; xb2] CE_UTF8]
              (CharLenCE [x2d] CE_UTF8)) as (out & Hrun & Hout & Hlen & _).
  - simpl. lia.
  - reflexivity.
  - reflexivity.
  - reflexivity.
  - exists out. split; [exact Hrun|]. split; [exact Hout|exact Hlen].
Defined.

(** ** stri_flatten: a total size beyond the range of R_len_t *)

(** Four strings of 2^30 bytes: the size of line 375, accumulated in
    [R_len_t], comes back to 0. *)
Lemma flatten_four_beyond_R_len_t (t : list byte) :
  String8_length t = 1073741824%Z ->
  flatten_nchar [] [t; t; t; t] = 4294967296%Z
  /\ flatten_size (StriContainerUTF8_new (fun _ b => b)
                     [CharLenCE t CE_UTF8; CharLenCE t CE_UTF8;
                      CharLenCE t CE_UTF8; CharLenCE t CE_UTF8] 4)
                  4 0 (seq 0 4) 0 = Some 0%Z
  /\ memcpy (new_char 0) 0 t (String8_length t) = None
  /\ stri_flatten (fun _ b => b)
       [CharLenCE t CE_UTF8; CharLenCE t CE_UTF8; CharLenCE t CE_UTF8; CharLenCE t CE_UTF8]
       [CharLenCE [] CE_UTF8]
     = ([], None).
Proof.
  intros Hlen.
  assert (flatten_size (StriContainerUTF8_new (fun _ b => b)
                          [CharLenCE t CE_UTF8; CharLenCE t CE_UTF8;
                           CharLenCE t CE_UTF8; CharLenCE t CE_UTF8] 4)
                       4 0 (seq 0 4) 0 = Some 0%Z) as Hsize.
  { cbn -[wrap String8_length]. rewrite Hlen. reflexivity. }
  assert (memcpy (new_char 0) 0 t (String8_length t) = None) as Hcopy.
  { unfold memcpy. rewrite Hlen. reflexivity. }
  split; [|split; [exact Hsize|split; [exact Hcopy|]]].
  - unfold flatten_nchar. cbn -[String8_length Z.mul Z.add Z.of_nat].
    unfold String8_length in *. cbn [length]. lia.
  - assert (forall ssep,
              flatten_fill_step
                (StriContainerUTF8_new (fun _ b => b)
                   [CharLenCE t CE_UTF8; CharLenCE t CE_UTF8;
                    CharLenCE t CE_UTF8; CharLenCE t CE_UTF8] 4)
                ssep 4 0 (new_char 0, 0%Z) 0 = None) as Hstep.
    { intros ssep. unfold flatten_fill_step. cbn [fst snd].
      change (get (StriContainerUTF8_new (fun _ b => b)
                     [CharLenCE t CE_UTF8; CharLenCE t CE_UTF8;
                      CharLenCE t CE_UTF8; CharLenCE t CE_UTF8] 4) 0) with t.
      rewrite Hcopy. reflexivity. }
    unfold stri_flatten, stri_flatten_run.
    cbn [length Nat.leb Nat.ltb orb].
    change (isNA (StriContainerUTF8_new (fun _ b => b) [CharLenCE [] CE_UTF8] 1) 0) with false.
    change (String8_length (get (StriContainerUTF8_new (fun _ b => b) [CharLenCE [] CE_UTF8] 1) 0))
      with 0%Z.
    cbv iota. rewrite Hsize.
    change (seq 0 4) with (0 :: seq 1 3)%nat. cbn [for_each].
    rewrite Hstep. reflexivity.
Qed.

(** C7 at four strings of 2^30 bytes and the empty separator.  None is
    NA, so the claim gives the concatenation, of 2^32 bytes; the sizing
    pass finds [nchar = 0], [new char[0]] is allocated, and the first copy
    of the filling loop, of 2^30 bytes, leaves it: the call has no
    result. *)
Theorem stri_flatten_total_beyond_R_len_t :
  flatten_nchar [] [string_2_30; string_2_30; string_2_30; string_2_30] = 4294967296%Z
  /\ flatten_size (StriContainerUTF8_new (fun _ b => b)
                     [CharLenCE string_2_30 CE_UTF8; CharLenCE string_2_30 CE_UTF8;
                      CharLenCE string_2_30 CE_UTF8; CharLenCE string_2_30 CE_UTF8] 4)
                  4 0 (seq 0 4) 0 = Some 0%Z
  /\ memcpy (new_char 0) 0 string_2_30 (String8_length string_2_30) = None
  /\ stri_flatten (fun _ b => b)
       [CharLenCE string_2_30 CE_UTF8; CharLenCE string_2_30 CE_UTF8;
        CharLenCE string_2_30 CE_UTF8; CharLenCE string_2_30 CE_UTF8]
       [CharLenCE [] CE_UTF8]
     = ([], None).
Proof. exact (flatten_four_beyond_R_len_t string_2_30 string_2_30_length). Qed.

(** ** Output encoding of stri_dup and stri_flatten *)

Lemma valid_utf8_app (a b : list byte) :
  valid_utf8 a = true -> valid_utf8 (a ++ b) = valid_utf8 b.
Proof.
  unfold valid_utf8. rewrite fold_left_app.
  destruct (fold_left utf8_step a U_start); done.
Qed.

Lemma valid_utf8_repeated k t : valid_utf8 t = true -> valid_utf8 (repeated k t) = true.
Proof.
  intros Ht. induction k as [|k IH]; [done|]. simpl. by rewrite valid_utf8_app.
Qed.

Lemma valid_utf8_interleave sepv (l : list String8) :
  valid_utf8 sepv = true -> Forall (fun t => valid_utf8 t = true) l ->
  valid_utf8 (interleave sepv l) = true.
Proof.
  intros Hsep. induction 1 as [|t rest Ht Hrest IH]; [done|].
  destruct rest as [|u rest].
  - simpl. by rewrite app_nil_r.
  - change (interleave sepv (t :: u :: rest)) with (t ++ sepv ++ interleave sepv (u :: rest)).
    by rewrite !valid_utf8_app.
Qed.

(** X15.  With non-empty operands whose loop counter and joined byte
    counts stay in the range of [int] ([join2_fits]) and whose strings all
    hold valid UTF-8 bytes, every string [stri_join2] returns is valid
    UTF-8 (it converts nothing and concatenation keeps validity). *)
Lemma stri_join2_keeps_utf8 (s1 s2 : STRSXP) :
  (0 < length s1)%nat -> (0 < length s2)%nat ->
  join2_fits s1 s2 = true ->
  (forall x, x ∈ s1 ++ s2 -> is_NA_STRING x = false -> valid_utf8 (CHAR x) = true) ->
  exists r, snd (stri_join2 s1 s2) = Some r
    /\ forall i x enc, r !! i = Some (CharLenCE x enc) -> valid_utf8 x = true.
Proof.
  intros Hs1 Hs2 Hfits Hvalid.
  destruct (stri_join2_spec s1 s2 Hs1 Hs2 Hfits) as (r & Hr & Hlen & Hslots).
  exists r. split; [done|]. intros i x enc Hi.
  pose proof (lookup_lt_Some _ _ _ Hi) as Hlt. rewrite Hlen in Hlt.
  rewrite (Hslots i Hlt) in Hi. injection Hi as Hi.
  unfold join2_slot, join2_live in Hi.
  assert (forall (s : STRSXP) k, (0 < length s)%nat -> STRING_ELT s (k mod length s) ∈ s)
    as Helt.
  { intros s k Hs. unfold STRING_ELT.
    destruct (lookup_lt_is_Some_2 s (k mod length s)) as [y Hy].
    { apply Nat.mod_upper_bound. lia. }
    rewrite Hy. simpl. apply list_elem_of_lookup. by exists (k mod length s)%nat. }
  destruct (is_NA_STRING (STRING_ELT s1 (i mod length s1))) eqn:E1; [done|].
  destruct (is_NA_STRING (STRING_ELT s2 (i mod length s2))) eqn:E2; [done|].
  simpl in Hi. injection Hi as <- _.
  rewrite valid_utf8_app.
  - apply Hvalid; [|done]. apply elem_of_app. right. by apply Helt.
  - apply Hvalid; [|done]. apply elem_of_app. left. by apply Helt.
Qed.

Lemma STRING_ELT_mod_elem (s : STRSXP) (k : nat) :
  (0 < length s)%nat -> STRING_ELT s (k mod length s) ∈ s.
Proof.
  intros Hs. unfold STRING_ELT.
  destruct (lookup_lt_is_Some_2 s (k mod length s)) as [y Hy].
  { apply Nat.mod_upper_bound. lia. }
  rewrite Hy. simpl. apply list_elem_of_lookup. by exists (k mod length s)%nat.
Qed.

Lemma valid_views_elem to_utf8 (s : STRSXP) (x : CHARSXP) :
  forallb (fun x => is_NA_STRING x || valid_utf8 (view_bytes to_utf8 x)) s = true ->
  x ∈ s -> is_NA_STRING x = false -> valid_utf8 (view_bytes to_utf8 x) = true.
Proof.
  intros Hall Hx Hna. rewrite forallb_forall in Hall.
  specialize (Hall x ltac:(by apply list_elem_of_In)). by rewrite Hna in Hall.
Qed.

(** X13.  When the UTF-8 views of the strings of [s] are valid UTF-8 and
    the byte counts fit [R_len_t], every string [stri_dup] returns is
    valid UTF-8: repeating a valid string keeps it valid. *)
Lemma stri_dup_valid_utf8 to_utf8 (s : STRSXP) (c : list Z) :
  forallb (fun x => is_NA_STRING x || valid_utf8 (view_bytes to_utf8 x)) s = true ->
  dup_fits to_utf8 s c = true ->
  exists r, snd (stri_dup to_utf8 s c) = Some r
    /\ forall i x enc, r !! i = Some (CharLenCE x enc) -> valid_utf8 x = true.
Proof.
  intros Hvalid Hfits. exists (duplicate_naive to_utf8 s c).
  split; [by apply dup_emits_naive|].
  intros i x enc Hi. unfold duplicate_naive in Hi. rewrite list_lookup_fmap in Hi.
  destruct (seq 0 _ !! i) as [j|] eqn:Hj; [|done]. simpl in Hi. injection Hi as Hi.
  assert (0 < length s)%nat as Hs.
  { apply lookup_lt_Some in Hj. rewrite length_seq in Hj.
    apply (recycled_length_pos (length s) (length c)). lia. }
  pose proof (STRING_ELT_mod_elem s j Hs) as Helt.
  pose proof (valid_views_elem to_utf8 s _ Hvalid Helt) as Hview.
  unfold naive_slot in Hi.
  destruct (STRING_ELT s (j mod length s)) as [|b e]; [done|]. simpl in Hi.
  specialize (Hview eq_refl). simpl in Hview.
  repeat (match type of Hi with (if ?g then _ else _) = _ => destruct g end;
          try discriminate; try (injection Hi as <- _; done)).
  injection Hi as <- _. by apply valid_utf8_repeated.
Qed.

(** X14.  When the UTF-8 views of the separator and of the strings of [s]
    are valid UTF-8 and the total size fits [R_len_t], the string
    [stri_flatten] returns for a non-empty [s] without NA is valid UTF-8:
    strings and separator are joined at code point boundaries. *)
Lemma stri_flatten_valid_utf8 to_utf8 (s : STRSXP) (sp : CHARSXP) :
  forallb (fun x => is_NA_STRING x || valid_utf8 (view_bytes to_utf8 x)) (sp :: s) = true ->
  (0 < length s)%nat ->
  forallb (fun x => negb (is_NA_STRING x)) s = true ->
  is_NA_STRING sp = false ->
  flatten_fits to_utf8 s sp = true ->
  exists out, stri_flatten to_utf8 s [sp] = ([], Some [CharLenCE out CE_UTF8])
    /\ valid_utf8 out = true.
Proof.
  intros Hvalid Hs Hlive Hsp Hfits.
  destruct (flatten_emits_interleave to_utf8 s sp Hs Hlive Hsp Hfits) as [Hrun _].
  eexists. split; [exact Hrun|].
  apply valid_utf8_interleave.
  - apply (valid_views_elem to_utf8 (sp :: s)); [done| |done]. apply elem_of_cons. by left.
  - apply Forall_fmap, Forall_forall. intros x Hx. simpl.
    apply (valid_views_elem to_utf8 (sp :: s)); [done| |].
    + apply elem_of_cons. right. by apply list_elem_of_In.
    + rewrite forallb_forall in Hlive. by apply negb_true_iff, Hlive.
Qed.

(** ** stri_flatten_nosep *)

Lemma flatten_nosep_size_NA ss (counter : list nat) :
  (exists i, i ∈ counter /\ isNA ss i = true) ->
  forall nchar, flatten_nosep_size ss counter nchar = None.
Proof.
  induction counter as [|j counter IH]; intros (i & Hi & Hna) nchar.
  - by apply elem_of_nil in Hi.
  - simpl. destruct (isNA ss j) eqn:Hj; [done|].
    apply IH. exists i. split; [|done].
    apply elem_of_cons in Hi as [->|Hi]; [congruence|done].
Qed.

(** X2.  The form without separator: when an element of [s] is NA,
    [stri_flatten_nosep] returns the NA vector of length 1, decided by the
    sizing pass, before any copy. *)
Lemma stri_flatten_nosep_NA to_utf8 (s : STRSXP) i :
  (i < length s)%nat -> STRING_ELT s i = NA_STRING ->
  stri_flatten_nosep_run to_utf8 s = Some ([], [NA_STRING]).
Proof.
  intros Hi Hna. unfold stri_flatten_nosep_run.
  destruct (Nat.leb_spec (length s) 0); [lia|].
  rewrite flatten_nosep_size_NA; [done|].
  exists i. split; [apply elem_of_seq; lia|].
  rewrite container_isNA by lia. rewrite Nat.mod_small by done. by rewrite Hna.
Qed.


(** * Part III: further results *)

(** ** Copies and loops *)

Lemma wrap_add_wrap (a b : Z) : wrap (a + wrap b) = wrap (a + b).
Proof.
  unfold wrap. f_equal.
  replace (a + ((b + 2147483648) mod 4294967296 - 2147483648) + 2147483648)%Z
    with (a + (b + 2147483648) mod 4294967296)%Z by lia.
  rewrite Zplus_mod_idemp_r. f_equal. lia.
Qed.

Lemma wrap_le_INT_MAX (x : Z) : (wrap x <= INT_MAX)%Z.
Proof.
  unfold wrap, INT_MAX.
  pose proof (Z.mod_pos_bound (x + 2147483648) 4294967296 ltac:(lia)). lia.
Qed.

(** A copy that succeeds lies inside the buffer, keeps its size and is
    logged. *)
Lemma memcpy_inv b off src n b' :
  memcpy b off src n = Some b' ->
  (0 <= off)%Z /\ (0 <= n)%Z /\ (off + n <= Z.of_nat (length (mem b)))%Z
  /\ length (mem b') = length (mem b)
  /\ copies b' = (off, n) :: copies b.
Proof.
  unfold memcpy. intros H.
  destruct (0 <=? off)%Z eqn:E1; [|done].
  destruct (0 <=? n)%Z eqn:E2; [|done].
  destruct (off + n <=? Z.of_nat (length (mem b)))%Z eqn:E3; [|done].
  destruct (n <=? Z.of_nat (length src))%Z eqn:E4; [|done].
  simpl in H. injection H as <-. simpl.
  apply Z.leb_le in E1, E2, E3, E4.
  repeat split; try lia. rewrite !length_app, !length_take, length_drop. lia.
Qed.

(** What every turn keeps, the loop keeps. *)
Lemma for_each_inv {S : Type} (body : S -> nat -> option S) (Inv : S -> Prop) :
  (forall st i st', body st i = Some st' -> Inv st -> Inv st') ->
  forall counter st st', for_each body counter st = Some st' -> Inv st -> Inv st'.
Proof.
  intros Hbody. induction counter as [|i counter IH]; intros st st' Hrun Hinv; simpl in Hrun.
  - by injection Hrun as <-.
  - destruct (body st i) as [st1|] eqn:E; [|done]. simpl in Hrun.
    eapply IH; [exact Hrun|]. by eapply Hbody.
Qed.

Lemma for_each_ext {S : Type} (f g : S -> nat -> option S) :
  (forall st i, f st i = g st i) ->
  forall counter st, for_each f counter st = for_each g counter st.
Proof.
  intros Hfg. induction counter as [|i counter IH]; intros st; simpl; [done|].
  rewrite Hfg. destruct (g st i); simpl; [apply IH|done].
Qed.

Lemma copy_below_mono (a b : Z) (l : list (Z * Z)) :
  (a <= b)%Z -> Forall (copy_below a) l -> Forall (copy_below b) l.
Proof.
  intros Hab. apply Forall_impl. intros [off sz]. unfold copy_below. simpl. lia.
Qed.

(** ** The filling loops of stri_flatten and stri_flatten_nosep *)

Lemma flatten_fill_step_inv ss ssep ns ncharsep st i st' :
  flatten_fill_step ss ssep ns ncharsep st i = Some st' -> fill_inv st -> fill_inv st'.
Proof.
  unfold flatten_fill_step, fill_inv. intros Hstep (Hcur & Hmax & Htot & Hlog & Htile).
  destruct (memcpy (fst st) (snd st) (get ss i) (String8_length (get ss i)))
    as [b1|] eqn:E1; [|done].
  simpl in Hstep. apply memcpy_inv in E1 as (_ & Hn1 & Hend1 & Hlen1 & Hlog1).
  assert (wrap (snd st + String8_length (get ss i))
          = (snd st + String8_length (get ss i))%Z) as Hw1
    by (apply wrap_small; unfold in_R_len_t, INT_MIN; lia).
  rewrite Hw1 in Hstep.
  assert (Forall (copy_below (snd st + String8_length (get ss i))) (copies b1)) as Hlog1'.
  { rewrite Hlog1. constructor.
    - unfold copy_below. simpl. lia.
    - eapply copy_below_mono; [|exact Hlog]. lia. }
  destruct ((i <? ns - 1)%nat && (ncharsep >? 0)%Z).
  - destruct (memcpy b1 _ (get ssep 0) ncharsep) as [b2|] eqn:E2; [|done].
    simpl in Hstep. injection Hstep as <-. simpl.
    apply memcpy_inv in E2 as (_ & Hn2 & Hend2 & Hlen2 & Hlog2).
    rewrite wrap_small by (unfold in_R_len_t, INT_MIN; lia).
    split; [lia|]. split; [lia|]. rewrite Hlog2, Hlog1. simpl. split; [lia|]. split.
    + constructor.
      * unfold copy_below. simpl. lia.
      * rewrite <- Hlog1. eapply copy_below_mono; [|exact Hlog1']. lia.
    + split; [lia|]. split; [done|]. split; [lia|]. split; [done|]. exact Htile.
  - injection Hstep as <-. simpl. split; [lia|]. split; [lia|].
    rewrite Hlog1. simpl. split; [lia|]. split; [by rewrite <- Hlog1|].
    split; [lia|]. split; [done|]. exact Htile.
Qed.

Lemma log_tiles_cover (l : list (Z * Z)) (stop k : Z) :
  log_tiles l stop -> (0 <= k < stop)%Z ->
  exists off size, (off, size) ∈ l /\ (off <= k < off + size)%Z.
Proof.
  revert stop. induction l as [|[off size] l IH]; intros stop Htile Hk; simpl in Htile.
  - lia.
  - destruct Htile as (Hsize & Hstop & Htile).
    destruct (Z.le_gt_cases off k) as [Hle|Hgt].
    + exists off, size. split; [apply elem_of_cons; by left|lia].
    + destruct (IH off Htile ltac:(lia)) as (off' & size' & Hin & Hcov).
      exists off', size'. split; [apply elem_of_cons; by right|done].
Qed.

Lemma flatten_nosep_size_eq ss ns (counter : list nat) :
  forall nchar, flatten_nosep_size ss counter nchar = flatten_size ss ns 0%Z counter nchar.
Proof.
  induction counter as [|i counter IH]; intros nchar; simpl; [done|].
  destruct (isNA ss i); [done|]. rewrite IH. f_equal.
  rewrite wrap_add_wrap. f_equal. destruct (i <? ns - 1)%nat; lia.
Qed.

Lemma flatten_nosep_fill_step_eq ss ssep ns st i :
  flatten_nosep_fill_step ss st i = flatten_fill_step ss ssep ns 0%Z st i.
Proof.
  unfold flatten_nosep_fill_step, flatten_fill_step.
  destruct (memcpy _ _ _ _); simpl; [|done].
  by rewrite andb_false_r.
Qed.

(** Both passes and the emission, for strings [vs] without NA whose total
    size fits: the size found, the final buffer and its log. *)
Lemma flatten_passes ss ssep (sepv : list byte) (vs : list String8) :
  get ssep 0 = sepv ->
  (0 < length vs)%nat ->
  (forall i t, vs !! i = Some t -> isNA ss (0 + i) = false /\ get ss (0 + i) = t) ->
  (flatten_nchar sepv vs <= INT_MAX)%Z ->
  flatten_size ss (length vs) (String8_length sepv) (seq 0 (length vs)) 0%Z
  = Some (flatten_nchar sepv vs)
  /\ exists b,
       for_each (flatten_fill_step ss ssep (length vs) (String8_length sepv))
                (seq 0 (length vs)) (new_char (flatten_nchar sepv vs), 0%Z)
       = Some (b, flatten_nchar sepv vs)
       /\ mkCharLenCE (mem b) (flatten_nchar sepv vs) CE_UTF8
          = Some (CharLenCE (interleave sepv vs) CE_UTF8)
       /\ log_total (copies b) = flatten_nchar sepv vs
       /\ Forall (copy_below (flatten_nchar sepv vs)) (copies b)
       /\ log_tiles (copies b) (flatten_nchar sepv vs).
Proof.
  intros Hget Hne Hviews Hfits.
  assert (Z.of_nat (length (interleave sepv vs)) = flatten_nchar sepv vs) as Hlen.
  { destruct vs as [|v0 rest]; [simpl in Hne; lia|]. apply interleave_length. }
  rewrite <- Hlen in *. split.
  - rewrite (flatten_size_spec ss (length vs) sepv vs 0 0%Z); [f_equal; lia|lia|done|lia|lia].
  - destruct (flatten_fill_spec ss ssep (length vs) sepv Hget vs 0
                (new_char (Z.of_nat (length (interleave sepv vs)))) [])
      as (b & Hrun & Hl & Htk).
    + lia.
    + intros i t Hi. by apply Hviews.
    + done.
    + unfold new_char. simpl. rewrite length_replicate. lia.
    + simpl. lia.
    + change (Z.of_nat (length (@nil byte))) with 0%Z in Hrun.
      change (length (@nil byte) + length (interleave sepv vs))%nat
        with (length (interleave sepv vs)) in Hrun, Htk.
      assert (length (mem b) = length (interleave sepv vs)) as Hmem.
      { rewrite Hl. unfold new_char. simpl. rewrite length_replicate. lia. }
      exists b. split; [done|]. split.
      { rewrite mkCharLenCE_Some by lia. rewrite Nat2Z.id. simpl in Htk. by rewrite Htk. }
      pose proof (for_each_inv _ fill_inv
                    (fun st i st' => flatten_fill_step_inv ss ssep _ _ st i st')
                    _ _ _ Hrun) as Hinv.
      destruct Hinv as (_ & _ & Htot & Hlog & Htile); [|done].
      unfold fill_inv, new_char. simpl. rewrite length_replicate.
      split; [lia|]. split; [lia|]. split; [done|]. split; [constructor|done].
Qed.

(** ** stri_flatten_nosep and stri_flatten *)

(** X3.  [stri_flatten] with one non-NA separator whose UTF-8 view is empty
    runs exactly as [stri_flatten_nosep]: same vector, same copies, no
    warning, whatever the sizes and whether or not [s] has NA elements
    (the fast path that is commented out at the top of [stri_flatten]
    would change nothing). *)
Theorem stri_flatten_empty_separator_is_nosep to_utf8 (s : STRSXP) (sp : CHARSXP) :
  is_NA_STRING sp = false ->
  view_bytes to_utf8 sp = [] ->
  stri_flatten_run to_utf8 s [sp] = ([], stri_flatten_nosep_run to_utf8 s).
Proof.
  intros Hsp Hview. unfold stri_flatten_run, stri_flatten_nosep_run.
  destruct (Nat.leb_spec (length s) 0) as [Hz|Hpos].
  { assert (s = []) as -> by (apply length_zero_iff_nil; lia). done. }
  cbn [length Nat.leb Nat.ltb orb].
  assert (isNA (StriContainerUTF8_new to_utf8 [sp] 1) 0 = false) as ->.
  { unfold isNA. simpl. by destruct sp. }
  assert (get (StriContainerUTF8_new to_utf8 [sp] 1) 0 = []) as ->.
  { unfold get. simpl. destruct sp; [done|]. exact Hview. }
  change (String8_length []) with 0%Z.
  rewrite <- (flatten_nosep_size_eq _ (length s)).
  destruct (flatten_nosep_size _ _ _) as [nchar|]; [|done].
  f_equal.
  rewrite (for_each_ext (flatten_fill_step (StriContainerUTF8_new to_utf8 s (length s))
                           (StriContainerUTF8_new to_utf8 [sp] 1) (length s) 0%Z)
             (flatten_nosep_fill_step (StriContainerUTF8_new to_utf8 s (length s)))); [done|].
  intros st i. symmetry. apply flatten_nosep_fill_step_eq.
Qed.

Lemma stri_flatten_empty_separator_is_nosep_witness :
  stri_flatten_run (fun _ b => b) [CharLenCE [x61] CE_UTF8; NA_STRING] [CharLenCE [] CE_UTF8]
  = ([], stri_flatten_nosep_run (fun _ b => b) [CharLenCE [x61] CE_UTF8; NA_STRING]).
Proof.
  apply (stri_flatten_empty_separator_is_nosep (fun _ b => b)); reflexivity.
Defined.

Lemma nosep_emits_concat to_utf8 (s : STRSXP) :
  (0 < length s)%nat ->
  forallb (fun x => negb (is_NA_STRING x)) s = true ->
  flatten_nosep_fits to_utf8 s = true ->
  exists log,
    stri_flatten_nosep_run to_utf8 s
    = Some (log, [CharLenCE (mjoin (view_bytes to_utf8 <$> s)) CE_UTF8])
    /\ log_total log = String8_length (mjoin (view_bytes to_utf8 <$> s))
    /\ forall off size, (off, size) ∈ log ->
         (0 <= off /\ off + size <= String8_length (mjoin (view_bytes to_utf8 <$> s)))%Z.
Proof.
  intros Hs Hlive Hfits. unfold flatten_nosep_fits in Hfits. apply Z.leb_le in Hfits.
  set (vs := view_bytes to_utf8 <$> s) in *.
  assert (length vs = length s) as Hvs by (unfold vs; apply length_fmap).
  assert (flatten_nchar [] vs = Z.of_nat (sum_list (length <$> vs))) as Hn
    by (unfold flatten_nchar, String8_length; simpl; lia).
  assert (String8_length (mjoin vs) = flatten_nchar [] vs) as Hjoin.
  { rewrite <- interleave_nil_sep. unfold String8_length.
    destruct vs as [|v0 rest]; [simpl in Hvs; lia|]. apply interleave_length. }
  destruct (flatten_passes (StriContainerUTF8_new to_utf8 s (length s)) (Container 0 0 []) [] vs)
    as (Hsize & b & Hrun & Hmk & Htot & Hlog & _).
  - done.
  - lia.
  - intros i t Hi. by apply flatten_views.
  - lia.
  - rewrite Hvs in Hsize, Hrun. change (String8_length []) with 0%Z in Hsize, Hrun.
    exists (copies b). split; [|split].
    + unfold stri_flatten_nosep_run.
      destruct (Nat.leb_spec (length s) 0); [lia|].
      rewrite (flatten_nosep_size_eq _ (length s)), Hsize.
      rewrite (for_each_ext _ (flatten_fill_step (StriContainerUTF8_new to_utf8 s (length s))
                                 (Container 0 0 []) (length s) 0%Z))
        by (intros st i; apply flatten_nosep_fill_step_eq).
      rewrite Hrun. cbn [mbind option_bind fst snd]. rewrite Hmk. simpl.
      by rewrite interleave_nil_sep.
    + by rewrite Hjoin.
    + intros off size Hin. rewrite Hjoin. rewrite Forall_forall in Hlog.
      apply (Hlog (off, size)). by apply list_elem_of_In.
Qed.

(** X1.  For a non-empty [s] without NA whose total size fits [R_len_t],
    [stri_flatten_nosep] returns one UTF-8 string, the concatenation of
    the strings of [s]; its copies fill the buffer exactly: they stay
    inside [nchar] bytes and their sizes add up to the byte length of the
    result. *)
Theorem stri_flatten_nosep_concat to_utf8 (s : STRSXP) :
  (0 < length s)%nat ->
  forallb (fun x => negb (is_NA_STRING x)) s = true ->
  flatten_nosep_fits to_utf8 s = true ->
  exists log,
    stri_flatten_nosep_run to_utf8 s
    = Some (log, [CharLenCE (mjoin (view_bytes to_utf8 <$> s)) CE_UTF8])
    /\ log_total log = String8_length (mjoin (view_bytes to_utf8 <$> s))
    /\ forall off size, (off, size) ∈ log ->
         (0 <= off /\ off + size <= String8_length (mjoin (view_bytes to_utf8 <$> s)))%Z.
Proof. apply nosep_emits_concat. Qed.

Lemma stri_flatten_nosep_concat_witness :
  exists log,
    stri_flatten_nosep_run (fun _ b => b) [CharLenCE [x61] CE_UTF8; CharLenCE [x62; x63] CE_UTF8]
    = Some (log, [CharLenCE [x61; x62; x63] CE_UTF8])
    /\ log_total log = 3%Z.
Proof.
  destruct (stri_flatten_nosep_concat (fun _ b => b)
              [CharLenCE [x61] CE_UTF8; CharLenCE [x62; x63] CE_UTF8])
    as (log & Hrun & Htot & _); [simpl; lia|reflexivity|reflexivity|].
  exists log. split; [exact Hrun|exact Htot].
Defined.

Lemma stri_flatten_nosep_NA_witness :
  stri_flatten_nosep_run (fun _ b => b) [CharLenCE [x61] CE_UTF8; NA_STRING; CharLenCE [x62] CE_UTF8]
  = Some ([], [NA_STRING]).
Proof.
  apply (stri_flatten_nosep_NA (fun _ b => b) _ 1); [simpl; lia|reflexivity].
Defined.

(** X6.  Under the conditions of the joined string (non-empty [s] without
    NA, one non-NA separator, total size fitting [R_len_t]), the copies of
    [stri_flatten] fill [new char[nchar]] exactly.  They tile it: the
    first copy starts at offset 0, every other copy starts where the one
    before it ended, and the last ends at [nchar], the byte length of the
    string returned.  So every copy stays inside the [nchar] bytes, the
    sizes add up to [nchar], and every offset below [nchar] is written by
    a copy. *)
Theorem stri_flatten_fills_scratch to_utf8 (s : STRSXP) (sp : CHARSXP) :
  (0 < length s)%nat ->
  forallb (fun x => negb (is_NA_STRING x)) s = true ->
  is_NA_STRING sp = false ->
  flatten_fits to_utf8 s sp = true ->
  exists log out,
    stri_flatten_run to_utf8 s [sp] = ([], Some (log, [CharLenCE out CE_UTF8]))
    /\ log_tiles log (String8_length out)
    /\ log_total log = String8_length out
    /\ (forall off size, (off, size) ∈ log ->
          (0 <= off /\ off + size <= String8_length out)%Z)
    /\ (forall k, (0 <= k < String8_length out)%Z ->
          exists off size, (off, size) ∈ log /\ (off <= k < off + size)%Z).
Proof.
  intros Hs Hlive Hsp Hfits. unfold flatten_fits in Hfits. apply Z.leb_le in Hfits.
  set (sepv := view_bytes to_utf8 sp) in *.
  set (vs := view_bytes to_utf8 <$> s) in *.
  assert (length vs = length s) as Hvs by (unfold vs; apply length_fmap).
  assert (String8_length (interleave sepv vs) = flatten_nchar sepv vs) as Hlen.
  { unfold String8_length. destruct vs as [|v0 rest]; [simpl in Hvs; lia|].
    apply interleave_length. }
  assert (get (StriContainerUTF8_new to_utf8 [sp] 1) 0 = sepv) as Hget.
  { unfold get. simpl. by destruct sp. }
  destruct (flatten_passes (StriContainerUTF8_new to_utf8 s (length s))
              (StriContainerUTF8_new to_utf8 [sp] 1) sepv vs Hget)
    as (Hsize & b & Hrun & Hmk & Htot & Hlog & Htile); [lia| |done|].
  { intros i t Hi. by apply flatten_views. }
  rewrite Hvs in Hsize, Hrun.
  exists (copies b), (interleave sepv vs).
  split; [|split; [by rewrite Hlen|split; [|split]]].
  - unfold stri_flatten_run.
    destruct (Nat.leb_spec (length s) 0); [lia|]. cbn [length Nat.leb Nat.ltb orb].
    assert (isNA (StriContainerUTF8_new to_utf8 [sp] 1) 0 = false) as ->.
    { unfold isNA. simpl. by destruct sp. }
    rewrite Hget, Hsize, Hrun. cbn [mbind option_bind fst snd]. by rewrite Hmk.
  - by rewrite Hlen.
  - intros off size Hin. rewrite Hlen. rewrite Forall_forall in Hlog.
    apply (Hlog (off, size)). by apply list_elem_of_In.
  - intros k Hk. rewrite Hlen in Hk. by apply (log_tiles_cover _ _ _ Htile).
Qed.

Lemma stri_flatten_fills_scratch_witness :
  exists log out,
    stri_flatten_run (fun _ b => b) [CharLenCE [x61] CE_UTF8; CharLenCE [x62] CE_UTF8]
                     (cons (CharLenCE [x2d] CE_UTF8) nil)
    = ([], Some (log, [CharLenCE out CE_UTF8]))
    /\ log_tiles log (String8_length out).
Proof.
  destruct (stri_flatten_fills_scratch (fun _ b => b)
              [CharLenCE [x61] CE_UTF8; CharLenCE [x62] CE_UTF8] (CharLenCE [x2d] CE_UTF8))
    as (log & out & Hrun & Htile & _); [simpl; lia|reflexivity ..|].
  exists log, out. split; [exact Hrun|exact Htile].
Defined.

(** X4.  Flattening a single non-NA string returns that string (its UTF-8
    bytes), whatever the non-NA separator: no separator is written. *)
Theorem stri_flatten_singleton to_utf8 (x sp : CHARSXP) :
  is_NA_STRING x = false ->
  is_NA_STRING sp = false ->
  (String8_length (view_bytes to_utf8 x) <=? INT_MAX)%Z = true ->
  stri_flatten to_utf8 [x] [sp] = ([], Some [CharLenCE (view_bytes to_utf8 x) CE_UTF8]).
Proof.
  intros Hx Hsp Hfit. apply Z.leb_le in Hfit.
  destruct (flatten_emits_interleave to_utf8 [x] sp) as [Hrun _].
  - simpl. lia.
  - simpl. by rewrite Hx.
  - done.
  - unfold flatten_fits, flatten_nchar. apply Z.leb_le. simpl.
    unfold String8_length in Hfit. lia.
  - rewrite Hrun. simpl. by rewrite app_nil_r.
Qed.

Lemma stri_flatten_singleton_witness :
  stri_flatten (fun _ b => b) [CharLenCE [x61; x62] CE_LATIN1] [CharLenCE [x2c; x20] CE_UTF8]
  = ([], Some [CharLenCE [x61; x62] CE_UTF8]).
Proof.
  apply (stri_flatten_singleton (fun _ b => b) (CharLenCE [x61; x62] CE_LATIN1)); reflexivity.
Defined.

Lemma interleave_app sepv (l1 l2 : list String8) :
  (0 < length l1)%nat -> (0 < length l2)%nat ->
  interleave sepv (l1 ++ l2) = interleave sepv l1 ++ sepv ++ interleave sepv l2.
Proof.
  intros H1 H2. induction l1 as [|x l1 IH]; [simpl in H1; lia|].
  destruct l1 as [|y l1].
  - destruct l2 as [|z l2]; [simpl in H2; lia|]. simpl. by rewrite app_nil_r.
  - change (interleave sepv ((x :: y :: l1) ++ l2))
      with (x ++ sepv ++ interleave sepv ((y :: l1) ++ l2)).
    rewrite IH by (simpl; lia).
    change (interleave sepv (x :: y :: l1)) with (x ++ sepv ++ interleave sepv (y :: l1)).
    by rewrite <- !app_assoc.
Qed.

Lemma flatten_nchar_nonneg sepv (l : list String8) :
  (0 < length l)%nat -> (0 <= flatten_nchar sepv l)%Z.
Proof. unfold flatten_nchar, String8_length. nia. Qed.

(** X5.  Flattening a vector made of two non-empty parts gives the
    flattened first part, the separator, and the flattened second part:
    [flatten(s1 ++ s2, sep) = flatten(s1, sep) + sep + flatten(s2, sep)]
    (no NA, total size fitting [R_len_t]). *)
Theorem stri_flatten_app to_utf8 (s1 s2 : STRSXP) (sp : CHARSXP) :
  (0 < length s1)%nat -> (0 < length s2)%nat ->
  forallb (fun x => negb (is_NA_STRING x)) (s1 ++ s2) = true ->
  is_NA_STRING sp = false ->
  flatten_fits to_utf8 (s1 ++ s2) sp = true ->
  exists o1 o2,
    stri_flatten to_utf8 s1 [sp] = ([], Some [CharLenCE o1 CE_UTF8])
    /\ stri_flatten to_utf8 s2 [sp] = ([], Some [CharLenCE o2 CE_UTF8])
    /\ stri_flatten to_utf8 (s1 ++ s2) [sp]
       = ([], Some [CharLenCE (o1 ++ view_bytes to_utf8 sp ++ o2) CE_UTF8]).
Proof.
  intros H1 H2 Hlive Hsp Hfits.
  rewrite forallb_app in Hlive. apply andb_true_iff in Hlive as [Hlive1 Hlive2].
  set (sepv := view_bytes to_utf8 sp).
  assert (length (view_bytes to_utf8 <$> s1) = length s1) as Hl1 by apply length_fmap.
  assert (length (view_bytes to_utf8 <$> s2) = length s2) as Hl2 by apply length_fmap.
  assert (flatten_nchar sepv (view_bytes to_utf8 <$> (s1 ++ s2))
          = (flatten_nchar sepv (view_bytes to_utf8 <$> s1) + String8_length sepv
             + flatten_nchar sepv (view_bytes to_utf8 <$> s2))%Z) as Hsum.
  { unfold flatten_nchar. rewrite !fmap_app, sum_list_with_app, !length_app, !length_fmap.
    unfold String8_length. lia. }
  pose proof (flatten_nchar_nonneg sepv (view_bytes to_utf8 <$> s1) ltac:(lia)) as Hn1.
  pose proof (flatten_nchar_nonneg sepv (view_bytes to_utf8 <$> s2) ltac:(lia)) as Hn2.
  unfold flatten_fits in Hfits. apply Z.leb_le in Hfits. fold sepv in Hfits.
  rewrite Hsum in Hfits.
  destruct (flatten_emits_interleave to_utf8 s1 sp H1 Hlive1 Hsp) as [Hrun1 _].
  { unfold flatten_fits. apply Z.leb_le. fold sepv. unfold String8_length in *. lia. }
  destruct (flatten_emits_interleave to_utf8 s2 sp H2 Hlive2 Hsp) as [Hrun2 _].
  { unfold flatten_fits. apply Z.leb_le. fold sepv. unfold String8_length in *. lia. }
  destruct (flatten_emits_interleave to_utf8 (s1 ++ s2) sp) as [Hrun _].
  { rewrite length_app. lia. }
  { rewrite forallb_app. by rewrite Hlive1, Hlive2. }
  { done. }
  { unfold flatten_fits. apply Z.leb_le. fold sepv. rewrite Hsum. lia. }
  eexists _, _. split; [exact Hrun1|]. split; [exact Hrun2|].
  rewrite Hrun. do 4 f_equal. rewrite fmap_app. apply interleave_app; lia.
Qed.

Lemma stri_flatten_app_witness :
  stri_flatten (fun _ b => b)
    ([CharLenCE [x61] CE_UTF8; CharLenCE [x62] CE_UTF8] ++ [CharLenCE [x63] CE_UTF8])
    (cons (CharLenCE [x2d] CE_UTF8) nil)
  = ([], Some [CharLenCE ([x61; x2d; x62] ++ [x2d] ++ [x63]) CE_UTF8]).
Proof.
  destruct (stri_flatten_app (fun _ b => b)
              [CharLenCE [x61] CE_UTF8; CharLenCE [x62] CE_UTF8] [CharLenCE [x63] CE_UTF8]
              (CharLenCE [x2d] CE_UTF8))
    as (o1 & o2 & H1 & H2 & H12); [simpl; lia|simpl; lia|reflexivity ..|].
  vm_compute in H1. vm_compute in H2. injection H1 as <-. injection H2 as <-.
  exact H12.
Defined.

(** ** stri_join2: the scratch buffer *)

Lemma join2_inner_step_scratch s2 ns2 si1 sn1 size st j st' :
  join2_inner_step s2 ns2 si1 sn1 st j = Some st' ->
  join2_scratch_inv size st -> join2_scratch_inv size st'.
Proof.
  unfold join2_inner_step, join2_scratch_inv. intros Hstep [Hlen Hlog].
  destruct (is_NA_STRING (STRING_ELT s2 (j mod ns2))).
  { injection Hstep as <-. done. }
  assert (forall b off src n b',
            memcpy b off src n = Some b' ->
            length (mem b) = size /\ Forall (copy_below (Z.of_nat size)) (copies b) ->
            length (mem b') = size /\ Forall (copy_below (Z.of_nat size)) (copies b'))
    as Hcopy.
  { intros b off src n b' Hm [Hl Hg].
    apply memcpy_inv in Hm as (Hoff & Hn & Hend & Hl' & Hg').
    split; [congruence|]. rewrite Hg'. constructor; [|done].
    unfold copy_below. simpl. lia. }
  destruct (negb (sn1 =? 0)%Z && (buf2 st =? 0)%Z).
  - destruct (memcpy (jbuf st) 0 si1 sn1) as [b|] eqn:E1; [|done]. simpl in Hstep.
    pose proof (Hcopy _ _ _ _ _ E1 (conj Hlen Hlog)) as Hb.
    destruct (negb (LENGTH (STRING_ELT s2 (j mod ns2)) =? 0)%Z).
    + destruct (memcpy b _ _ _) as [b'|] eqn:E2; [|done]. simpl in Hstep.
      destruct (mkCharLen _ _); [|done]. simpl in Hstep. injection Hstep as <-. simpl.
      by apply (Hcopy _ _ _ _ _ E2).
    + simpl in Hstep. destruct (mkCharLen _ _); [|done]. simpl in Hstep.
      injection Hstep as <-. done.
  - simpl in Hstep.
    destruct (negb (LENGTH (STRING_ELT s2 (j mod ns2)) =? 0)%Z).
    + destruct (memcpy (jbuf st) _ _ _) as [b'|] eqn:E2; [|done]. simpl in Hstep.
      destruct (mkCharLen _ _); [|done]. simpl in Hstep. injection Hstep as <-. simpl.
      by apply (Hcopy _ _ _ _ _ E2).
    + simpl in Hstep. destruct (mkCharLen _ _); [|done]. simpl in Hstep.
      injection Hstep as <-. done.
Qed.

Lemma join2_outer_step_scratch s1 s2 ns1 ns2 nsm size st i st' :
  join2_outer_step s1 s2 ns1 ns2 nsm st i = Some st' ->
  join2_scratch_inv size st -> join2_scratch_inv size st'.
Proof.
  unfold join2_outer_step. intros Hstep Hinv.
  destruct (is_NA_STRING (STRING_ELT s1 i));
    (destruct (strided_int nsm i ns1 nsm) as [js|]; [|done]); simpl in Hstep.
  - eapply (for_each_inv join2_na_step (join2_scratch_inv size)); [|exact Hstep|exact Hinv].
    intros st0 j st0' H0 Hinv0. injection H0 as <-. done.
  - eapply (for_each_inv _ (join2_scratch_inv size)); [|exact Hstep|exact Hinv].
    intros st0 j st0'. apply join2_inner_step_scratch.
Qed.

(** X7.  For non-empty operands whose loop counter and joined byte counts
    stay in the range of [int] ([join2_fits]), the sizing loops of
    [stri_join2] give a size [maxsize]; when it is positive, the copying
    loops run to their end, their vector is the one returned, and every
    [memcpy] into the buffer of [R_alloc(maxsize, 1)] starts at an offset
    [>= 0] and ends at or before [maxsize]. *)
Theorem stri_join2_scratch_bound (s1 s2 : STRSXP) :
  (0 < length s1)%nat -> (0 < length s2)%nat ->
  join2_fits s1 s2 = true ->
  exists maxsize,
    join2_maxsize s1 s2 (length s1) (length s2) (recycled_length (length s1) (length s2))
    = Some maxsize
    /\ ((0 < maxsize)%Z ->
        exists st,
          for_each (join2_outer_step s1 s2 (length s1) (length s2)
                      (recycled_length (length s1) (length s2))) (seq 0 (length s1))
                   (Join2State (new_char maxsize) 0%Z
                      (allocVector_STRSXP (recycled_length (length s1) (length s2)))) = Some st
          /\ snd (stri_join2 s1 s2) = Some (e st)
          /\ forall off size, (off, size) ∈ copies (jbuf st) ->
               (0 <= off /\ off + size <= maxsize)%Z).
Proof.
  intros Hs1 Hs2 Hfits.
  set (nsm := recycled_length (length s1) (length s2)) in *.
  unfold join2_fits in Hfits. fold nsm in Hfits.
  apply andb_true_iff in Hfits as [Hcount Hfits].
  assert (forall j, (j < nsm)%nat -> join2_slot_fits s1 s2 (length s1) (length s2) j = true)
    as Hfit.
  { intros j Hj. rewrite forallb_forall in Hfits. apply Hfits.
    apply list_elem_of_In, elem_of_seq. lia. }
  destruct (join2_maxsize_spec s1 s2 (length s1) (length s2) nsm Hs1 Hcount Hfit)
    as (M & HMeq & HM & Hub).
  exists M. split; [done|]. intros Hpos.
  destruct (join2_outer_loop_spec s1 s2 (length s1) (length s2) nsm M ltac:(lia) Hcount Hub
              (seq 0 (length s1)))
    with (st := Join2State (new_char M) 0%Z (allocVector_STRSXP nsm))
    as (st & Hrun & _ & _ & _).
  - intros i Hi. apply elem_of_seq in Hi. lia.
  - unfold allocVector_STRSXP. apply length_replicate.
  - unfold new_char. simpl. rewrite length_replicate. lia.
  - exists st. split; [done|]. split.
    + clear Hfit Hub Hfits Hcount. subst nsm. unfold stri_join2, recycled_length in *.
      destruct (stri__recycling_rule true [length s1; length s2]) as [nsm' w].
      cbn [fst] in *.
      destruct (Nat.leb_spec (length s1) 0); [lia|].
      destruct (Nat.leb_spec (length s2) 0); [lia|].
      cbn [snd]. rewrite HMeq. cbn [mbind option_bind].
      destruct (Z.leb_spec M 0); [lia|]. by rewrite Hrun.
    + pose proof (for_each_inv _ (join2_scratch_inv (Z.to_nat M))
                    (fun st0 i st0' => join2_outer_step_scratch s1 s2 _ _ nsm _ st0 i st0')
                    _ _ _ Hrun) as [_ Hlog].
      { unfold join2_scratch_inv, new_char. simpl. rewrite length_replicate.
        split; [done|constructor]. }
      intros off size Hin. rewrite Forall_forall in Hlog.
      specialize (Hlog (off, size) ltac:(by apply list_elem_of_In)).
      unfold copy_below in Hlog. simpl in Hlog. lia.
Qed.

Lemma stri_join2_scratch_bound_witness :
  exists st,
    for_each (join2_outer_step [CharLenCE [x61; x62] CE_NATIVE] [CharLenCE [x31] CE_NATIVE; NA_STRING]
                1 2 2) (seq 0 1)
             (Join2State (new_char 3) 0%Z (allocVector_STRSXP 2)) = Some st
    /\ forall off size, (off, size) ∈ copies (jbuf st) -> (0 <= off /\ off + size <= 3)%Z.
Proof.
  destruct (stri_join2_scratch_bound [CharLenCE [x61; x62] CE_NATIVE]
              [CharLenCE [x31] CE_NATIVE; NA_STRING])
    as (maxsize & Hsize & Hcopy); [simpl; lia|simpl; lia|reflexivity|].
  vm_compute in Hsize. injection Hsize as <-.
  destruct (Hcopy ltac:(lia)) as (st & Hrun & _ & Hlog).
  exists st. split; [exact Hrun|exact Hlog].
Defined.

(** ** stri_join2: identity, encoding, association *)

Lemma STRING_ELT_lookup (s : STRSXP) j x : s !! j = Some x -> STRING_ELT s j = x.
Proof. unfold STRING_ELT. by intros ->. Qed.

Lemma STRING_ELT_fmap_slot (s : STRSXP) (f : nat -> CHARSXP) j :
  (j < length s)%nat -> (forall k, (k < length s)%nat -> s !! k = Some (f k)) ->
  STRING_ELT s j = f j.
Proof. intros Hj Hs. apply STRING_ELT_lookup. by apply Hs. Qed.

(** X8.  The empty string is the identity of [stri_join2] on either side:
    joining a non-empty vector [a] with a single empty string returns the
    elements of [a], NA staying NA and every string keeping its bytes (its
    declared encoding becomes the native one), whenever the loop counter
    and the byte counts of the two calls stay in the range of [int]
    ([join2_fits], which with [a] as first operand asks for at most 2^30
    elements). *)
Theorem stri_join2_empty_string (a : STRSXP) (enc : cetype_t) :
  (0 < length a)%nat ->
  join2_fits a [CharLenCE [] enc] = true ->
  join2_fits [CharLenCE [] enc] a = true ->
  snd (stri_join2 a [CharLenCE [] enc]) = Some (as_native <$> a)
  /\ snd (stri_join2 [CharLenCE [] enc] a) = Some (as_native <$> a).
Proof.
  intros Ha Hr Hl.
  assert (recycled_length (length a) 1 = length a) as HLr
    by (rewrite recycled_length_max; lia).
  assert (recycled_length 1 (length a) = length a) as HLl
    by (rewrite recycled_length_max; lia).
  split.
  - destruct (stri_join2_spec a [CharLenCE [] enc] Ha ltac:(simpl; lia) Hr)
      as (r & -> & Hlen & Hslots).
    f_equal. simpl in Hlen, Hslots. rewrite HLr in Hlen, Hslots.
    apply list_eq. intros j. rewrite list_lookup_fmap.
    destruct (Nat.lt_ge_cases j (length a)) as [Hj|Hj].
    + rewrite (Hslots j Hj). destruct (lookup_lt_is_Some_2 a j Hj) as [x Hx].
      rewrite Hx. simpl. f_equal. unfold join2_slot, join2_live.
      rewrite Nat.mod_small by done. rewrite (STRING_ELT_lookup _ _ _ Hx).
      rewrite Nat.mod_1_r. simpl. destruct x; simpl; [done|]. by rewrite app_nil_r.
    + rewrite !lookup_ge_None_2 by lia. done.
  - destruct (stri_join2_spec [CharLenCE [] enc] a ltac:(simpl; lia) Ha Hl)
      as (r & -> & Hlen & Hslots).
    f_equal. simpl in Hlen, Hslots. rewrite HLl in Hlen, Hslots.
    apply list_eq. intros j. rewrite list_lookup_fmap.
    destruct (Nat.lt_ge_cases j (length a)) as [Hj|Hj].
    + rewrite (Hslots j Hj). destruct (lookup_lt_is_Some_2 a j Hj) as [x Hx].
      rewrite Hx. simpl. f_equal. unfold join2_slot, join2_live.
      rewrite (Nat.mod_small j (length a)) by done. rewrite (STRING_ELT_lookup _ _ _ Hx).
      rewrite Nat.mod_1_r. simpl. by destruct x.
    + rewrite !lookup_ge_None_2 by lia. done.
Qed.

Lemma stri_join2_empty_string_witness :
  snd (stri_join2 [CharLenCE [x61] CE_UTF8; NA_STRING] [CharLenCE [] CE_NATIVE])
  = Some [CharLenCE [x61] CE_NATIVE; NA_STRING]
  /\ snd (stri_join2 [CharLenCE [] CE_NATIVE] [CharLenCE [x61] CE_UTF8; NA_STRING])
     = Some [CharLenCE [x61] CE_NATIVE; NA_STRING].
Proof.
  apply (stri_join2_empty_string [CharLenCE [x61] CE_UTF8; NA_STRING] CE_NATIVE);
    [simpl; lia|reflexivity|reflexivity].
Defined.

(** X9.  With two non-empty operands whose loop counter and joined byte
    counts stay in the range of [int] ([join2_fits]), [stri_join2] never
    passes a declared encoding on: every string it returns is in the
    native encoding, whatever the encodings of the strings joined. *)
Theorem stri_join2_native_encoding (s1 s2 : STRSXP) :
  (0 < length s1)%nat -> (0 < length s2)%nat ->
  join2_fits s1 s2 = true ->
  exists r, snd (stri_join2 s1 s2) = Some r
    /\ forall i x enc, r !! i = Some (CharLenCE x enc) -> enc = CE_NATIVE.
Proof.
  intros Hs1 Hs2 Hfits.
  destruct (stri_join2_spec s1 s2 Hs1 Hs2 Hfits) as (r & Hr & Hlen & Hslots).
  exists r. split; [done|]. intros i x enc Hi.
  pose proof (lookup_lt_Some _ _ _ Hi) as Hlt. rewrite Hlen in Hlt.
  rewrite (Hslots i Hlt) in Hi. injection Hi as Hi. unfold join2_slot in Hi.
  destruct (join2_live _ _ _ _ _); [|done]. by injection Hi as _ <-.
Qed.

Lemma stri_join2_native_encoding_witness :
  exists r,
    snd (stri_join2 [CharLenCE [xc3; xa9] CE_UTF8] [CharLenCE [x61] CE_UTF8]) = Some r
    /\ forall i x enc, r !! i = Some (CharLenCE x enc) -> enc = CE_NATIVE.
Proof.
  apply (stri_join2_native_encoding [CharLenCE [xc3; xa9] CE_UTF8] [CharLenCE [x61] CE_UTF8]);
    [simpl; lia|simpl; lia|reflexivity].
Defined.

Lemma join2_slot_at (a b : STRSXP) n j :
  (j < n)%nat ->
  join2_slot a b n n j
  = if is_NA_STRING (STRING_ELT a j) || is_NA_STRING (STRING_ELT b j) then NA_STRING
    else CharLenCE (CHAR (STRING_ELT a j) ++ CHAR (STRING_ELT b j)) CE_NATIVE.
Proof.
  intros Hj. unfold join2_slot, join2_live. rewrite Nat.mod_small by done.
  by destruct (_ || _).
Qed.

Lemma join2_same_length (a b : STRSXP) :
  (0 < length a)%nat -> length b = length a -> join2_fits a b = true ->
  exists r, snd (stri_join2 a b) = Some r /\ length r = length a
    /\ forall j, (j < length a)%nat ->
         STRING_ELT r j
         = if is_NA_STRING (STRING_ELT a j) || is_NA_STRING (STRING_ELT b j) then NA_STRING
           else CharLenCE (CHAR (STRING_ELT a j) ++ CHAR (STRING_ELT b j)) CE_NATIVE.
Proof.
  intros Ha Hb Hfits.
  destruct (stri_join2_spec a b Ha ltac:(lia) Hfits) as (r & Hr & Hlen & Hslots).
  rewrite Hb, recycled_length_max, Nat.max_id in Hlen, Hslots by lia.
  exists r. split; [done|]. split; [done|]. intros j Hj.
  rewrite (STRING_ELT_lookup _ _ _ (Hslots j Hj)). by apply join2_slot_at.
Qed.

Lemma join2_fits_same_length (a b : STRSXP) :
  (0 < length a)%nat -> length b = length a ->
  join2_counter_fits (length a) (length a) = true ->
  (forall j, (j < length a)%nat ->
     is_NA_STRING (STRING_ELT a j) = false -> is_NA_STRING (STRING_ELT b j) = false ->
     (LENGTH (STRING_ELT a j) + LENGTH (STRING_ELT b j) <= INT_MAX)%Z) ->
  join2_fits a b = true.
Proof.
  intros Ha Hb Hcount Hall. unfold join2_fits.
  rewrite Hb, recycled_length_max, Nat.max_id by lia.
  rewrite Hcount. cbn [andb].
  apply forallb_forall. intros j Hj. apply list_elem_of_In, elem_of_seq in Hj.
  unfold join2_slot_fits, join2_live, join2_need. rewrite Nat.mod_small by lia.
  destruct (is_NA_STRING (STRING_ELT a j)) eqn:E1; [done|].
  destruct (is_NA_STRING (STRING_ELT b j)) eqn:E2; [done|]. simpl.
  apply Z.leb_le, Hall; [lia|done|done].
Qed.

(** X10.  On vectors of the same length [stri_join2] is associative:
    joining [a] with [b] and the result with [c] returns the same vector
    as joining [a] with the result of joining [b] with [c], whenever the
    loop counter stays in the range of [int] (at most 2^30 elements) and
    the byte counts of the pairs and of the three strings of every slot
    fit [R_len_t] ([join2_fits], [join3_fits]). *)
Theorem stri_join2_assoc (a b c : STRSXP) :
  (0 < length a)%nat -> length b = length a -> length c = length a ->
  join2_fits a b = true -> join2_fits b c = true -> join3_fits a b c = true ->
  exists ab bc r,
    snd (stri_join2 a b) = Some ab
    /\ snd (stri_join2 b c) = Some bc
    /\ snd (stri_join2 ab c) = Some r
    /\ snd (stri_join2 a bc) = Some r.
Proof.
  intros Ha Hb Hc Hab Hbc Habc.
  assert (join2_counter_fits (length a) (length a) = true) as Hcount.
  { unfold join2_fits in Hab. apply andb_true_iff in Hab as [Hcount _].
    by rewrite Hb, recycled_length_max, Nat.max_id in Hcount by lia. }
  destruct (join2_same_length a b Ha Hb Hab) as (ab & Hrab & Hlab & Hsab).
  destruct (join2_same_length b c ltac:(lia) ltac:(lia) Hbc) as (bc & Hrbc & Hlbc & Hsbc).
  rewrite Hb in Hlbc, Hsbc.
  assert (forall j, (j < length a)%nat -> join3_slot_fits a b c j = true) as H3.
  { intros j Hj. unfold join3_fits in Habc. rewrite forallb_forall in Habc. apply Habc.
    apply list_elem_of_In, elem_of_seq. lia. }
  assert (join2_fits ab c = true) as Hfabc.
  { apply join2_fits_same_length; [lia|lia|by rewrite Hlab|]. rewrite Hlab.
    intros j Hj Hna1 Hna2.
    specialize (H3 j Hj). unfold join3_slot_fits in H3. rewrite (Hsab j Hj) in Hna1 |- *.
    destruct (is_NA_STRING (STRING_ELT a j)); [done|].
    destruct (is_NA_STRING (STRING_ELT b j)); [done|].
    rewrite Hna2 in H3. simpl in H3 |- *. apply Z.leb_le in H3.
    unfold LENGTH in *. simpl. rewrite length_app. lia. }
  assert (join2_fits a bc = true) as Hfabc'.
  { apply join2_fits_same_length; [lia|lia|done|]. intros j Hj Hna1 Hna2.
    specialize (H3 j Hj). unfold join3_slot_fits in H3. rewrite (Hsbc j Hj) in Hna2 |- *.
    rewrite Hna1 in H3.
    destruct (is_NA_STRING (STRING_ELT b j)); [done|].
    destruct (is_NA_STRING (STRING_ELT c j)); [done|].
    simpl in H3 |- *. apply Z.leb_le in H3.
    unfold LENGTH in *. simpl. rewrite length_app. lia. }
  destruct (join2_same_length ab c ltac:(lia) ltac:(lia) Hfabc) as (r1 & Hr1 & Hl1 & Hs1).
  destruct (join2_same_length a bc Ha ltac:(lia) Hfabc') as (r2 & Hr2 & Hl2 & Hs2).
  rewrite Hlab in Hl1, Hs1.
  assert (r2 = r1) as ->.
  { apply list_eq. intros j.
    destruct (Nat.lt_ge_cases j (length a)) as [Hj|Hj].
    - destruct (lookup_lt_is_Some_2 r1 j ltac:(lia)) as [x1 Hx1].
      destruct (lookup_lt_is_Some_2 r2 j ltac:(lia)) as [x2 Hx2].
      rewrite Hx1, Hx2. f_equal.
      rewrite <- (STRING_ELT_lookup _ _ _ Hx1), <- (STRING_ELT_lookup _ _ _ Hx2).
      rewrite (Hs1 j Hj), (Hs2 j Hj), (Hsab j Hj), (Hsbc j Hj).
      destruct (is_NA_STRING (STRING_ELT a j)); [done|].
      destruct (is_NA_STRING (STRING_ELT b j)); [done|].
      destruct (is_NA_STRING (STRING_ELT c j)); [done|].
      simpl. by rewrite app_assoc.
    - rewrite !lookup_ge_None_2 by lia. done. }
  exists ab, bc, r1. done.
Qed.

Lemma stri_join2_assoc_witness :
  exists ab bc r,
    snd (stri_join2 [CharLenCE [x61] CE_NATIVE; NA_STRING] [CharLenCE [x62] CE_NATIVE; CharLenCE [x63] CE_NATIVE])
    = Some ab
    /\ snd (stri_join2 [CharLenCE [x62] CE_NATIVE; CharLenCE [x63] CE_NATIVE]
                       [CharLenCE [] CE_NATIVE; CharLenCE [x64] CE_NATIVE]) = Some bc
    /\ snd (stri_join2 ab [CharLenCE [] CE_NATIVE; CharLenCE [x64] CE_NATIVE]) = Some r
    /\ snd (stri_join2 [CharLenCE [x61] CE_NATIVE; NA_STRING] bc) = Some r.
Proof.
  apply (stri_join2_assoc [CharLenCE [x61] CE_NATIVE; NA_STRING]
           [CharLenCE [x62] CE_NATIVE; CharLenCE [x63] CE_NATIVE]
           [CharLenCE [] CE_NATIVE; CharLenCE [x64] CE_NATIVE]);
    [simpl; lia|reflexivity ..].
Defined.

(** ** stri_dup: order of the positions, copies *)

(** X11.  Whenever the products fit [R_len_t] ([dup_fits]), the emission
    loop of [stri_dup] gives the same vector, that of the naive duplicate,
    whatever the order in which the iterator yields the positions, as long
    as it yields every position below [nmax] and no other: the reset of
    the buffer at a change of source string makes the reuse independent of
    the order. *)
Theorem stri_dup_any_order to_utf8 (s : STRSXP) (c : list Z) (order : list nat) :
  dup_fits to_utf8 s c = true ->
  forall nmax ss bufsize,
    nmax = recycled_length (length s) (length c) ->
    ss = StriContainerUTF8_new to_utf8 s nmax ->
    bufsize = dup_bufsize ss c (length c) nmax ->
    (forall i, i ∈ order <-> (i < nmax)%nat) ->
    exists st,
      dup_loop ss c (length c) order
        (DupState (new_char (wrap (bufsize + 1))) None 0%Z (allocVector_STRSXP nmax)) = Some st
      /\ ret st = duplicate_naive to_utf8 s c.
Proof.
  intros Hfits nmax ss bufsize -> -> -> Horder.
  set (nmax := recycled_length (length s) (length c)) in *.
  set (ss := StriContainerUTF8_new to_utf8 s nmax) in *.
  unfold dup_fits in Hfits. fold nmax in Hfits. fold ss in Hfits.
  destruct (dup_bufsize_fold ss c (length c) (seq 0 nmax) Hfits 0%Z) as (HB & Hub & _).
  { unfold INT_MAX. lia. }
  fold (dup_bufsize ss c (length c) nmax) in HB, Hub.
  set (B := dup_bufsize ss c (length c) nmax) in *.
  destruct (dup_loop_spec ss c (length c) nmax B ltac:(lia)) with
    (order := order)
    (st := DupState (new_char (wrap (B + 1))) None 0%Z (allocVector_STRSXP nmax))
    as (st & Hrun & Hinv & Hin & _).
  - intros i Hi. rewrite forallb_forall in Hfits. apply Hfits.
    apply list_elem_of_In, elem_of_seq. lia.
  - intros i Hi. apply Hub, elem_of_seq. lia.
  - intros i Hi. by apply Horder.
  - unfold dup_inv, allocVector_STRSXP, new_char. simpl.
    rewrite wrap_small by (unfold in_R_len_t, INT_MIN; lia).
    rewrite !length_replicate. split; [lia|]. split; [done|]. split; [constructor|done].
  - exists st. split; [done|]. destruct Hinv as (_ & Hlen & _).
    unfold duplicate_naive. fold nmax.
    apply list_eq. intros j. rewrite list_lookup_fmap.
    destruct (Nat.lt_ge_cases j nmax) as [Hj|Hj].
    + rewrite (Hin j) by (by apply Horder). rewrite lookup_seq_lt by done. simpl.
      f_equal. apply dup_slot_naive.
      apply (recycled_length_pos (length s) (length c)). fold nmax. lia.
    + rewrite lookup_ge_None_2 by lia. by rewrite lookup_seq_ge.
Qed.

Lemma stri_dup_any_order_witness :
  exists st,
    dup_loop (StriContainerUTF8_new (fun _ b => b) [CharLenCE [x61] CE_UTF8; CharLenCE [x62] CE_UTF8] 4)
      [1; 2; 1; 3]%Z 4 [3; 0; 2; 1]%nat
      (DupState (new_char (wrap (3 + 1))) None 0%Z (allocVector_STRSXP 4)) = Some st
    /\ ret st = duplicate_naive (fun _ b => b)
                  [CharLenCE [x61] CE_UTF8; CharLenCE [x62] CE_UTF8] [1; 2; 1; 3]%Z.
Proof.
  apply (stri_dup_any_order (fun _ b => b) [CharLenCE [x61] CE_UTF8; CharLenCE [x62] CE_UTF8]
           [1; 2; 1; 3]%Z [3; 0; 2; 1]%nat); [reflexivity ..|].
  intros i. rewrite !elem_of_cons, elem_of_nil. simpl. lia.
Defined.

Lemma dup_paste_log (t : String8) (len max_index : Z) :
  forall fuel b li b' li',
    dup_paste fuel b li max_index t len = Some (b', li') ->
    (0 <= li)%Z -> (Z.of_nat (length (mem b)) <= INT_MAX)%Z ->
    length (mem b') = length (mem b)
    /\ (li <= li')%Z
    /\ log_total (copies b') = (log_total (copies b) + (li' - li))%Z
    /\ ((li' = li /\ copies b' = copies b)
        \/ exists off size, (off, size) ∈ copies b' /\ (off + size)%Z = li').
Proof.
  unfold dup_paste. induction fuel as [|fuel IH]; intros b li b' li' Hrun Hli Hmax; [done|].
  fold dup_paste in *. cbn [dup_paste] in Hrun.
  destruct (li <? max_index)%Z.
  - destruct (memcpy b li t len) as [b1|] eqn:E; [|done]. simpl in Hrun.
    apply memcpy_inv in E as (_ & Hlen & Hend & Hl1 & Hlog1).
    rewrite wrap_small in Hrun by (unfold in_R_len_t, INT_MIN; lia).
    destruct (IH _ _ _ _ Hrun ltac:(lia) ltac:(lia)) as (Hl' & Hle & Htot & Hlast).
    split; [congruence|]. split; [lia|]. split.
    + rewrite Htot, Hlog1. simpl. lia.
    + right. destruct Hlast as [[-> Hsame]|Hex]; [|done].
      exists li, len. split; [|done]. rewrite Hsame, Hlog1. apply elem_of_cons. by left.
  - injection Hrun as <- <-. split; [done|]. split; [lia|]. split; [lia|]. by left.
Qed.

Lemma dup_step_single ss cc nc st i st' :
  n ss = 1%nat ->
  dup_step ss cc nc st i = Some st' -> dup_single_inv st -> dup_single_inv st'.
Proof.
  intros Hn Hstep (Hli & Hmax & Htot & Hlast & Hls). unfold dup_step in Hstep.
  destruct (isNA ss i || (INTEGER_ELT cc (i mod nc) =? NA_INTEGER)%Z
            || (INTEGER_ELT cc (i mod nc) <? 0)%Z).
  { injection Hstep as <-. done. }
  destruct ((INTEGER_ELT cc (i mod nc) <=? 0)%Z || (String8_length (get ss i) <=? 0)%Z).
  { injection Hstep as <-. done. }
  assert (address_of_get ss i = 0%nat) as Haddr
    by (unfold address_of_get; rewrite Hn; apply Nat.mod_1_r).
  rewrite Haddr in Hstep.
  assert ((if decide (last_string st = Some 0%nat)
           then (last_string st, last_index st) else (Some 0%nat, 0%Z))
          = (Some 0%nat, last_index st)) as Hsel.
  { destruct (decide (last_string st = Some 0%nat)) as [->|Hne]; [done|].
    destruct (last_string st) as [a|]; [congruence|]. by rewrite Hls. }
  rewrite Hsel in Hstep.
  destruct (dup_paste _ _ _ _ _ _) as [[b li']|] eqn:Hpaste; [|done]. simpl in Hstep.
  destruct (mkCharLenCE _ _ _); [|done]. simpl in Hstep. injection Hstep as <-.
  apply dup_paste_log in Hpaste as (Hl' & Hle & Htot' & Hlast'); [|done|done].
  unfold dup_single_inv. simpl. split; [lia|]. split; [lia|]. split; [lia|].
  split; [|done].
  destruct Hlast' as [[-> Hsame]|Hex]; [|by right].
  rewrite Hsame. done.
Qed.

(** X12.  With a single source string and products that fit [R_len_t]
    ([dup_fits]), [stri_dup] copies at most [bufsize] bytes into the
    scratch during the whole call, however many counts there are and in
    whatever order: the copies already in the buffer are reused for every
    later count (as intended for [stri_dup('a', 1:1000)] and
    [stri_dup('a', 1000:1)]). *)
Theorem stri_dup_single_source_copies to_utf8 (x : CHARSXP) (c : list Z) :
  dup_fits to_utf8 [x] c = true ->
  forall nmax bufsize,
    nmax = recycled_length 1 (length c) ->
    bufsize = dup_bufsize (StriContainerUTF8_new to_utf8 [x] nmax) c (length c) nmax ->
    exists st, stri_dup_emit to_utf8 [x] c nmax = Some st
      /\ log_total (copies (buf st)) = last_index st
      /\ (log_total (copies (buf st)) <= bufsize)%Z.
Proof.
  intros Hfits nmax bufsize -> ->.
  destruct (stri_dup_emit_spec to_utf8 [x] c Hfits) as (st & Hrun & _ & _ & Hlog).
  simpl length in *.
  exists st. split; [done|].
  assert (0 <= dup_bufsize (StriContainerUTF8_new to_utf8 [x] (recycled_length 1 (length c)))
                 c (length c) (recycled_length 1 (length c)))%Z as HB.
  { unfold dup_fits in Hfits. simpl length in Hfits.
    destruct (dup_bufsize_fold _ c (length c) _ Hfits 0%Z) as (HB & _ & _);
      [unfold INT_MAX; lia|]. unfold dup_bufsize. lia. }
  unfold stri_dup_emit, dup_loop in Hrun.
  pose proof (for_each_inv _ dup_single_inv
                (fun st0 i st0' =>
                   dup_step_single
                     (StriContainerUTF8_new to_utf8 [x] (recycled_length 1 (length c)))
                     c (length c) st0 i st0' eq_refl)
                _ _ _ Hrun) as (_ & _ & Htot & Hlast & _).
  { unfold dup_single_inv, new_char. simpl. rewrite length_replicate.
    pose proof (wrap_le_INT_MAX
                  (dup_bufsize (StriContainerUTF8_new to_utf8 [x] (recycled_length 1 (length c)))
                     c (length c) (recycled_length 1 (length c)) + 1)).
    unfold INT_MAX in *. split; [lia|]. split; [lia|]. split; [done|].
    split; [by left|done]. }
  split; [done|]. rewrite Htot.
  destruct Hlast as [->|(off & size & Hin & <-)]; [done|].
  rewrite Forall_forall in Hlog.
  specialize (Hlog (off, size) ltac:(by apply list_elem_of_In)).
  unfold copy_below in Hlog. simpl in Hlog. lia.
Qed.

Lemma stri_dup_single_source_copies_witness :
  exists st,
    stri_dup_emit (fun _ b => b) [CharLenCE [x61] CE_UTF8] [1; 2; 3; 4; 3; 2]%Z 6 = Some st
    /\ log_total (copies (buf st)) = last_index st
    /\ (log_total (copies (buf st)) <= 4)%Z.
Proof.
  apply (stri_dup_single_source_copies (fun _ b => b) (CharLenCE [x61] CE_UTF8)
           [1; 2; 3; 4; 3; 2]%Z); reflexivity.
Defined.

(** ** stri_dup and stri_flatten_nosep *)

Lemma repeated_mjoin k (t : list byte) : mjoin (replicate k t) = repeated k t.
Proof. induction k as [|k IH]; simpl; [done|]. by rewrite IH. Qed.

(** X16.  Duplicating one non-empty string [k > 0] times returns the
    string that [stri_flatten_nosep] returns for the vector made of [k]
    copies of it (byte count fitting [R_len_t]). *)
Theorem stri_dup_is_flatten_of_copies to_utf8 (x : CHARSXP) (k : Z) :
  is_NA_STRING x = false ->
  (0 < k)%Z ->
  (0 < String8_length (view_bytes to_utf8 x))%Z ->
  dup_fits to_utf8 [x] [k] = true ->
  snd (stri_dup to_utf8 [x] [k])
  = snd <$> stri_flatten_nosep_run to_utf8 (replicate (Z.to_nat k) x).
Proof.
  intros Hx Hk Hlen Hfits.
  rewrite (dup_emits_naive to_utf8 [x] [k] Hfits).
  assert (utf8_view to_utf8 x = Some (view_bytes to_utf8 x)) as Hview by (by destruct x).
  assert ((k * String8_length (view_bytes to_utf8 x) < INT_MAX)%Z) as Hprod.
  { unfold dup_fits in Hfits. simpl in Hfits. rewrite andb_true_r in Hfits.
    unfold dup_slot_fits, dup_live, dup_need in Hfits.
    rewrite container_isNA in Hfits by (simpl; lia).
    rewrite (container_get to_utf8 [x] _ 0 (view_bytes to_utf8 x)) in Hfits
      by (simpl; first [lia | exact Hview]).
    change (STRING_ELT [x] (0 mod length [x])) with x in Hfits.
    change (INTEGER_ELT [k] (0 mod 1)) with k in Hfits.
    rewrite Hx in Hfits.
    destruct (Z.eqb_spec k NA_INTEGER) as [E|_].
    { rewrite E in Hk. unfold NA_INTEGER, INT_MIN in Hk. lia. }
    simpl in Hfits. apply andb_true_iff in Hfits as [_ Hhi]. by apply Z.ltb_lt in Hhi. }
  destruct (nosep_emits_concat to_utf8 (replicate (Z.to_nat k) x)) as (log & -> & _).
  - rewrite length_replicate. lia.
  - apply forallb_forall. intros y Hy. apply list_elem_of_In, elem_of_replicate in Hy as [-> _].
    by rewrite Hx.
  - unfold flatten_nosep_fits. apply Z.leb_le.
    rewrite fmap_replicate.
    assert (forall m (v : list byte), sum_list (length <$> replicate m v) = (m * length v)%nat)
      as Hsum.
    { intros m v. induction m as [|m IH]; [done|]. simpl. f_equal. exact IH. }
    rewrite Hsum. unfold String8_length in *. nia.
  - unfold duplicate_naive.
    change (recycled_length (length [x]) (length [k])) with 1%nat.
    cbn [seq fmap list_fmap option_fmap option_map snd].
    change (STRING_ELT [x] (0 mod length [x])) with x.
    change (INTEGER_ELT [k] (0 mod length [k])) with k.
    rewrite Hview. unfold naive_slot.
    destruct (Z.eqb_spec k NA_INTEGER) as [E|_].
    { rewrite E in Hk. unfold NA_INTEGER, INT_MIN in Hk. lia. }
    destruct (Z.ltb_spec k 0); [lia|].
    destruct (Z.eqb_spec k 0); [lia|].
    destruct (Z.eqb_spec (String8_length (view_bytes to_utf8 x)) 0); [lia|].
    by rewrite fmap_replicate, repeated_mjoin.
Qed.

Lemma stri_dup_is_flatten_of_copies_witness :
  snd (stri_dup (fun _ b => b) [CharLenCE [x61; x62] CE_UTF8] [3%Z])
  = snd <$> stri_flatten_nosep_run (fun _ b => b) (replicate (Z.to_nat 3) (CharLenCE [x61; x62] CE_UTF8)).
Proof.
  apply (stri_dup_is_flatten_of_copies (fun _ b => b) (CharLenCE [x61; x62] CE_UTF8) 3);
    [reflexivity|lia|vm_compute; reflexivity|reflexivity].
Defined.

(** ** Output encoding: witnesses *)

Lemma stri_dup_valid_utf8_witness :
  exists r,
    snd (stri_dup (fun _ b => b)
           [CharLenCE [xc3; xa9] CE_UTF8; NA_STRING; CharLenCE [x61] CE_UTF8] [2; 1; 0]%Z)
    = Some r
    /\ forall i x enc, r !! i = Some (CharLenCE x enc) -> valid_utf8 x = true.
Proof.
  apply (stri_dup_valid_utf8 (fun _ b => b)); reflexivity.
Defined.

Lemma stri_flatten_valid_utf8_witness :
  exists out,
    stri_flatten (fun _ b => b)
      [CharLenCE [xc3; xa9] CE_UTF8; CharLenCE [x61] CE_UTF8] (cons (CharLenCE [x2d] CE_UTF8) nil)
    = ([], Some [CharLenCE out CE_UTF8])
    /\ valid_utf8 out = true.
Proof.
  apply (stri_flatten_valid_utf8 (fun _ b => b)); [reflexivity|simpl; lia|reflexivity ..].
Defined.

Lemma stri_join2_keeps_utf8_witness :
  exists r,
    snd (stri_join2 [CharLenCE [xc3; xa9] CE_UTF8; NA_STRING] [CharLenCE [x61] CE_NATIVE]) = Some r
    /\ forall i x enc, r !! i = Some (CharLenCE x enc) -> valid_utf8 x = true.
Proof.
  apply (stri_join2_keeps_utf8 [CharLenCE [xc3; xa9] CE_UTF8; NA_STRING]
           [CharLenCE [x61] CE_NATIVE]); [simpl; lia|simpl; lia|reflexivity|].
  intros x Hx Hna. simpl in Hx.
  rewrite !elem_of_cons, elem_of_nil in Hx.
  destruct Hx as [->|[->|[->|[]]]]; [reflexivity|discriminate Hna|reflexivity].
Defined.

(** ** stri_dup and stri_join2 *)

Lemma repeated_add m k (t : list byte) : repeated (m + k) t = repeated m t ++ repeated k t.
Proof. induction m as [|m IH]; simpl; [done|]. by rewrite IH, app_assoc. Qed.

Lemma dup_single_string to_utf8 (x : CHARSXP) (k : Z) :
  is_NA_STRING x = false -> (0 < k)%Z -> (0 < String8_length (view_bytes to_utf8 x))%Z ->
  dup_fits to_utf8 [x] [k] = true ->
  snd (stri_dup to_utf8 [x] [k])
  = Some [CharLenCE (repeated (Z.to_nat k) (view_bytes to_utf8 x)) CE_UTF8]
  /\ (k * String8_length (view_bytes to_utf8 x) < INT_MAX)%Z.
Proof.
  intros Hx Hk Hlen Hfits.
  rewrite (dup_emits_naive to_utf8 [x] [k] Hfits).
  assert (utf8_view to_utf8 x = Some (view_bytes to_utf8 x)) as Hview by (by destruct x).
  assert (k <> NA_INTEGER) as Hna by (unfold NA_INTEGER, INT_MIN; lia).
  split.
  - unfold duplicate_naive.
    change (recycled_length (length [x]) (length [k])) with 1%nat.
    cbn [seq fmap list_fmap].
    change (STRING_ELT [x] (0 mod length [x])) with x.
    change (INTEGER_ELT [k] (0 mod length [k])) with k.
    rewrite Hview. unfold naive_slot.
    destruct (Z.eqb_spec k NA_INTEGER); [done|].
    destruct (Z.ltb_spec k 0); [lia|].
    destruct (Z.eqb_spec k 0); [lia|].
    destruct (Z.eqb_spec (String8_length (view_bytes to_utf8 x)) 0); [lia|]. done.
  - unfold dup_fits in Hfits. simpl in Hfits. rewrite andb_true_r in Hfits.
    unfold dup_slot_fits, dup_live, dup_need in Hfits.
    rewrite container_isNA in Hfits by (simpl; lia).
    rewrite (container_get to_utf8 [x] _ 0 (view_bytes to_utf8 x)) in Hfits
      by (simpl; first [lia | exact Hview]).
    change (STRING_ELT [x] (0 mod length [x])) with x in Hfits.
    change (INTEGER_ELT [k] (0 mod 1)) with k in Hfits.
    rewrite Hx in Hfits.
    destruct (Z.eqb_spec k NA_INTEGER); [done|].
    simpl in Hfits. apply andb_true_iff in Hfits as [_ Hhi]. by apply Z.ltb_lt in Hhi.
Qed.

(** X17.  Joining [m] copies of a string with [k] copies of it gives the
    bytes of [m + k] copies: for one non-empty string and positive counts,
    [stri_join2] of the two results of [stri_dup] returns the bytes that
    [stri_dup] returns for the count [m + k], in the native encoding. *)
Theorem stri_join2_of_dups to_utf8 (x : CHARSXP) (m k : Z) :
  is_NA_STRING x = false -> (0 < m)%Z -> (0 < k)%Z ->
  (0 < String8_length (view_bytes to_utf8 x))%Z ->
  dup_fits to_utf8 [x] [m] = true ->
  dup_fits to_utf8 [x] [k] = true ->
  dup_fits to_utf8 [x] [(m + k)%Z] = true ->
  exists dm dk dmk,
    snd (stri_dup to_utf8 [x] [m]) = Some dm
    /\ snd (stri_dup to_utf8 [x] [k]) = Some dk
    /\ snd (stri_dup to_utf8 [x] [(m + k)%Z]) = Some dmk
    /\ snd (stri_join2 dm dk) = Some (as_native <$> dmk).
Proof.
  intros Hx Hm Hk Hlen Hfm Hfk Hfmk.
  destruct (dup_single_string to_utf8 x m Hx Hm Hlen Hfm) as [Hdm _].
  destruct (dup_single_string to_utf8 x k Hx Hk Hlen Hfk) as [Hdk _].
  destruct (dup_single_string to_utf8 x (m + k) Hx ltac:(lia) Hlen Hfmk) as [Hdmk Hprod].
  eexists _, _, _. split; [exact Hdm|]. split; [exact Hdk|]. split; [exact Hdmk|].
  set (v := view_bytes to_utf8 x) in *.
  destruct (join2_same_length [CharLenCE (repeated (Z.to_nat m) v) CE_UTF8]
              [CharLenCE (repeated (Z.to_nat k) v) CE_UTF8]) as (r & -> & Hlr & Hsr).
  - simpl. lia.
  - done.
  - apply join2_fits_same_length; [simpl; lia|done|reflexivity|].
    intros j Hj _ _. simpl in Hj. assert (j = 0%nat) as -> by lia.
    unfold LENGTH. simpl. rewrite !repeated_length.
    unfold String8_length in *. nia.
  - f_equal. simpl in Hlr. destruct r as [|y [|z r]]; simpl in Hlr; [lia| |lia].
    specialize (Hsr 0%nat ltac:(simpl; lia)). simpl in Hsr. unfold STRING_ELT in Hsr.
    simpl in Hsr. rewrite Hsr. simpl. do 2 f_equal.
    rewrite <- repeated_add. f_equal. lia.
Qed.

Lemma stri_join2_of_dups_witness :
  exists dm dk dmk,
    snd (stri_dup (fun _ b => b) [CharLenCE [x61; x62] CE_UTF8] [2%Z]) = Some dm
    /\ snd (stri_dup (fun _ b => b) [CharLenCE [x61; x62] CE_UTF8] [1%Z]) = Some dk
    /\ snd (stri_dup (fun _ b => b) [CharLenCE [x61; x62] CE_UTF8] [(2 + 1)%Z]) = Some dmk
    /\ snd (stri_join2 dm dk) = Some (as_native <$> dmk).
Proof.
  apply (stri_join2_of_dups (fun _ b => b) (CharLenCE [x61; x62] CE_UTF8) 2 1);
    [reflexivity|lia|lia|vm_compute; reflexivity|reflexivity ..].
Defined.
